(** * Chunked annotation pipeline of Googolplex-Books

    A shallow embedding of the chunker, content cache, transform client,
    stage orchestrator, marker processor and document reconstructor of
    [src/processor.py] and [correcaoKDP.py], followed by the properties
    proved about them.

    Python [str] values are sequences of code points; they are modelled as
    [list ascii], an [ascii] standing for a code point below 256.  Python
    integers are modelled as [Z], lengths and indices as [nat]. *)

From Stdlib Require Import ZArith Ascii String DecimalString.
From stdpp Require Import gmap strings list.

(** ** Python strings *)

Abbreviation text := (list ascii).

Definition str (s : string) : text := list_ascii_of_string s.

Definition nl : ascii := ascii_of_nat 10.
Definition tab : ascii := ascii_of_nat 9.
Definition sp : ascii := ascii_of_nat 32.

(** [Py_UNICODE_ISSPACE] on the code points below 256: it decides both
    [str.strip()] and the regular-expression class [\s]. *)
Definition isspace (c : ascii) : bool :=
  let n := nat_of_ascii c in
  ((9 <=? n)%nat && (n <=? 13)%nat) || ((28 <=? n)%nat && (n <=? 32)%nat)
  || (n =? 133)%nat || (n =? 160)%nat.

Arguments isspace : simpl never.

Fixpoint lstrip (s : text) : text :=
  match s with
  | c :: r => if isspace c then lstrip r else s
  | [] => []
  end.

Definition rstrip (s : text) : text := rev (lstrip (rev s)).

(** [s.strip()] *)
Definition strip (s : text) : text := rstrip (lstrip s).

(** The text with every whitespace character removed. *)
Fixpoint unspace (s : text) : text :=
  match s with
  | [] => []
  | c :: r => if isspace c then unspace r else c :: unspace r
  end.

(** The text without the characters of the separators that the chunkers
    insert, line feed and space. *)
Definition without_separators (s : text) : text :=
  List.filter (fun c => negb (bool_decide (c = nl) || bool_decide (c = sp))) s.

(** [bool(s)] for a string: non-empty. *)
Definition nonempty (s : text) : bool :=
  match s with [] => false | _ => true end.

(** [s.startswith(p)] *)
Fixpoint startswith (p s : text) : bool :=
  match p, s with
  | [], _ => true
  | a :: p', b :: s' => if decide (a = b) then startswith p' s' else false
  | _ :: _, [] => false
  end.

(** [s.endswith(p)] *)
Definition endswith (p s : text) : bool := startswith (rev p) (rev s).

(** [s.split(sep)] for a non-empty [sep]: leftmost, non-overlapping
    occurrences.  [skip] counts the characters of the occurrence being
    consumed, [acc] holds the current piece in reverse. *)
Fixpoint split_go (sep : text) (skip : nat) (acc s : text) : list text :=
  match s with
  | [] => [rev acc]
  | c :: r =>
      match skip with
      | S k => split_go sep k acc r
      | O =>
          if startswith sep s
          then rev acc :: split_go sep (length sep - 1) [] r
          else split_go sep 0 (c :: acc) r
      end
  end.

Definition split (sep s : text) : list text := split_go sep 0 [] s.

(** [sep.join(l)] *)
Fixpoint join (sep : text) (l : list text) : text :=
  match l with
  | [] => []
  | [x] => x
  | x :: r => x ++ sep ++ join sep r
  end.

(** [str(n)] for a non-negative integer. *)
Definition decimal (n : nat) : text := str (NilZero.string_of_uint (Nat.to_uint n)).

(** [s.find(sep)] *)
Fixpoint find (sep s : text) : option nat :=
  if startswith sep s then Some 0
  else match s with
       | [] => None
       | _ :: r => S <$> find sep r
       end.

(** [needle in hay] *)
Fixpoint contains (needle hay : text) : bool :=
  startswith needle hay ||
  match hay with
  | [] => false
  | _ :: r => contains needle r
  end.

(** ** Settings ([config/settings.py], defaults) *)

Definition MAX_CHUNK_TOKENS : Z := 1500%Z.
Definition MAX_RETRIES : nat := 5.
Definition RETRY_BASE_WAIT : Z := 5%Z.
Definition AI_FAILURE_MARKER : text := str "*** FALHA NA IA ***".
Definition PARALLEL_CHUNKS : nat := 2.
Definition PAGE_BREAK_MARKER : text := str "===QUEBRA_DE_PAGINA===".

(** ** Content cache ([CorrectionCache], two SQLite tables keyed by digest)

    [hashlib.sha256(text.encode()).hexdigest()[:32]] is a library function;
    the cache is parametrised by it.  The [created_at] column, a timestamp
    that no query reads, is left out. *)

Record correction_row := CorrectionRow {
  cr_original : text;
  cr_corrected : text;
  cr_model : text
}.

Record footnote_row := FootnoteRow {
  fr_marked_text : text;
  fr_model : text
}.

Record CorrectionCache := Cache {
  corrections : gmap string correction_row;
  footnotes : gmap string footnote_row
}.

(** [_init_db] on a fresh file: both tables exist and are empty. *)
Definition init_db : CorrectionCache := Cache ∅ ∅.

(** The two stages; [mode] is ["correction"] or anything else. *)
Inductive stage_mode := Correction | Footnotes.

Section cache.
Variable _hash : text -> string.

Definition get_correction (c : CorrectionCache) (t : text) : option text :=
  cr_corrected <$> corrections c !! _hash t.

Definition set_correction (c : CorrectionCache) (original corrected model : text)
  : CorrectionCache :=
  Cache (<[_hash original := CorrectionRow original corrected model]> (corrections c))
        (footnotes c).

Definition get_footnotes (c : CorrectionCache) (t : text) : option text :=
  fr_marked_text <$> footnotes c !! _hash t.

Definition set_footnotes (c : CorrectionCache) (original marked model : text)
  : CorrectionCache :=
  Cache (corrections c)
        (<[_hash original := FootnoteRow marked model]> (footnotes c)).

(** A write to the cache, for sequences of intervening writes. *)
Inductive put_op :=
| PutCorrection (original corrected model : text)
| PutFootnotes (original marked model : text).

Definition apply_put (c : CorrectionCache) (p : put_op) : CorrectionCache :=
  match p with
  | PutCorrection o r m => set_correction c o r m
  | PutFootnotes o r m => set_footnotes c o r m
  end.

(** The stage and text a write is for. *)
Definition put_target (p : put_op) : stage_mode * text :=
  match p with
  | PutCorrection o _ _ => (Correction, o)
  | PutFootnotes o _ _ => (Footnotes, o)
  end.

(** The table and key a write goes to. *)
Definition put_key (p : put_op) : stage_mode * string :=
  match p with
  | PutCorrection o _ _ => (Correction, _hash o)
  | PutFootnotes o _ _ => (Footnotes, _hash o)
  end.

(** The cache seen by stage, as the orchestrator uses it. *)
Definition cache_get (stage : stage_mode) (c : CorrectionCache) (t : text)
  : option text :=
  match stage with
  | Correction => get_correction c t
  | Footnotes => get_footnotes c t
  end.

Definition cache_put (stage : stage_mode) (c : CorrectionCache)
    (t result model : text) : CorrectionCache :=
  match stage with
  | Correction => set_correction c t result model
  | Footnotes => set_footnotes c t result model
  end.
End cache.

(** ** Sentence boundaries

    [re.split(r'(?<=[.!?])\s+', s)]: a maximal run of whitespace that follows
    one of [. ! ?] separates two pieces.  [prev] tells whether the previous
    character is one of the three, [ws] whether a separating run is being
    consumed; [acc] holds the current piece in reverse. *)

Definition is_sentence_end (c : ascii) : bool :=
  let n := nat_of_ascii c in
  (n =? 46)%nat || (n =? 33)%nat || (n =? 63)%nat.

Fixpoint split_sentences_go (prev ws : bool) (acc s : text) : list text :=
  match s with
  | [] => [rev acc]
  | c :: r =>
      if isspace c then
        if ws then split_sentences_go false true [] r
        else if prev then rev acc :: split_sentences_go false true [] r
        else split_sentences_go false false (c :: acc) r
      else split_sentences_go (is_sentence_end c) false (c :: acc) r
  end.

Definition split_sentences (s : text) : list text :=
  split_sentences_go false false [] s.

(** The accumulator of the chunking loops: the chunks appended so far, the
    chunk being built and its size estimate. *)
Record chunker_state := ChunkerState {
  chunks : list text;
  current : text;
  current_tokens : Z
}.

(** [if current: chunks.append(current)] *)
Definition flush (st : chunker_state) : list text :=
  if nonempty (current st) then chunks st ++ [current st] else chunks st.

(** Everything a chunking loop holds: the chunks and the one being built. *)
Definition content (st : chunker_state) : text := concat (flush st).

(** [sep if s else ""] *)
Definition sep_if (s sep : text) : text := if nonempty s then sep else [].

(** ** Regular-expression substitution

    [pattern.sub(repl, s)] for a pattern that never matches the empty string:
    the text is scanned from the left; where the pattern matches, the match
    is handed to [repl], which also updates the state it closes over, and
    the scan resumes behind the match.  [matcher s] answers whether the
    pattern matches at the start of [s], with the groups and the text that
    follows the match; [skip] counts the characters of the match still to be
    passed over. *)

Section re_sub.
Context {M St : Type}.
Variable matcher : text -> option (M * text).
Variable repl : St -> M -> text * St.

Fixpoint re_sub_go (skip : nat) (st : St) (s : text) : text * St :=
  match s with
  | [] => ([], st)
  | c :: r =>
      match skip with
      | S k => re_sub_go k st r
      | O =>
          match matcher s with
          | Some (m, rest) =>
              let '(out, st1) := repl st m in
              let '(tl, st2) := re_sub_go (length r - length rest) st1 r in
              (out ++ tl, st2)
          | None =>
              let '(tl, st1) := re_sub_go 0 st r in
              (c :: tl, st1)
          end
      end
  end.

Definition re_sub (st : St) (s : text) : text * St := re_sub_go 0 st s.

(** The text as the scan sees it: characters left alone, and matches. *)
Inductive segment :=
| Plain (c : ascii)
| Match (m : M) (raw : text).

(** [pattern.finditer(s)], together with the text between the matches. *)
Fixpoint segments_go (skip : nat) (s : text) : list segment :=
  match s with
  | [] => []
  | c :: r =>
      match skip with
      | S k => segments_go k r
      | O =>
          match matcher s with
          | Some (m, rest) =>
              Match m (take (length s - length rest) s)
              :: segments_go (length r - length rest) r
          | None => Plain c :: segments_go 0 r
          end
      end
  end.

Definition segments (s : text) : list segment := segments_go 0 s.

Definition raw_of (g : segment) : text :=
  match g with Plain c => [c] | Match _ raw => raw end.

Definition matches_of (l : list segment) : list M :=
  omap (fun g => match g with Plain _ => None | Match m _ => Some m end) l.
End re_sub.

(** The clean text read off the segments: a character stays, a match that
    counts becomes the next number in brackets, any other match vanishes. *)
Fixpoint renumber {M} (counts : M -> bool) (n : nat) (l : list (segment (M := M))) : text :=
  match l with
  | [] => []
  | Plain c :: r => c :: renumber counts n r
  | Match m _ :: r =>
      if counts m then str "[" ++ decimal n ++ str "]" ++ renumber counts (S n) r
      else renumber counts n r
  end.

(** The notes read off the matches that count, numbered from [n]. *)
Definition numbered {M N} (counts : M -> bool) (mk : nat -> M -> N) (n : nat)
    (ms : list M) : list N :=
  imap (fun k m => mk (n + k) m) (List.filter counts ms).

(** The characters before the first [d], and those after it. *)
Fixpoint span_until (d : ascii) (s : text) : option (text * text) :=
  match s with
  | [] => None
  | c :: r =>
      if decide (c = d) then Some ([], r)
      else match span_until d r with
           | Some (a, b) => Some (c :: a, b)
           | None => None
           end
  end.

(** ** Transform client *)

(** What a run of the client does to the outside world, in order: a call of
    the external service, or a [time.sleep] whose duration is
    [base * 2 ** attempt], plus [jitter / 255 * base] when there is jitter. *)
Inductive client_event :=
| Invoke (attempt : nat)
| Sleep (base : Z) (attempt : nat) (jitter : option Z).

Definition is_invoke (e : client_event) : bool :=
  match e with Invoke _ => true | Sleep _ _ _ => false end.

Definition invocations (tr : list client_event) : nat :=
  length (List.filter is_invoke tr).

Definition sleeps (tr : list client_event) : nat :=
  length (List.filter (fun e => negb (is_invoke e)) tr).

Module Processor.

(** [count_tokens] as it is defined when [tiktoken] is not installed.  The
    other definition counts the tokens of the [cl100k_base] encoding, a
    library function: the chunker below takes the estimator as a parameter. *)
Definition count_tokens_fallback (t : text) : Z := (Z.of_nat (length t) / 4)%Z.

(** *** [ModelClient.generate] *)

Inductive backend := Ollama | Gemini | OpenAI | OtherBackend.

(** One call of [_gen_ollama], [_gen_gemini] or [_gen_openai]: the
    stripped response text, or an exception with its message. *)
Inductive gen_outcome :=
| Responded (t : text)
| Raised (msg : text).

(** An attempt that fails. *)
Definition raised (o : gen_outcome) : bool :=
  match o with Raised _ => true | Responded _ => false end.

Definition known (b : backend) : bool :=
  match b with OtherBackend => false | _ => true end.

(** The loop [for attempt in range(max_retries)], entered at [attempt]
    with [remaining] iterations left.  [service k] is what the service
    answers to the call made in attempt [k]. *)
Fixpoint generate_from (b : backend) (service : nat -> gen_outcome)
    (max_retries attempt remaining : nat) : option text * list client_event :=
  match remaining with
  | O => (None, [])
  | S remaining' =>
      if known b then
        match service attempt with
        | Responded t => (Some t, [Invoke attempt])
        | Raised _ =>
            let wait := if (attempt <? max_retries - 1)%nat
                        then [Sleep RETRY_BASE_WAIT attempt None] else [] in
            let '(r, tr) := generate_from b service max_retries (S attempt) remaining' in
            (r, Invoke attempt :: wait ++ tr)
        end
      else generate_from b service max_retries (S attempt) remaining'
  end.

Definition generate (b : backend) (service : nat -> gen_outcome)
    (max_retries : nat) : option text * list client_event :=
  generate_from b service max_retries 0 max_retries.

(** *** [create_chunks] *)

Section chunker.
Variable count_tokens : text -> Z.

(** Body of [for sent in sentences]. *)
Definition sentence_step (max_tokens : Z) (st : chunker_state) (sent : text)
  : chunker_state :=
  let sent_tokens := count_tokens sent in
  if (current_tokens st + sent_tokens + 1 <=? max_tokens)%Z then
    let sub := current st ++ sep_if (current st) [sp] ++ sent in
    ChunkerState (chunks st) sub (count_tokens sub)
  else
    let chunks1 := flush st in
    if (sent_tokens >? max_tokens)%Z
    then ChunkerState (chunks1 ++ [sent]) [] 0
    else ChunkerState chunks1 sent sent_tokens.

(** Body of [for para in text.split("\n\n")]. *)
Definition paragraph_step (max_tokens : Z) (st : chunker_state) (para0 : text)
  : chunker_state :=
  let para := strip para0 in
  if negb (nonempty para) then st else
  let para_tokens := count_tokens para in
  if (current_tokens st + para_tokens + 2 <=? max_tokens)%Z then
    let cur := current st ++ sep_if (current st) [nl; nl] ++ para in
    ChunkerState (chunks st) cur (count_tokens cur)
  else
    let chunks1 := flush st in
    if (para_tokens >? max_tokens)%Z then
      let sub := foldl (sentence_step max_tokens) (ChunkerState chunks1 [] 0)
                       (split_sentences para) in
      ChunkerState (chunks sub)
                   (if nonempty (current sub) then current sub else [])
                   (if nonempty (current sub) then current_tokens sub else 0)
    else ChunkerState chunks1 para para_tokens.

(** Body of [for chunk in chunks] in the merge pass. *)
Definition merge_step (max_tokens : Z) (st : chunker_state) (chunk : text)
  : chunker_state :=
  let chunk_tokens := count_tokens chunk in
  if (current_tokens st + chunk_tokens + 2 <=? max_tokens)%Z then
    let temp := current st ++ sep_if (current st) [nl; nl] ++ chunk in
    ChunkerState (chunks st) temp (count_tokens temp)
  else ChunkerState (flush st) chunk chunk_tokens.

(** The chunk list before the merge pass. *)
Definition first_pass (t : text) (max_tokens : Z) : list text :=
  flush (foldl (paragraph_step max_tokens) (ChunkerState [] [] 0) (split [nl; nl] t)).

Definition merge_pass (max_tokens : Z) (l : list text) : list text :=
  flush (foldl (merge_step max_tokens) (ChunkerState [] [] 0) l).

Definition create_chunks (t : text) (max_tokens : Z) : list text :=
  if negb (nonempty t) || negb (nonempty (strip t)) then []
  else merge_pass max_tokens (first_pass t max_tokens).
End chunker.

(** *** Workers and stage orchestrator *)

(** An element of [batch_results]: the pair a worker returns, or the
    exception it raised. *)
Inductive task_result :=
| Returned (idx : nat) (t : text)
| Failed.

(** A finished worker: its result, and the cache write it made. *)
Record worker_outcome := WorkerOutcome {
  wo_result : task_result;
  wo_write : option put_op
}.

(** [if x:] for an [Optional[str]]. *)
Definition truthy (o : option text) : option text :=
  match o with
  | Some t => if nonempty t then Some t else None
  | None => None
  end.

Record stage_state := StageState {
  results : list (option text);
  cache : CorrectionCache
}.

(** The text of a result, if it has one. *)
Definition task_value (r : task_result) : option text :=
  match r with
  | Returned _ t => Some t
  | Failed => None
  end.

(** [idx, text = result; results[idx] = text], nothing for an exception. *)
Definition place (rs : list (option text)) (r : task_result) : list (option text) :=
  match r with
  | Returned idx t => <[idx := Some t]> rs
  | Failed => rs
  end.

Section stage.
Variable _hash : text -> string.
(** [client idx prompt]: what [client.generate] returns to the worker of
    chunk [idx]; [fault idx]: that worker raises instead (a storage
    error). *)
Variable client : nat -> text -> option text.
Variable fault : nat -> bool.
Variable model_name : text.
Variable get_correction_prompt : text -> text -> bool -> text.
Variable get_footnote_prompt : text -> text -> text.
(** The order in which the workers of a batch complete. *)
Variable completion : list worker_outcome -> list worker_outcome.
(** [PARALLEL_CHUNKS]; a negative value is not modelled. *)
Variable batch_size : nat.

Definition process_correction (c : CorrectionCache) (chunk author : text)
    (is_first : bool) (idx : nat) : worker_outcome :=
  if fault idx then WorkerOutcome Failed None else
  match truthy (get_correction _hash c chunk) with
  | Some cached => WorkerOutcome (Returned idx cached) None
  | None =>
      match truthy (client idx (get_correction_prompt chunk author is_first)) with
      | Some result =>
          WorkerOutcome (Returned idx result)
                        (Some (PutCorrection chunk result model_name))
      | None =>
          WorkerOutcome (Returned idx (AI_FAILURE_MARKER ++ [nl; nl] ++ chunk)) None
      end
  end.

Definition process_footnotes (c : CorrectionCache) (chunk author : text)
    (idx : nat) : worker_outcome :=
  if fault idx then WorkerOutcome Failed None else
  match truthy (get_footnotes _hash c chunk) with
  | Some cached => WorkerOutcome (Returned idx cached) None
  | None =>
      match truthy (client idx (get_footnote_prompt chunk author)) with
      | Some result =>
          WorkerOutcome (Returned idx result)
                        (Some (PutFootnotes chunk result model_name))
      | None => WorkerOutcome (Returned idx chunk) None
      end
  end.

Definition worker (mode : stage_mode) (author : text) (c : CorrectionCache)
    (idx : nat) (chunk : text) : worker_outcome :=
  match mode with
  | Correction => process_correction c chunk author (idx =? 0)%nat idx
  | Footnotes => process_footnotes c chunk author idx
  end.

(** One iteration of [for i in range(0, len(chunks), batch_size)]: every
    worker of the batch looks the cache up before any of them writes to
    it; the writes land in completion order; [asyncio.gather] hands the
    results back in task order. *)
Definition run_batch (mode : stage_mode) (author : text) (all : list text)
    (i : nat) (st : stage_state) : stage_state :=
  let batch := take batch_size (drop i all) in
  let outcomes := imap (fun j chunk => worker mode author (cache st) (i + j) chunk) batch in
  StageState
    (foldl place (results st) (wo_result <$> outcomes))
    (foldl (apply_put _hash) (cache st) (omap wo_write (completion outcomes))).

Fixpoint run_batches (mode : stage_mode) (author : text) (all : list text)
    (fuel i : nat) (st : stage_state) : stage_state :=
  match fuel with
  | O => st
  | S fuel' =>
      if (i <? length all)%nat
      then run_batches mode author all fuel' (i + batch_size)
                       (run_batch mode author all i st)
      else st
  end.

(** [if r is None: results[i] = chunks[i]] *)
Definition fallback_none (all : list text) (rs : list (option text)) : list text :=
  imap (fun i r => from_option id (default [] (all !! i)) r) rs.

(** [None] stands for the [ValueError] of [range] with a zero step. *)
Definition process_chunks_parallel (all : list text) (author : text)
    (mode : stage_mode) (c : CorrectionCache) : option (list text * CorrectionCache) :=
  match batch_size with
  | O => None
  | S _ =>
      let st := run_batches mode author all (length all) 0
                            (StageState (replicate (length all) None) c) in
      Some (fallback_none all (results st), cache st)
  end.

(** The cache as the workers of the batch of chunk [k] find it: the
    state after the [k / batch_size] batches before theirs. *)
Definition cache_before (all : list text) (author : text) (mode : stage_mode)
    (c : CorrectionCache) (k : nat) : CorrectionCache :=
  cache (run_batches mode author all (k / batch_size) 0
                     (StageState (replicate (length all) None) c)).

(** The prompt sent for a chunk. *)
Definition prompt_of (mode : stage_mode) (author : text) (idx : nat) (chunk : text)
  : text :=
  match mode with
  | Correction => get_correction_prompt chunk author (idx =? 0)%nat
  | Footnotes => get_footnote_prompt chunk author
  end.

(** The text a stage falls back to when the transform fails. *)
Definition fallback_text (mode : stage_mode) (chunk : text) : text :=
  match mode with
  | Correction => AI_FAILURE_MARKER ++ [nl; nl] ++ chunk
  | Footnotes => chunk
  end.

(** What a stage owes for one chunk: the chunk itself when its worker
    raised, else the cached value, else the transform result, else the
    fallback text. *)
Definition stage_output (mode : stage_mode) (author : text) (c : CorrectionCache)
    (idx : nat) (chunk : text) : text :=
  if fault idx then chunk else
  match truthy (cache_get _hash mode c chunk) with
  | Some cached => cached
  | None =>
      match truthy (client idx (prompt_of mode author idx chunk)) with
      | Some result => result
      | None => fallback_text mode chunk
      end
  end.
End stage.

(** *** [extract_footnotes] *)

Record footnote := Footnote {
  number : nat;
  term : text;
  explanation : text
}.

(** [\[NOTA:([^|]+)\|([^\]]+)\]] at the start of [s]: groups 1 and 2. *)
Definition nota_match (s : text) : option ((text * text) * text) :=
  if startswith (str "[NOTA:") s then
    match span_until "|" (drop 6 s) with
    | Some (g1, r1) =>
        if nonempty g1 then
          match span_until "]" r1 with
          | Some (g2, r2) => if nonempty g2 then Some ((g1, g2), r2) else None
          | None => None
          end
        else None
    | None => None
    end
  else None.

(** An entry of [footnotes]. *)
Definition mk_footnote (n : nat) (m : text * text) : footnote :=
  Footnote n (strip (fst m)) (strip (snd m)).

(** The closure [replace]; its state is [(counter, footnotes)]. *)
Definition replace (st : nat * list footnote) (m : text * text)
  : text * (nat * list footnote) :=
  let '(counter, notes) := st in
  (str "[" ++ decimal counter ++ str "]",
   (S counter, notes ++ [Footnote counter (strip (fst m)) (strip (snd m))])).

Definition extract_footnotes (t : text) : text * list footnote :=
  let '(clean, (_, notes)) := re_sub nota_match replace (1, []) t in
  (clean, notes).

(** *** [generate_docx] *)

(** What is added to the document, in order.  The split of a paragraph
    into runs around the [[N]] references only affects styling and is
    left out. *)
Inductive doc_element :=
| PageBreak
| Para (t : text) (is_chapter is_error : bool)
| NotesTitle
| EmptyPara
| NotePara (n : footnote).

Section docx.
(** [chapter_regex.match(para_text) is not None] *)
Variable chapter_regex_match : text -> bool.

Definition part_elements (part : text) : list doc_element :=
  flat_map (fun para_text =>
              let para_text := strip para_text in
              if nonempty para_text
              then [Para para_text (chapter_regex_match para_text)
                         (startswith AI_FAILURE_MARKER para_text)]
              else [])
           (split [nl; nl] (strip part)).

(** [for part_idx, part in enumerate(parts)] *)
Definition body_elements (t : text) : list doc_element :=
  concat (imap (fun part_idx part =>
                  (if (0 <? part_idx)%nat then [PageBreak] else [])
                  ++ part_elements part)
               (split PAGE_BREAK_MARKER t)).

Definition notes_elements (notes : list footnote) : list doc_element :=
  match notes with
  | [] => []
  | _ => PageBreak :: NotesTitle :: EmptyPara :: (NotePara <$> notes)
  end.

(** The content of the saved document, on the path that returns [True]. *)
Definition generate_docx (t : text) (notes : list footnote) : list doc_element :=
  body_elements t ++ notes_elements notes.
End docx.

(** *** The runs of a paragraph in [generate_docx] *)

(** [\d] below code point 256: the ten digits. *)
Definition isdigit (c : ascii) : bool :=
  let n := nat_of_ascii c in (48 <=? n)%nat && (n <=? 57)%nat.

(** The digits at the start of [s], and what follows them. *)
Fixpoint span_digits (s : text) : text * text :=
  match s with
  | [] => ([], [])
  | c :: r =>
      if isdigit c then let '(d, r') := span_digits r in (c :: d, r')
      else ([], s)
  end.

(** [\[(\d+)\]] at the start of [s]: group 1 and the text behind the match. *)
Definition note_match (s : text) : option (text * text) :=
  match s with
  | [] => None
  | c :: r =>
      if decide (c = "["%char) then
        let '(d, r1) := span_digits r in
        if nonempty d then
          match r1 with
          | [] => None
          | c1 :: r2 => if decide (c1 = "]"%char) then Some (d, r2) else None
          end
        else None
      else None
  end.

(** [re.finditer(note_pattern, para_text)]: [(match.start(), match.end())]
    of every match, from the left and without overlap.  [pos] is the
    position of [s] in the paragraph, [skip] counts the characters of the
    match being passed over. *)
Fixpoint finditer_go (skip pos : nat) (s : text) : list (nat * nat) :=
  match s with
  | [] => []
  | _ :: r =>
      match skip with
      | S k => finditer_go k (S pos) r
      | O =>
          match note_match s with
          | Some (_, rest) =>
              (pos, pos + (length s - length rest))
              :: finditer_go (length r - length rest) (S pos) r
          | None => finditer_go 0 (S pos) r
          end
      end
  end.

Definition finditer (s : text) : list (nat * nat) := finditer_go 0 0 s.

(** [s[a:b]] for positions that are not negative. *)
Definition slice (a b : nat) (s : text) : text := take (b - a) (drop a s).

(** The formatting a run receives. *)
Inductive style :=
| ChapterStyle       (* 24 pt, bold *)
| ErrorStyle         (* red, italic *)
| NoStyle
| NoteStyle.         (* superscript, 8 pt *)

Record run := Run {
  run_text : text;
  run_style : style
}.

#[global] Instance style_eq_dec : EqDecision style.
Proof. solve_decision. Defined.

Definition text_style (is_chapter is_error : bool) : style :=
  if is_chapter then ChapterStyle else if is_error then ErrorStyle else NoStyle.

(** Body of [for match in re.finditer(note_pattern, para_text)]; the
    state is the runs added so far and [last_end]. *)
Definition run_step (para_text : text) (is_chapter is_error : bool)
    (st : list run * nat) (m : nat * nat) : list run * nat :=
  let '(runs, last_end) := st in
  let '(start, stop) := m in
  (runs
   ++ (if (last_end <? start)%nat
       then [Run (slice last_end start para_text) (text_style is_chapter is_error)]
       else [])
   ++ [Run (slice start stop para_text) NoteStyle],
   stop).

(** The runs of one paragraph of the body, the one that [Para para_text
    is_chapter is_error] stands for. *)
Definition paragraph_runs (para_text : text) (is_chapter is_error : bool) : list run :=
  let '(runs, last_end) :=
    foldl (run_step para_text is_chapter is_error) ([], 0) (finditer para_text) in
  runs ++ (if (last_end <? length para_text)%nat
           then [Run (drop last_end para_text) (text_style is_chapter is_error)]
           else []).

(** *** [process_book] *)

Section book.
Variable count_tokens : text -> Z.
Variable _hash : text -> string.
(** The client, the storage faults and the completion order as each of
    the two stages meets them. *)
Variables client1 client2 : nat -> text -> option text.
Variables fault1 fault2 : nat -> bool.
Variable model_name : text.
Variable get_correction_prompt : text -> text -> bool -> text.
Variable get_footnote_prompt : text -> text -> text.
Variables completion1 completion2 : list worker_outcome -> list worker_outcome.
Variable batch_size : nat.
Variable chapter_regex_match : text -> bool.
(** [generate_docx(final_text, footnotes, ...)] returns [True]: the
    template is there, python-docx accepts every text it is given, and the
    file is written.  Any exception in it makes it return [False]. *)
Variable docx_saved : text -> list footnote -> bool.

(** What [process_book] returns and the cache it leaves behind: the
    document that was saved, or [None] for [return False].  The input file
    is taken as read; the entry made in the books database after a success
    is left out. *)
Definition process_book (original author : text) (c : CorrectionCache)
  : option (list doc_element) * CorrectionCache :=
  match create_chunks count_tokens original MAX_CHUNK_TOKENS with
  | [] => (None, c)
  | chunks =>
      match process_chunks_parallel _hash client1 fault1 model_name
              get_correction_prompt get_footnote_prompt completion1 batch_size
              chunks author Correction c with
      | None => (None, c)
      | Some (corrected, c1) =>
          let corrected_text := join [nl; nl] corrected in
          let note_chunks := create_chunks count_tokens corrected_text MAX_CHUNK_TOKENS in
          match process_chunks_parallel _hash client2 fault2 model_name
                  get_correction_prompt get_footnote_prompt completion2 batch_size
                  note_chunks author Footnotes c1 with
          | None => (None, c1)
          | Some (marked, c2) =>
              let marked_text := join [nl; nl] marked in
              let '(final_text, footnotes) := extract_footnotes marked_text in
              (if docx_saved final_text footnotes
               then Some (generate_docx chapter_regex_match final_text footnotes)
               else None,
               c2)
          end
      end
  end.
End book.

End Processor.

Module CorrecaoKDP.

(** [count_tokens_approx] *)
Definition count_tokens_approx (t : text) : Z := (Z.of_nat (length t) / 3)%Z.

(** *** [_call_gemini_api] *)

(** What [model.generate_content] does in one attempt, as far as the
    function looks at it. *)
Inductive api_response :=
| Raises (msg : text)          (* the call itself raises; [msg] is [str(e)] *)
| Blocked                      (* [prompt_feedback.block_reason] is set *)
| NoCandidates                 (* [response.candidates] is empty *)
| CandidateParts (parts : list text)  (* [candidate.content.parts], their texts *)
| CandidateText (t : text)     (* no parts, [response.text] is used *)
| CandidateBroken.             (* reading the candidate raises *)

Definition is_quota_error (msg : text) : bool :=
  contains (str "RESOURCE_EXHAUSTED") msg || contains (str "429") msg.

(** The text extracted from a candidate: [None] when extraction raises. *)
Definition result_text (r : api_response) : option text :=
  match r with
  | CandidateParts parts =>
      Some (match parts with [] => [] | _ => strip (concat parts) end)
  | CandidateText t => Some (strip t)
  | _ => None
  end.

(** An attempt that does not hand a text back. *)
Definition attempt_fails (r : api_response) : bool :=
  match result_text r with
  | Some t => negb (nonempty t)
  | None => true
  end.

(** An attempt after which the loop goes on (when attempts remain). *)
Definition retried (r : api_response) : bool :=
  match r with
  | Blocked => false
  | _ => attempt_fails r
  end.

Definition max_retries : nat := 5.

Fixpoint call_from (service : nat -> api_response) (urandom : nat -> Z)
    (base_wait_time : Z) (attempt remaining : nat) : option text * list client_event :=
  match remaining with
  | O => (None, [])
  | S remaining' =>
      let retry base :=
        if (attempt <? max_retries - 1)%nat then
          let '(r, tr) := call_from service urandom base (S attempt) remaining' in
          (r, Invoke attempt :: Sleep base attempt (Some (urandom attempt)) :: tr)
        else (None, [Invoke attempt]) in
      match service attempt with
      | Raises msg =>
          retry (if is_quota_error msg then Z.max 15 base_wait_time else base_wait_time)
      | Blocked => (None, [Invoke attempt])
      | NoCandidates | CandidateBroken => retry base_wait_time
      | (CandidateParts _ | CandidateText _) as r =>
          match result_text r with
          | Some t => if nonempty t then (Some t, [Invoke attempt]) else retry base_wait_time
          | None => retry base_wait_time
          end
      end
  end.

Definition _call_gemini_api (service : nat -> api_response) (urandom : nat -> Z)
  : option text * list client_event :=
  call_from service urandom 5 0 max_retries.

(** *** [create_chunks] *)

(** [chunks[-1] += "\n\n"] when the last chunk is not blank and does not
    end with a blank line already. *)
Definition pad_last (l : list text) : list text :=
  match rev l with
  | [] => l
  | x :: r =>
      if nonempty (strip x) && negb (endswith [nl; nl] x)
      then rev r ++ [x ++ [nl; nl]] else l
  end.

(** The inner loop also counts the chunks it appends. *)
Record sub_state := SubState {
  sub_chunker : chunker_state;
  sub_chunks_added_count : nat
}.

Definition sub_content (st : sub_state) : text := content (sub_chunker st).

Definition sub_flush (st : sub_state) : sub_state :=
  if nonempty (current (sub_chunker st))
  then SubState (ChunkerState (chunks (sub_chunker st) ++ [current (sub_chunker st)])
                              (current (sub_chunker st))
                              (current_tokens (sub_chunker st)))
                (S (sub_chunks_added_count st))
  else st.

(** Body of [for sentence_num, sentence in enumerate(sentences)]. *)
Definition sentence_step (max_tokens : Z) (st : sub_state) (sentence : text)
  : sub_state :=
  if negb (nonempty (strip sentence)) then st else
  let cs := sub_chunker st in
  let sentence_tokens := count_tokens_approx sentence in
  let tokens_with_sub_separator :=
    (sentence_tokens + (if nonempty (current cs) then count_tokens_approx [nl] else 0))%Z in
  if (current_tokens cs + tokens_with_sub_separator <=? max_tokens)%Z then
    let sub := current cs ++ sep_if (current cs) [nl] ++ sentence in
    SubState (ChunkerState (chunks cs) sub (count_tokens_approx sub))
             (sub_chunks_added_count st)
  else
    let st1 := sub_flush st in
    let chunks1 := chunks (sub_chunker st1) in
    if (sentence_tokens >? max_tokens)%Z
    then SubState (ChunkerState (chunks1 ++ [sentence]) [] 0)
                  (S (sub_chunks_added_count st1))
    else SubState (ChunkerState chunks1 sentence sentence_tokens)
                  (sub_chunks_added_count st1).

(** The sentences of an oversized paragraph: its lines when the sentence
    pattern does not cut it. *)
Definition sentences_of (paragraph_text : text) : list text :=
  let sentences := split_sentences paragraph_text in
  if (length sentences <=? 1)%nat then split [nl] paragraph_text else sentences.

(** The subdivision of an oversized paragraph, appending to [chunks0]. *)
Definition subdivide (max_tokens : Z) (chunks0 : list text) (paragraph_text : text)
  : list text :=
  let st := foldl (sentence_step max_tokens)
                  (SubState (ChunkerState chunks0 [] 0) 0)
                  (sentences_of paragraph_text) in
  let st1 := sub_flush st in
  if (sub_chunks_added_count st1 =? 0)%nat
  then chunks (sub_chunker st1) ++ [paragraph_text]
  else chunks (sub_chunker st1).

(** Body of [for i, paragraph_text in enumerate(paragraphs)]. *)
Definition paragraph_step (max_tokens : Z) (st : chunker_state) (paragraph_text : text)
  : chunker_state :=
  if negb (nonempty (strip paragraph_text)) then
    ChunkerState (pad_last (chunks st)) (current st) (current_tokens st)
  else
  let paragraph_tokens := count_tokens_approx paragraph_text in
  let tokens_with_separator :=
    (paragraph_tokens
     + (if nonempty (current st) then count_tokens_approx [nl; nl] else 0))%Z in
  if (current_tokens st + tokens_with_separator <=? max_tokens)%Z then
    let cur := current st ++ sep_if (current st) [nl; nl] ++ paragraph_text in
    ChunkerState (chunks st) cur (count_tokens_approx cur)
  else
    let chunks1 := flush st in
    if (paragraph_tokens >? max_tokens)%Z
    then ChunkerState (subdivide max_tokens chunks1 paragraph_text) [] 0
    else ChunkerState chunks1 paragraph_text paragraph_tokens.

(** Body of [for i, chunk in enumerate(chunks)] in the merge pass. *)
Definition merge_step (max_tokens : Z) (st : chunker_state) (chunk : text)
  : chunker_state :=
  let chunk_tokens := count_tokens_approx chunk in
  let tokens_with_separator :=
    (chunk_tokens
     + (if nonempty (current st) then count_tokens_approx [nl; nl] else 0))%Z in
  if (current_tokens st + tokens_with_separator <=? max_tokens)%Z then
    let temp := current st ++ sep_if (current st) [nl; nl] ++ chunk in
    ChunkerState (chunks st) temp (count_tokens_approx temp)
  else ChunkerState (flush st) chunk chunk_tokens.

Definition first_pass (t : text) (max_tokens : Z) : list text :=
  flush (foldl (paragraph_step max_tokens) (ChunkerState [] [] 0) (split [nl; nl] t)).

Definition merge_pass (max_tokens : Z) (l : list text) : list text :=
  flush (foldl (merge_step max_tokens) (ChunkerState [] [] 0) l).

Definition create_chunks (t : text) (max_tokens : Z) : list text :=
  merge_pass max_tokens (first_pass t max_tokens).

(** *** [run_final_txt_generation]: the marker pairs *)

(** ASCII lower case; below code point 256 nothing else folds onto the
    letters of the marker names under [re.IGNORECASE]. *)
Definition lower (c : ascii) : ascii :=
  let n := nat_of_ascii c in
  if (65 <=? n)%nat && (n <=? 90)%nat then ascii_of_nat (n + 32) else c.

(** A literal of the pattern at the start of [s], ignoring case. *)
Fixpoint istartswith (p s : text) : bool :=
  match p, s with
  | [], _ => true
  | a :: p', b :: s' => if decide (lower a = lower b) then istartswith p' s' else false
  | _ :: _, [] => false
  end.

Definition kinds : list text :=
  [str "IDIOMA"; str "CITACAO"; str "NOME"; str "TERMO"].

(** [\[NOTA_(?:IDIOMA|CITACAO|NOME|TERMO):] at the start of [s]: what
    follows it. *)
Definition reference_open (s : text) : option text :=
  (fun k => drop (length (str "[NOTA_" ++ k ++ str ":")) s)
    <$> List.find (fun k => istartswith (str "[NOTA_" ++ k ++ str ":") s) kinds.

(** The whole pattern at the start of [s]: group 3, the content. *)
Definition footnote_match (s : text) : option (text * text) :=
  match reference_open s with
  | Some r0 =>
      match span_until "]" r0 with
      | Some (ref, r1) =>
          if nonempty ref then
            let r2 := lstrip r1 in
            if istartswith (str "[CONTEUDO_NOTA:") r2 then
              match span_until "]" (drop 15 r2) with
              | Some (g3, r3) => Some (g3, r3)
              | None => None
              end
            else None
          else None
      | None => None
      end
  | None => None
  end.

(** A content that is not blank. *)
Definition has_content (g3 : text) : bool := nonempty (strip g3).

(** An entry of [notes_found]. *)
Definition mk_note (n : nat) (g3 : text) : text :=
  decimal n ++ str ". " ++ strip g3.

(** The closure [replace_marker_and_collect_note]; its state is
    [(footnote_counter, notes_found)]. *)
Definition replace_marker_and_collect_note (st : nat * list text) (g3 : text)
  : text * (nat * list text) :=
  let '(footnote_counter, notes_found) := st in
  let content := strip g3 in
  if negb (nonempty content) then ([], st)
  else (str "[" ++ decimal footnote_counter ++ str "]",
        (S footnote_counter,
         notes_found ++ [decimal footnote_counter ++ str ". " ++ content])).

(** [final_numbered_text] and [notes_found]. *)
Definition run_final_txt_generation (marked : text) : text * list text :=
  let '(final, (_, notes)) :=
    re_sub footnote_match replace_marker_and_collect_note (1, []) marked in
  (final, notes).

(** *** [run_footnote_id_pass] *)

(** Body of [for i, chunk in progress_bar].  The state is
    [marked_text_list_pass2] and what was done to the outside world so far;
    [service i] and [urandom i] are the service and the source of jitter as
    [format_with_ai_footnote_only] meets them in the call for chunk [i]. *)
Definition footnote_step (service : nat -> nat -> api_response)
    (urandom : nat -> nat -> Z) (st : list text * list client_event)
    (ic : nat * text) : list text * list client_event :=
  let '(marked_text_list, tr) := st in
  let '(i, chunk) := ic in
  let '(marked_chunk, tr1) := _call_gemini_api (service i) (urandom i) in
  (marked_text_list ++ [match marked_chunk with Some m => m | None => chunk end],
   tr ++ tr1).

(** The pair [(success_status, marked_text_content)], and the calls made. *)
Definition run_footnote_id_pass (service : nat -> nat -> api_response)
    (urandom : nat -> nat -> Z) (corrected_text_content : option text)
  : (bool * option text) * list client_event :=
  match corrected_text_content with
  | None => ((false, None), [])
  | Some t =>
      match create_chunks t MAX_CHUNK_TOKENS with
      | [] => ((false, None), [])
      | text_chunks =>
          let '(marked_text_list, tr) :=
            foldl (footnote_step service urandom) ([], [])
                  (imap (fun i chunk => (i, chunk)) text_chunks) in
          ((true, Some (join [nl; nl] marked_text_list)), tr)
      end
  end.

(** *** The logs of finished books

    [load_processed_files] and [log_processed_file]; [load_translated_files]
    and [log_translated_file] are the same code on another file.  A log is
    [None] when the file does not exist, else its content as text mode
    reads it, with [\n] at the end of a line. *)

Definition carriage_return : ascii := ascii_of_nat 13.

Definition load_processed_files (log : option text) : gset text :=
  match log with
  | None => ∅
  | Some content =>
      list_to_set (List.filter nonempty (strip <$> split [nl] content))
  end.

(** [open(filepath, 'a')] creates the file when it is missing. *)
Definition log_processed_file (log : option text) (file_identifier : text)
  : option text :=
  Some (default [] log ++ file_identifier ++ [nl]).

End CorrecaoKDP.

(** * Vocabulary of the properties *)

(** [needle] occurs in [hay]. *)
Definition substring (needle hay : text) : Prop :=
  exists pre post, hay = pre ++ needle ++ post.

(** ** Invariants of the chunking loops of [processor.py] *)

Section chunk_invariants.
Variable max_tokens : Z.
(** The units that may be emitted although they exceed the bound. *)
Variable unit : text -> Prop.

Definition ok (c : text) : Prop :=
  (Processor.count_tokens_fallback c <= max_tokens)%Z \/ unit c.

(** First pass: every chunk is fine, the chunk being built is within the
    bound, and its size is tracked exactly. *)
Definition inv (st : chunker_state) : Prop :=
  Forall ok (chunks st)
  /\ ((Processor.count_tokens_fallback (current st) <= max_tokens)%Z \/ current st = [])
  /\ current_tokens st = Processor.count_tokens_fallback (current st).

(** Merge pass: the chunk being built may be a unit that is too large; it
    is then never joined to another one. *)
Definition merge_inv (st : chunker_state) : Prop :=
  Forall ok (chunks st)
  /\ (ok (current st) \/ current st = [])
  /\ current_tokens st = Processor.count_tokens_fallback (current st).
End chunk_invariants.

(** A chunk emitted although it exceeds the bound: a sentence of a
    paragraph of the text whose own estimate exceeds it. *)
Definition oversized_sentence (t : text) (max_tokens : Z) (c : text) : Prop :=
  (max_tokens < Processor.count_tokens_fallback c)%Z
  /\ exists para, para ∈ split [nl; nl] t /\ c ∈ split_sentences (strip para).

(** The seconds a wait without jitter lasts. *)
Definition wait_seconds (e : client_event) : option Z :=
  match e with
  | Sleep base attempt None => Some (base * 2 ^ Z.of_nat attempt)%Z
  | _ => None
  end.

(** ** The marker protocol, as the patterns define it *)

(** [s] begins with a marker of [processor.py], [[NOTA:term|explanation]]:
    a term without [|] and an explanation without []], neither of them
    empty; [m] holds the two and [rest] is what follows the marker. *)
Definition nota_marker (s : text) (m : text * text) (rest : text) : Prop :=
  s = str "[NOTA:" ++ m.1 ++ str "|" ++ m.2 ++ str "]" ++ rest
  /\ m.1 <> [] /\ ("|"%char ∉ m.1) /\ m.2 <> [] /\ ("]"%char ∉ m.2).

(** [s] begins with a marker pair of [correcaoKDP.py]: a reference tag of
    one of the four kinds with a reference that is not empty, whitespace,
    and a content tag; the tag names are read without regard to case, and
    neither the reference nor the content holds a []].  [g3] is the content
    and [rest] what follows the pair. *)
Definition pair_marker (s : text) (g3 : text) (rest : text) : Prop :=
  exists kind opener ref w copener,
    kind ∈ CorrecaoKDP.kinds
    /\ s = opener ++ ref ++ str "]" ++ w ++ copener ++ g3 ++ str "]" ++ rest
    /\ CorrecaoKDP.lower <$> opener
       = CorrecaoKDP.lower <$> (str "[NOTA_" ++ kind ++ str ":")
    /\ ref <> [] /\ ("]"%char ∉ ref) /\ forallb isspace w = true
    /\ CorrecaoKDP.lower <$> copener = CorrecaoKDP.lower <$> str "[CONTEUDO_NOTA:"
    /\ ("]"%char ∉ g3).

(** A marker of [processor.py] that is valid: its explanation is not
    blank. *)
Definition explained (m : text * text) : bool := nonempty (strip m.2).

(** The scan of a text for markers, from the left and without overlap: at
    each position the marker that begins there is taken, and the scan goes
    on behind it; a character at which no marker begins is left alone. *)
Inductive scan {M : Type} (marker : text -> M -> text -> Prop)
  : text -> list (segment (M := M)) -> Prop :=
| scan_end : scan marker [] []
| scan_plain c r segs :
    (forall m rest, ~ marker (c :: r) m rest) ->
    scan marker r segs ->
    scan marker (c :: r) (Plain c :: segs)
| scan_match raw m rest segs :
    raw <> [] ->
    marker (raw ++ rest) m rest ->
    scan marker rest segs ->
    scan marker (raw ++ rest) (Match m raw :: segs).

(** ** Vocabulary of the further properties *)

(** The last character of the text, if any, is not whitespace. *)
Definition ends_clean (s : text) : Prop :=
  forall r c, s = r ++ [c] -> isspace c = false.

(** The loop invariant: no chunk is blank, and the chunk being built is
    empty or not blank. *)
Definition nonblank_inv (st : chunker_state) : Prop :=
  Forall (fun c => unspace c <> []) (chunks st)
  /\ (current st = [] \/ unspace (current st) <> []).

(** The paragraphs [create_chunks] of [processor.py] works on: the pieces
    between blank lines, stripped, without the empty ones. *)
Definition paragraphs (t : text) : list text :=
  List.filter nonempty (strip <$> split [nl; nl] t).

#[global] Instance stage_mode_eq_dec : EqDecision stage_mode.
Proof. solve_decision. Defined.

(** The result a write stores. *)
Definition put_value (p : put_op) : text :=
  match p with
  | PutCorrection _ r _ => r
  | PutFootnotes _ r _ => r
  end.

(** The write a worker makes for a fresh result. *)
Definition put_of (mode : stage_mode) (chunk result model : text) : put_op :=
  match mode with
  | Correction => PutCorrection chunk result model
  | Footnotes => PutFootnotes chunk result model
  end.

(** The texts of the body paragraphs of a document, in order. *)
Definition para_texts (els : list Processor.doc_element) : list text :=
  omap (fun e => match e with Processor.Para t _ _ => Some t | _ => None end) els.

Definition is_page_break (e : Processor.doc_element) : bool :=
  match e with Processor.PageBreak => true | _ => false end.

(** The number of page breaks of a document. *)
Definition page_breaks (els : list Processor.doc_element) : nat :=
  length (List.filter is_page_break els).

(** [if footnotes:] *)
Definition nonempty_notes (notes : list Processor.footnote) : bool :=
  match notes with [] => false | _ => true end.

(** Spans that follow one another from [lo] on inside a text of length
    [len], each of them non-empty. *)
Fixpoint chain (len lo : nat) (spans : list (nat * nat)) : Prop :=
  match spans with
  | [] => True
  | (a, b) :: r => lo <= a /\ a < b /\ b <= len /\ chain len b r
  end.

(** A reference as the document shows it: digits in square brackets. *)
Definition is_reference (s : text) : Prop :=
  exists d, s = str "[" ++ d ++ str "]" /\ d <> []
            /\ Forall (fun c => Processor.isdigit c = true) d.

(** A log whose last line is complete. *)
Definition complete_lines (log : option text) : Prop :=
  match log with
  | None => True
  | Some content => content = [] \/ exists r, content = r ++ [nl]
  end.

(** * Properties *)

(** ** Content cache *)

Section cache_facts.
Variable _hash : text -> string.

Lemma cache_get_apply_put stage c t p :
  put_key _hash p ≠ (stage, _hash t) ->
  cache_get _hash stage (apply_put _hash c p) t = cache_get _hash stage c t.
Proof.
  destruct stage, p; simpl; intros Hne;
    unfold get_correction, get_footnotes, set_correction, set_footnotes; simpl;
    try reflexivity;
    rewrite lookup_insert_ne; congruence.
Qed.

Lemma cache_get_puts stage t puts : forall c,
  Forall (fun p => put_key _hash p ≠ (stage, _hash t)) puts ->
  cache_get _hash stage (foldl (apply_put _hash) c puts) t = cache_get _hash stage c t.
Proof.
  induction puts as [|p puts IH]; intros c Hall; simpl; [reflexivity|].
  inversion Hall; subst. rewrite IH by assumption.
  by apply cache_get_apply_put.
Qed.

Lemma cache_get_put stage c t result model :
  cache_get _hash stage (cache_put _hash stage c t result model) t = Some result.
Proof.
  destruct stage; simpl;
    unfold get_correction, get_footnotes, set_correction, set_footnotes; simpl;
    by rewrite lookup_insert_eq.
Qed.
End cache_facts.

(** C9.  After [put(stage, text, result)], and whatever is then put for
    other stages or texts, [get(stage, text)] returns exactly [result]; a
    later put for the same stage and text replaces the value; and a worker
    that finds the (non-empty) value returns it without consulting the
    service or writing to the cache.  The tables are keyed by digest: the
    texts put in between are taken to have digests other than that of
    [text]. *)
Theorem cache_get_after_put (_hash : text -> string) (stage : stage_mode)
    (c : CorrectionCache) (t result model : text) (puts : list put_op) :
  Forall (fun p => put_target p ≠ (stage, t)) puts ->
  Forall (fun p => snd (put_target p) ≠ t -> _hash (snd (put_target p)) ≠ _hash t) puts ->
  let c1 := foldl (apply_put _hash) (cache_put _hash stage c t result model) puts in
  cache_get _hash stage c1 t = Some result
  /\ (forall result' model',
        cache_get _hash stage (cache_put _hash stage c1 t result' model') t = Some result')
  /\ (nonempty result = true ->
      forall client fault model_name cprompt fprompt author idx,
        fault idx = false ->
        Processor.worker _hash client fault model_name cprompt fprompt stage author c1 idx t
        = Processor.WorkerOutcome (Processor.Returned idx result) None).
Proof.
  intros Hputs Hdigest c1.
  assert (Hkeys : Forall (fun p => put_key _hash p ≠ (stage, _hash t)) puts).
  { apply Forall_forall. intros p Hp.
    pose proof (proj1 (Forall_forall _ _) Hputs p Hp) as H1.
    pose proof (proj1 (Forall_forall _ _) Hdigest p Hp) as H2.
    destruct p as [o r m|o r m]; simpl in *; intros [= <- Hh];
      (destruct (decide (o = t)) as [->|Hne]; [by apply H1|by apply H2]). }
  assert (Hget : cache_get _hash stage c1 t = Some result).
  { unfold c1. rewrite cache_get_puts by assumption. apply cache_get_put. }
  split; [exact Hget|]. split.
  - intros. apply cache_get_put.
  - intros Hne client fault model_name cprompt fprompt author idx Hfault.
    destruct stage; simpl in *;
      unfold Processor.process_correction, Processor.process_footnotes;
      rewrite Hfault, Hget; simpl; by rewrite Hne.
Qed.

Lemma cache_get_after_put_witness :
  let h := string_of_list_ascii in
  let puts := [PutFootnotes (str "abc") (str "n") (str "m");
               PutCorrection (str "xyz") (str "other") (str "m")] in
  Forall (fun p => put_target p ≠ (Correction, str "abc")) puts
  /\ Forall (fun p => snd (put_target p) ≠ str "abc" ->
                      h (snd (put_target p)) ≠ h (str "abc")) puts
  /\ cache_get h Correction
       (foldl (apply_put h) (cache_put h Correction init_db (str "abc") (str "ABC") (str "m")) puts)
       (str "abc") = Some (str "ABC").
Proof.
  simpl. split; [|split].
  - repeat constructor; discriminate.
  - repeat constructor; simpl; intros; try discriminate; done.
  - apply (cache_get_after_put string_of_list_ascii Correction init_db
             (str "abc") (str "ABC") (str "m")
             [PutFootnotes (str "abc") (str "n") (str "m");
              PutCorrection (str "xyz") (str "other") (str "m")]).
    + repeat constructor; discriminate.
    + repeat constructor; simpl; intros; try discriminate; done.
Defined.

(** C10.  The two stages' tables are disjoint: a correction write leaves
    the footnotes table, hence every [get_footnotes], unchanged, and a
    footnotes write leaves the corrections table and every [get_correction]
    unchanged. *)
Theorem cache_stores_disjoint (_hash : text -> string) (c : CorrectionCache)
    (t r m t' : text) :
  footnotes (set_correction _hash c t r m) = footnotes c
  /\ get_footnotes _hash (set_correction _hash c t r m) t' = get_footnotes _hash c t'
  /\ corrections (set_footnotes _hash c t r m) = corrections c
  /\ get_correction _hash (set_footnotes _hash c t r m) t' = get_correction _hash c t'.
Proof. repeat split. Qed.

(** ** Transform client *)

Lemma invocations_cons e tr :
  invocations (e :: tr) = ((if is_invoke e then 1 else 0) + invocations tr)%nat.
Proof. unfold invocations. simpl. by destruct (is_invoke e). Qed.

Lemma invocations_app tr1 tr2 :
  invocations (tr1 ++ tr2) = (invocations tr1 + invocations tr2)%nat.
Proof. unfold invocations. by rewrite List.filter_app, length_app. Qed.

Module ProcessorClient.
Import Processor.

Lemma generate_from_invocations b service mr : forall remaining attempt,
  (invocations (snd (generate_from b service mr attempt remaining)) <= remaining)%nat.
Proof.
  induction remaining as [|n IH]; intros attempt; simpl; [done|].
  destruct (known b); [|specialize (IH (S attempt)); lia].
  destruct (service attempt) as [t|msg]; simpl.
  - unfold invocations; simpl; lia.
  - specialize (IH (S attempt)).
    destruct (generate_from b service mr (S attempt) n) as [r tr]; simpl in *.
    rewrite invocations_cons, invocations_app; simpl.
    destruct (attempt <? mr - 1)%nat; unfold invocations in *; simpl; lia.
Qed.

Lemma generate_from_all_raise b service mr : forall remaining attempt,
  (forall k, (attempt <= k < attempt + remaining)%nat -> raised (service k) = true) ->
  fst (generate_from b service mr attempt remaining) = None.
Proof.
  induction remaining as [|n IH]; intros attempt Hall; simpl; [done|].
  destruct (known b).
  - pose proof (Hall attempt ltac:(lia)) as Ha.
    destruct (service attempt) as [t|msg]; [discriminate|].
    specialize (IH (S attempt) ltac:(intros; apply Hall; lia)).
    by destruct (generate_from b service mr (S attempt) n).
  - apply IH. intros; apply Hall; lia.
Qed.

(** Every wait of [generate] is [RETRY_BASE_WAIT * 2 ** attempt], whatever
    the exception was. *)
Lemma generate_from_sleeps b service mr : forall remaining attempt e,
  e ∈ snd (generate_from b service mr attempt remaining) ->
  is_invoke e = true \/ exists a, e = Sleep RETRY_BASE_WAIT a None.
Proof.
  induction remaining as [|n IH]; intros attempt e; simpl.
  - intros H; inversion H.
  - destruct (known b); [|apply IH].
    destruct (service attempt) as [t|msg]; simpl.
    + intros H. apply list_elem_of_singleton in H. subst. by left.
    + specialize (IH (S attempt) e).
      destruct (generate_from b service mr (S attempt) n) as [r tr]; simpl in *.
      rewrite elem_of_cons, elem_of_app. intros [->|[H|H]]; [by left| |by apply IH].
      destruct (attempt <? mr - 1)%nat.
      * apply list_elem_of_singleton in H. right. eauto.
      * inversion H.
Qed.
End ProcessorClient.

Module KDPClient.
Import CorrecaoKDP.

Lemma call_from_invocations service urandom : forall remaining base attempt,
  (invocations (snd (call_from service urandom base attempt remaining)) <= remaining)%nat.
Proof.
  induction remaining as [|n IH]; intros base attempt; simpl; [done|].
  assert (Hretry : forall base',
    (invocations (snd (if (attempt <? max_retries - 1)%nat
                       then let '(r, tr) := call_from service urandom base' (S attempt) n in
                            (r, Invoke attempt :: Sleep base' attempt (Some (urandom attempt)) :: tr)
                       else (None, [Invoke attempt]))) <= S n)%nat).
  { intros base'. destruct (attempt <? max_retries - 1)%nat.
    - specialize (IH base' (S attempt)).
      destruct (call_from service urandom base' (S attempt) n) as [r tr]; simpl in *.
      rewrite !invocations_cons; simpl. lia.
    - unfold invocations; simpl; lia. }
  assert (Hone : (invocations [Invoke attempt] <= S n)%nat)
    by (unfold invocations; simpl; lia).
  destruct (service attempt) as [msg| | |parts|t|]; simpl; try apply Hretry; try exact Hone.
  - destruct (nonempty _); [exact Hone|apply Hretry].
  - destruct (nonempty _); [exact Hone|apply Hretry].
Qed.

Lemma call_from_all_fail service urandom : forall remaining base attempt,
  (forall k, (attempt <= k < attempt + remaining)%nat -> attempt_fails (service k) = true) ->
  fst (call_from service urandom base attempt remaining) = None.
Proof.
  induction remaining as [|n IH]; intros base attempt Hall; simpl; [done|].
  assert (Hretry : forall base',
    fst (if (attempt <? max_retries - 1)%nat
         then let '(r, tr) := call_from service urandom base' (S attempt) n in
              (r, Invoke attempt :: Sleep base' attempt (Some (urandom attempt)) :: tr)
         else (None, [Invoke attempt])) = None).
  { intros base'. destruct (attempt <? max_retries - 1)%nat; [|done].
    specialize (IH base' (S attempt) ltac:(intros; apply Hall; lia)).
    by destruct (call_from service urandom base' (S attempt) n). }
  pose proof (Hall attempt ltac:(lia)) as Ha. unfold attempt_fails in Ha.
  destruct (service attempt) as [msg| | |parts|t|]; simpl in *; try apply Hretry; try done.
  - destruct (nonempty _); [discriminate|apply Hretry].
  - destruct (nonempty _); [discriminate|apply Hretry].
Qed.

(** Once the loop is entered at [attempt] and all attempts before [k] are
    retried, a quota error in attempt [k] makes the wait that follows it
    start from a base of at least 15 seconds. *)
Lemma call_from_quota_wait service urandom k msg : forall remaining base attempt,
  (attempt <= k)%nat -> (k < attempt + remaining)%nat -> (k < max_retries - 1)%nat ->
  (forall j, (attempt <= j < k)%nat -> retried (service j) = true) ->
  service k = Raises msg -> is_quota_error msg = true ->
  exists b, (15 <= b)%Z /\
    Sleep b k (Some (urandom k)) ∈ snd (call_from service urandom base attempt remaining).
Proof.
  induction remaining as [|n IH]; intros base attempt Hle Hlt Hk Hret Hsk Hq; [lia|].
  destruct (decide (attempt = k)) as [->|Hne].
  - exists (Z.max 15 base). split; [lia|].
    assert (Hk' : (k <? 4)%nat = true) by (apply Nat.ltb_lt; exact Hk).
    simpl. rewrite Hsk, Hq, Hk'.
    destruct (call_from _ _ _ _ _); simpl. set_solver.
  - assert (Ha : (attempt <? 4)%nat = true)
      by (apply Nat.ltb_lt; change (max_retries - 1)%nat with 4%nat in Hk; lia).
    assert (Hstep : forall base',
      exists b, (15 <= b)%Z /\ Sleep b k (Some (urandom k)) ∈
        snd (let '(r, tr) := call_from service urandom base' (S attempt) n in
             (r, Invoke attempt :: Sleep base' attempt (Some (urandom attempt)) :: tr))).
    { intros base'.
      destruct (IH base' (S attempt) ltac:(lia) ltac:(lia) Hk
                   ltac:(intros; apply Hret; lia) Hsk Hq) as (b & Hb & Hin).
      exists b. split; [done|].
      destruct (call_from service urandom base' (S attempt) n); simpl in *. set_solver. }
    pose proof (Hret attempt ltac:(lia)) as Hr.
    simpl. rewrite Ha. unfold retried, attempt_fails in Hr.
    destruct (service attempt) as [m'| | |parts|t|]; simpl in *; try done.
    + destruct (nonempty _); [discriminate|apply Hstep].
    + destruct (nonempty _); [discriminate|apply Hstep].
Qed.
End KDPClient.

Module ProcessorWaits.
Import Processor.

Lemma generate_from_unknown b service mr : forall remaining attempt,
  known b = false -> generate_from b service mr attempt remaining = (None, []).
Proof.
  induction remaining as [|n IH]; intros attempt Hb; simpl; [done|].
  rewrite Hb. by apply IH.
Qed.

(** The calls of [generate] are numbered by attempt, from the attempt at
    which the loop is entered. *)
Lemma generate_from_calls b service mr : forall remaining attempt,
  List.filter is_invoke (snd (generate_from b service mr attempt remaining))
  = Invoke <$> seq attempt
                   (invocations (snd (generate_from b service mr attempt remaining))).
Proof.
  induction remaining as [|n IH]; intros attempt; simpl; [done|].
  destruct (known b) eqn:Hb.
  2:{ by rewrite generate_from_unknown. }
  destruct (service attempt) as [t|msg]; [done|].
  specialize (IH (S attempt)).
  destruct (generate_from b service mr (S attempt) n) as [r tr]. cbn [snd] in *.
  rewrite invocations_cons, invocations_app. cbn [is_invoke].
  cbn [List.filter is_invoke]. rewrite List.filter_app, IH.
  by destruct (attempt <? mr - 1)%nat.
Qed.

(** Every wait of [generate] stands right behind the call of a failed
    attempt and is [RETRY_BASE_WAIT * 2 ** attempt] for that attempt,
    without jitter. *)
Lemma generate_from_waits b service mr : forall remaining attempt i w a j,
  snd (generate_from b service mr attempt remaining) !! i = Some (Sleep w a j) ->
  w = RETRY_BASE_WAIT /\ j = None /\ raised (service a) = true /\ (a < mr - 1)%nat
  /\ exists i', i = S i'
       /\ snd (generate_from b service mr attempt remaining) !! i' = Some (Invoke a).
Proof.
  induction remaining as [|n IH]; intros attempt i w a j; simpl; [done|].
  destruct (known b) eqn:Hb.
  2:{ by rewrite generate_from_unknown. }
  destruct (service attempt) as [t|msg] eqn:Es.
  { destruct i as [|[|i]]; done. }
  specialize (IH (S attempt)).
  destruct (generate_from b service mr (S attempt) n) as [r tr]. cbn [snd] in *.
  destruct i as [|i]; [done|]. cbn [lookup list_lookup].
  destruct (attempt <? mr - 1)%nat eqn:El.
  - destruct i as [|i]; simpl.
    + intros [= <- <- <-]. apply Nat.ltb_lt in El.
      rewrite Es. repeat split; try done. by exists 0.
    + intros H. destruct (IH i w a j H) as (-> & -> & Hr & Hlt & i' & -> & Hi').
      repeat split; try done. by exists (S (S i')).
  - simpl. intros H. destruct (IH i w a j H) as (-> & -> & Hr & Hlt & i' & -> & Hi').
    repeat split; try done. by exists (S i').
Qed.

(** What [generate] does depends on which attempts raise, not on what
    the exceptions say. *)
Lemma generate_from_messages b service service' mr : forall remaining attempt,
  (forall k, raised (service k) = raised (service' k)) ->
  snd (generate_from b service mr attempt remaining)
  = snd (generate_from b service' mr attempt remaining).
Proof.
  induction remaining as [|n IH]; intros attempt Hs; simpl; [done|].
  destruct (known b) eqn:Hb.
  2:{ by rewrite !generate_from_unknown. }
  specialize (IH (S attempt) Hs). specialize (Hs attempt).
  destruct (service attempt) as [t|msg], (service' attempt) as [t'|msg'];
    try discriminate Hs; [done|].
  destruct (generate_from b service mr (S attempt) n) as [r tr].
  destruct (generate_from b service' mr (S attempt) n) as [r' tr'].
  cbn [snd] in *. by rewrite IH.
Qed.
End ProcessorWaits.

(** C7, as the code has it.  A transform call invokes the service at most
    five times ([_call_gemini_api]) or at most [max_retries] times, five by
    default ([ModelClient.generate]), and returns [None] when every attempt
    fails.  [_call_gemini_api] waits from a base of at least 15 seconds
    after a quota error.  [ModelClient.generate] has no such rule: its
    calls are numbered by attempt, every wait stands right behind the call
    of a failed attempt and is [RETRY_BASE_WAIT * 2 ** attempt] for that
    attempt, without jitter, and nothing of what it does depends on what
    the exceptions say. *)
Theorem transform_client_retries
    (service : nat -> CorrecaoKDP.api_response) (urandom : nat -> Z)
    (b : Processor.backend) (gservice : nat -> Processor.gen_outcome) (n : nat) :
  ((invocations (snd (CorrecaoKDP._call_gemini_api service urandom)) <= 5)%nat
   /\ ((forall k, (k < 5)%nat -> CorrecaoKDP.attempt_fails (service k) = true) ->
       fst (CorrecaoKDP._call_gemini_api service urandom) = None)
   /\ (forall k msg, (k < 4)%nat ->
         (forall j, (j < k)%nat -> CorrecaoKDP.retried (service j) = true) ->
         service k = CorrecaoKDP.Raises msg -> CorrecaoKDP.is_quota_error msg = true ->
         exists w, (15 <= w)%Z /\
           Sleep w k (Some (urandom k)) ∈ snd (CorrecaoKDP._call_gemini_api service urandom)))
  /\ ((invocations (snd (Processor.generate b gservice n)) <= n)%nat
      /\ ((forall k, (k < n)%nat -> Processor.raised (gservice k) = true) ->
          fst (Processor.generate b gservice n) = None)
      /\ (forall e, e ∈ snd (Processor.generate b gservice n) ->
            is_invoke e = true \/ exists a, e = Sleep RETRY_BASE_WAIT a None)
      /\ List.filter is_invoke (snd (Processor.generate b gservice n))
         = Invoke <$> seq 0 (invocations (snd (Processor.generate b gservice n)))
      /\ (forall i w a j,
            snd (Processor.generate b gservice n) !! i = Some (Sleep w a j) ->
            w = RETRY_BASE_WAIT /\ j = None
            /\ wait_seconds (Sleep w a j) = Some (RETRY_BASE_WAIT * 2 ^ Z.of_nat a)%Z
            /\ Processor.raised (gservice a) = true /\ (a < n - 1)%nat
            /\ exists i', i = S i'
                 /\ snd (Processor.generate b gservice n) !! i' = Some (Invoke a))
      /\ (forall gservice',
            (forall k, Processor.raised (gservice k) = Processor.raised (gservice' k)) ->
            snd (Processor.generate b gservice n)
            = snd (Processor.generate b gservice' n))).
Proof.
  split; [split; [|split]|split; [|split; [|split; [|split; [|split]]]]].
  - apply KDPClient.call_from_invocations.
  - intros Hall. apply KDPClient.call_from_all_fail. intros k Hk. apply Hall.
    unfold CorrecaoKDP.max_retries in Hk. lia.
  - intros k msg Hk Hret Hsk Hq.
    apply (KDPClient.call_from_quota_wait service urandom k msg); try done.
    + lia.
    + unfold CorrecaoKDP.max_retries. lia.
    + intros j Hj. apply Hret. lia.
  - apply ProcessorClient.generate_from_invocations.
  - intros Hall. apply ProcessorClient.generate_from_all_raise.
    intros k Hk. apply Hall. lia.
  - apply ProcessorClient.generate_from_sleeps.
  - apply ProcessorWaits.generate_from_calls.
  - intros i w a j H.
    destruct (ProcessorWaits.generate_from_waits b gservice n n 0 i w a j H)
      as (-> & -> & Hr & Hlt & Hi).
    repeat split; done.
  - intros gservice' Hs. by apply ProcessorWaits.generate_from_messages.
Qed.

Lemma transform_client_retries_witness :
  let service := fun _ : nat => CorrecaoKDP.Raises (str "429 quota") in
  let gservice := fun _ : nat => Processor.Raised (str "429 quota") in
  (forall k, (k < 5)%nat -> CorrecaoKDP.attempt_fails (service k) = true)
  /\ fst (CorrecaoKDP._call_gemini_api service (fun _ => 0%Z)) = None
  /\ (forall k, (k < MAX_RETRIES)%nat -> Processor.raised (gservice k) = true)
  /\ fst (Processor.generate Processor.Ollama gservice MAX_RETRIES) = None.
Proof.
  intros service gservice.
  pose proof (transform_client_retries service (fun _ => 0%Z)
                Processor.Ollama gservice MAX_RETRIES) as [[_ [H1 _]] [_ [H2 _]]].
  split; [intros; reflexivity|]. split; [apply H1; intros; reflexivity|].
  split; [intros; reflexivity|]. apply H2; intros; reflexivity.
Defined.

(** C7 as stated fails for [ModelClient.generate]: after a failure that
    signals a quota condition its waits still start from [RETRY_BASE_WAIT]. *)
Lemma generate_ignores_quota_signal :
  let gservice := fun _ : nat => Processor.Raised (str "429 RESOURCE_EXHAUSTED") in
  CorrecaoKDP.is_quota_error (str "429 RESOURCE_EXHAUSTED") = true
  /\ snd (Processor.generate Processor.Ollama gservice MAX_RETRIES)
     = [Invoke 0; Sleep 5 0 None; Invoke 1; Sleep 5 1 None; Invoke 2;
        Sleep 5 2 None; Invoke 3; Sleep 5 3 None; Invoke 4]
  /\ ~ (exists w a j, (RETRY_BASE_WAIT < w)%Z /\
          Sleep w a j ∈ snd (Processor.generate Processor.Ollama gservice MAX_RETRIES)).
Proof.
  split; [reflexivity|]. split; [reflexivity|].
  intros (w & a & j & Hw & Hin). vm_compute in Hin.
  repeat (apply elem_of_cons in Hin as [Hin|Hin];
          [try discriminate; injection Hin as -> _ _; vm_compute in Hw; discriminate|]).
  inversion Hin.
Qed.

(** ** Text *)

Lemma unspace_app a b : unspace (a ++ b) = unspace a ++ unspace b.
Proof. induction a as [|c a IH]; simpl; [done|]. destruct (isspace c); simpl; congruence. Qed.

Lemma unspace_rev a : unspace (rev a) = rev (unspace a).
Proof.
  induction a as [|c a IH]; simpl; [done|].
  rewrite unspace_app, IH. simpl. destruct (isspace c); simpl; [by rewrite app_nil_r|done].
Qed.

Lemma unspace_lstrip a : unspace (lstrip a) = unspace a.
Proof. induction a as [|c a IH]; simpl; [done|]. destruct (isspace c) eqn:E; simpl; [done|by rewrite E]. Qed.

Lemma unspace_strip a : unspace (strip a) = unspace a.
Proof.
  unfold strip, rstrip. rewrite unspace_rev, unspace_lstrip, unspace_rev, rev_involutive.
  apply unspace_lstrip.
Qed.

Lemma nonempty_false a : nonempty a = false -> a = [].
Proof. by destruct a. Qed.

Lemma unspace_blank a : nonempty (strip a) = false -> unspace a = [].
Proof. intros H. apply nonempty_false in H. by rewrite <- unspace_strip, H. Qed.

Lemma unspace_sep_if s sep : unspace sep = [] -> unspace (sep_if s sep) = [].
Proof. unfold sep_if. by destruct (nonempty s). Qed.

Lemma startswith_app p : forall s, startswith p s = true -> s = p ++ drop (length p) s.
Proof.
  induction p as [|a p IH]; intros [|b s]; simpl; try done.
  destruct (decide (a = b)) as [->|]; [|done]. intros H. f_equal. by apply IH.
Qed.

Lemma startswith_prefix p r : startswith p (p ++ r) = true.
Proof. induction p as [|a p IH]; simpl; [done|]. by rewrite decide_True. Qed.

Lemma split_go_nonnil sep : forall s k acc, split_go sep k acc s <> [].
Proof.
  induction s as [|c r IH]; intros k acc; simpl; [done|].
  destruct k; [|apply IH]. destruct (startswith sep (c :: r)); [done|apply IH].
Qed.

Lemma join_cons sep x l : l <> [] -> join sep (x :: l) = x ++ sep ++ join sep l.
Proof. by destruct l. Qed.

(** Joining the pieces of a split with the separator gives the text back. *)
Lemma join_split_go sep : sep <> [] -> forall s k acc,
  join sep (split_go sep k acc s) = rev acc ++ drop k s.
Proof.
  intros Hsep. induction s as [|c r IH]; intros k acc.
  - simpl. by rewrite drop_nil, app_nil_r.
  - destruct k as [|k]; [|apply IH].
    cbn [split_go]. destruct (startswith sep (c :: r)) eqn:E.
    + rewrite join_cons by apply split_go_nonnil. rewrite IH. simpl.
      apply startswith_app in E. destruct sep as [|a sep]; [done|]. simpl in *.
      injection E as -> E. rewrite Nat.sub_0_r. rewrite E at 2. done.
    + rewrite IH. simpl. by rewrite <- app_assoc.
Qed.

Lemma join_split sep s : sep <> [] -> join sep (split sep s) = s.
Proof. intros H. unfold split. by rewrite join_split_go. Qed.

Lemma unspace_join sep l : unspace sep = [] -> unspace (join sep l) = unspace (concat l).
Proof.
  intros Hsep. induction l as [|x l IH]; [done|].
  destruct l as [|y l]; [simpl; by rewrite app_nil_r|].
  change (join sep (x :: y :: l)) with (x ++ sep ++ join sep (y :: l)).
  change (concat (x :: y :: l)) with (x ++ concat (y :: l)).
  by rewrite !unspace_app, Hsep, IH.
Qed.

Lemma unspace_split sep s :
  sep <> [] -> unspace sep = [] -> unspace (concat (split sep s)) = unspace s.
Proof. intros H1 H2. by rewrite <- (unspace_join sep), join_split. Qed.

Lemma unspace_split_sentences_go : forall s prev ws acc,
  (ws = true -> acc = []) ->
  unspace (concat (split_sentences_go prev ws acc s)) = unspace (rev acc ++ s).
Proof.
  induction s as [|c r IH]; intros prev ws acc Hws; simpl.
  - by rewrite !app_nil_r.
  - destruct (isspace c) eqn:Ec.
    + destruct ws.
      * rewrite IH by done. rewrite (Hws eq_refl). simpl. by rewrite Ec.
      * destruct prev.
        -- simpl. rewrite unspace_app, IH by done. simpl.
           rewrite (unspace_app (rev acc)). simpl. by rewrite Ec.
        -- rewrite IH by done. simpl. by rewrite <- app_assoc.
    + rewrite IH by done. simpl. by rewrite <- app_assoc.
Qed.

Lemma unspace_split_sentences s : unspace (concat (split_sentences s)) = unspace s.
Proof. unfold split_sentences. by rewrite unspace_split_sentences_go. Qed.

Lemma concat_flush st : concat (flush st) = concat (chunks st) ++ current st.
Proof.
  unfold flush. destruct (current st); simpl; [by rewrite app_nil_r|].
  rewrite concat_app. simpl. by rewrite app_nil_r.
Qed.

(** A loop whose every step adds the characters of its item, up to
    whitespace, adds those of the whole list. *)
Lemma unspace_foldl {S} (content : S -> text) (step : S -> text -> S) :
  (forall st x, unspace (content (step st x)) = unspace (content st) ++ unspace x) ->
  forall l st,
    unspace (content (foldl step st l)) = unspace (content st) ++ unspace (concat l).
Proof.
  intros Hstep. induction l as [|x l IH]; intros st; simpl.
  - by rewrite app_nil_r.
  - by rewrite IH, Hstep, unspace_app, <- app_assoc.
Qed.



(** ** Chunk coverage *)

Ltac ink :=
  repeat first
    [ progress simpl chunks | progress simpl current
    | rewrite concat_flush | rewrite concat_app | rewrite unspace_app
    | rewrite (unspace_sep_if _ [sp] eq_refl)
    | rewrite (unspace_sep_if _ [nl] eq_refl)
    | rewrite (unspace_sep_if _ [nl; nl] eq_refl)
    | rewrite app_nil_r | progress simpl concat | progress simpl app ].

Module ProcessorCoverage.
Import Processor.

Section coverage.
Variable count_tokens : text -> Z.

Lemma sentence_step_content max st sent :
  unspace (content (sentence_step count_tokens max st sent)) = unspace (content st) ++ unspace sent.
Proof.
  unfold content, sentence_step.
  destruct (_ <=? _)%Z; [|destruct (_ >? _)%Z]; ink; by rewrite <- ?app_assoc.
Qed.

Lemma paragraph_step_content max st para :
  unspace (content (paragraph_step count_tokens max st para)) = unspace (content st) ++ unspace para.
Proof.
  unfold paragraph_step.
  destruct (nonempty (strip para)) eqn:Hne; simpl.
  2:{ by rewrite (unspace_blank para), app_nil_r. }
  rewrite <- (unspace_strip para).
  destruct (_ <=? _)%Z; [|destruct (_ >? _)%Z].
  - unfold content. ink. by rewrite <- ?app_assoc.
  - set (sub := foldl _ _ _).
    assert (Hsub : unspace (content sub)
                   = unspace (content st) ++ unspace (strip para)).
    { unfold sub. rewrite (unspace_foldl content _ (sentence_step_content max)).
      rewrite unspace_split_sentences. unfold content. ink. done. }
    rewrite <- Hsub. unfold content. ink.
    by destruct (nonempty (current sub)) eqn:E; [|apply nonempty_false in E; rewrite E].
  - unfold content. ink. done.
Qed.

Lemma merge_step_content max st chunk :
  unspace (content (merge_step count_tokens max st chunk)) = unspace (content st) ++ unspace chunk.
Proof.
  unfold content, merge_step.
  destruct (_ <=? _)%Z; ink; by rewrite <- ?app_assoc.
Qed.

Lemma create_chunks_content t max :
  unspace (concat (create_chunks count_tokens t max)) = unspace t.
Proof.
  unfold create_chunks.
  destruct (nonempty t) eqn:Ht; simpl.
  2:{ apply nonempty_false in Ht. by subst. }
  destruct (nonempty (strip t)) eqn:Hs; simpl.
  2:{ by rewrite unspace_blank. }
  unfold merge_pass, first_pass.
  change (concat (flush ?s)) with (content s).
  rewrite (unspace_foldl content _ (merge_step_content max)). simpl.
  change (concat (flush ?s)) with (content s).
  rewrite (unspace_foldl content _ (paragraph_step_content max)). simpl.
  by apply unspace_split.
Qed.
End coverage.
End ProcessorCoverage.

Module KDPCoverage.
Import CorrecaoKDP.

Lemma concat_pad_last l : unspace (concat (pad_last l)) = unspace (concat l).
Proof.
  unfold pad_last. destruct (rev l) as [|x r] eqn:E; [done|].
  destruct (_ && _); [|done].
  rewrite <- (rev_involutive l), E. simpl. ink. done.
Qed.

Lemma sub_flush_content st :
  concat (chunks (sub_chunker (sub_flush st))) = sub_content st.
Proof.
  unfold sub_flush, sub_content, content, flush.
  by destruct (nonempty (current (sub_chunker st))).
Qed.

Lemma kdp_sentence_step_content max st sentence :
  unspace (sub_content (sentence_step max st sentence))
  = unspace (sub_content st) ++ unspace sentence.
Proof.
  unfold sentence_step.
  destruct (nonempty (strip sentence)) eqn:Hne; simpl.
  2:{ by rewrite (unspace_blank sentence), app_nil_r. }
  destruct (_ <=? _)%Z; [|destruct (_ >? _)%Z]; unfold sub_content, content; simpl.
  - ink. by rewrite <- ?app_assoc.
  - ink. rewrite sub_flush_content. unfold sub_content, content. ink. done.
  - ink. rewrite sub_flush_content. unfold sub_content, content. ink. done.
Qed.

Lemma sentences_of_content p : unspace (concat (sentences_of p)) = unspace p.
Proof.
  unfold sentences_of. destruct (_ <=? _)%nat.
  - by apply unspace_split.
  - apply unspace_split_sentences.
Qed.

(** As long as the inner loop has counted no chunk, it has appended
    none. *)
Lemma sentence_step_count max chunks0 st sentence :
  (sub_chunks_added_count st = 0 -> chunks (sub_chunker st) = chunks0) ->
  sub_chunks_added_count (sentence_step max st sentence) = 0 ->
  chunks (sub_chunker (sentence_step max st sentence)) = chunks0.
Proof.
  unfold sentence_step, sub_flush. intros Hst.
  destruct (nonempty (strip sentence)); simpl; [|done].
  destruct (_ <=? _)%Z; simpl; [done|].
  destruct (nonempty (current (sub_chunker st))); destruct (_ >? _)%Z; simpl; done.
Qed.

Lemma foldl_count max chunks0 : forall l st,
  (sub_chunks_added_count st = 0 -> chunks (sub_chunker st) = chunks0) ->
  sub_chunks_added_count (foldl (sentence_step max) st l) = 0 ->
  chunks (sub_chunker (foldl (sentence_step max) st l)) = chunks0.
Proof.
  induction l as [|x l IH]; intros st Hst; simpl; [done|].
  apply IH. by apply sentence_step_count.
Qed.

Lemma subdivide_content max chunks0 p :
  unspace (concat (subdivide max chunks0 p)) = unspace (concat chunks0) ++ unspace p.
Proof.
  unfold subdivide. set (st := foldl _ _ _).
  assert (Hst : unspace (sub_content st) = unspace (concat chunks0) ++ unspace p).
  { unfold st. rewrite (unspace_foldl sub_content _ (kdp_sentence_step_content max)).
    rewrite sentences_of_content. unfold sub_content, content. ink. done. }
  destruct (_ =? _)%nat eqn:E.
  - (* no chunk was counted: the loop saw nothing but whitespace *)
    apply Nat.eqb_eq in E. unfold sub_flush in *.
    destruct (nonempty (current (sub_chunker st))) eqn:Hc; simpl in *; [done|].
    apply nonempty_false in Hc.
    assert (Hch : chunks (sub_chunker st) = chunks0) by (by apply foldl_count).
    unfold sub_content, content in Hst. rewrite concat_flush, Hc, Hch, app_nil_r in Hst.
    rewrite Hch. ink.
    assert (Hp : unspace p = []).
    { apply (f_equal length) in Hst. rewrite length_app in Hst.
      destruct (unspace p); [done|simpl in Hst; lia]. }
    by rewrite Hp.
  - by rewrite sub_flush_content.
Qed.

Lemma kdp_paragraph_step_content max st p :
  unspace (content (paragraph_step max st p)) = unspace (content st) ++ unspace p.
Proof.
  unfold paragraph_step.
  destruct (nonempty (strip p)) eqn:Hne; simpl.
  2:{ rewrite (unspace_blank p), app_nil_r by done.
      unfold content. ink. by rewrite concat_pad_last. }
  destruct (_ <=? _)%Z; [|destruct (_ >? _)%Z]; unfold content.
  - ink. by rewrite <- ?app_assoc.
  - ink. rewrite subdivide_content. ink. done.
  - ink. done.
Qed.

Lemma kdp_merge_step_content max st chunk :
  unspace (content (merge_step max st chunk)) = unspace (content st) ++ unspace chunk.
Proof.
  unfold content, merge_step.
  destruct (_ <=? _)%Z; ink; by rewrite <- ?app_assoc.
Qed.

Lemma kdp_create_chunks_content t max :
  unspace (concat (create_chunks t max)) = unspace t.
Proof.
  unfold create_chunks, merge_pass, first_pass.
  change (concat (flush ?s)) with (content s).
  rewrite (unspace_foldl content _ (kdp_merge_step_content max)). simpl.
  change (concat (flush ?s)) with (content s).
  rewrite (unspace_foldl content _ (kdp_paragraph_step_content max)). simpl.
  by apply unspace_split.
Qed.
End KDPCoverage.

(** C2 as stated fails, even when line feeds and spaces are ignored on
    both sides: [create_chunks] of [processor.py] strips a leading
    tab from a paragraph, and that of [correcaoKDP.py] replaces a tab
    between two sentences of a subdivided paragraph by a line feed. *)
Lemma chunk_coverage_counterexample :
  let t := tab :: str "a" in
  let u := str "Abc." ++ [tab] ++ str "Cde." in
  Processor.create_chunks Processor.count_tokens_fallback t MAX_CHUNK_TOKENS = [str "a"]
  /\ concat (Processor.create_chunks Processor.count_tokens_fallback t MAX_CHUNK_TOKENS) <> t
  /\ without_separators (concat (Processor.create_chunks Processor.count_tokens_fallback t MAX_CHUNK_TOKENS))
     <> without_separators t
  /\ CorrecaoKDP.create_chunks u 1 = [str "Abc."; str "Cde."]
  /\ without_separators (concat (CorrecaoKDP.create_chunks u 1))
     <> without_separators u.
Proof. repeat split; try reflexivity; vm_compute; discriminate. Qed.

(** C2, as the code has it.  For every text and every bound, and in
    [processor.py] for every size estimator, the chunks of either chunker,
    concatenated, hold the non-whitespace characters of the text in their
    order: chunks and text are equal once all whitespace is removed. *)
Theorem chunk_coverage (count_tokens : text -> Z) (t : text) (max_tokens : Z) :
  unspace (concat (Processor.create_chunks count_tokens t max_tokens)) = unspace t
  /\ unspace (concat (CorrecaoKDP.create_chunks t max_tokens)) = unspace t.
Proof.
  split.
  - apply ProcessorCoverage.create_chunks_content.
  - apply KDPCoverage.kdp_create_chunks_content.
Qed.

(** ** Chunk bound *)

Module ProcessorBound.
Import Processor.

Section bound.
Variable max_tokens : Z.
Variable unit : text -> Prop.

Local Abbreviation ok := (ok max_tokens unit).
Local Abbreviation inv := (inv max_tokens unit).
Local Abbreviation merge_inv := (merge_inv max_tokens unit).

Lemma count_tokens_nonneg c : (0 <= count_tokens_fallback c)%Z.
Proof. unfold count_tokens_fallback. apply Z.div_pos; lia. Qed.

Lemma count_tokens_sep a sep b :
  sep <> [] ->
  (count_tokens_fallback (a ++ sep_if a sep ++ b)
   <= count_tokens_fallback a + count_tokens_fallback b + Z.of_nat (length sep))%Z.
Proof.
  intros Hsep.
  assert (Hlen : (length (a ++ sep_if a sep ++ b)
                  <= length a + length b + (if nonempty a then length sep else 0))%nat).
  { unfold sep_if. destruct (nonempty a); rewrite !length_app; simpl; lia. }
  assert (Hs : (1 <= length sep)%nat) by (destruct sep; [done|simpl; lia]).
  unfold count_tokens_fallback.
  destruct (nonempty a); Z.to_euclidean_division_equations; lia.
Qed.

Lemma inv_flush st : inv st -> Forall ok (flush st).
Proof.
  intros (Hch & Hcur & _). unfold flush.
  destruct (current st) eqn:E; simpl; [done|].
  apply Forall_app. split; [done|]. constructor; [|done].
  left. destruct Hcur; [done|congruence].
Qed.

Lemma sentence_step_inv st sent :
  ((max_tokens < count_tokens_fallback sent)%Z -> unit sent) ->
  inv st -> inv (sentence_step count_tokens_fallback max_tokens st sent).
Proof.
  intros Hunit Hinv. pose proof Hinv as (Hch & Hcur & Htok).
  unfold sentence_step.
  destruct (_ <=? _)%Z eqn:E1.
  - apply Z.leb_le in E1. split; [done|]. split; [|done].
    left. simpl. pose proof (count_tokens_sep (current st) [sp] sent ltac:(done)). simpl in *. lia.
  - destruct (_ >? _)%Z eqn:E2.
    + split; [|split; [by right|done]]. simpl.
      apply Forall_app. split; [by apply inv_flush|].
      constructor; [|done]. right. apply Hunit. lia.
    + split; [by apply inv_flush|]. split; [|done]. left. simpl. lia.
Qed.

Lemma sentences_inv l : forall st,
  Forall (fun sent => (max_tokens < count_tokens_fallback sent)%Z -> unit sent) l ->
  inv st -> inv (foldl (sentence_step count_tokens_fallback max_tokens) st l).
Proof.
  induction l as [|x l IH]; intros st Hl Hinv; simpl; [done|].
  inversion Hl; subst. apply IH; [done|]. by apply sentence_step_inv.
Qed.

Lemma paragraph_step_inv st para :
  (forall sent, sent ∈ split_sentences (strip para) ->
                (max_tokens < count_tokens_fallback sent)%Z -> unit sent) ->
  inv st -> inv (paragraph_step count_tokens_fallback max_tokens st para).
Proof.
  intros Hunit Hinv. pose proof Hinv as (Hch & Hcur & Htok).
  unfold paragraph_step.
  destruct (nonempty (strip para)); simpl; [|done].
  destruct (_ <=? _)%Z eqn:E1.
  - apply Z.leb_le in E1. split; [done|]. split; [|done].
    left. simpl. pose proof (count_tokens_sep (current st) [nl; nl] (strip para) ltac:(done)).
    simpl in *. lia.
  - destruct (_ >? _)%Z eqn:E2.
    + set (sub := foldl _ _ _).
      assert (Hsub : inv sub).
      { apply sentences_inv.
        - apply Forall_forall. intros sent Hin. by apply Hunit.
        - split; [by apply inv_flush|]. split; [by right|done]. }
      destruct Hsub as (H1 & H2 & H3). split; [done|]. simpl.
      destruct (nonempty (current sub)); [done|]. split; [by right|done].
    + split; [by apply inv_flush|]. split; [|done]. left. simpl. lia.
Qed.

Lemma paragraphs_inv l : forall st,
  (forall para sent, para ∈ l -> sent ∈ split_sentences (strip para) ->
                     (max_tokens < count_tokens_fallback sent)%Z -> unit sent) ->
  inv st -> inv (foldl (paragraph_step count_tokens_fallback max_tokens) st l).
Proof.
  induction l as [|x l IH]; intros st Hl Hinv; simpl; [done|].
  apply IH.
  - intros para sent Hp. apply Hl. by right.
  - apply paragraph_step_inv; [|done]. intros sent. apply Hl. by left.
Qed.

Lemma merge_inv_flush st : merge_inv st -> Forall ok (flush st).
Proof.
  intros (Hch & Hcur & _). unfold flush.
  destruct (current st) eqn:E; simpl; [done|].
  apply Forall_app. split; [done|]. constructor; [|done].
  destruct Hcur; [done|congruence].
Qed.

Lemma merge_step_inv st chunk :
  ok chunk -> merge_inv st -> merge_inv (merge_step count_tokens_fallback max_tokens st chunk).
Proof.
  intros Hok Hinv. pose proof Hinv as (Hch & Hcur & Htok).
  unfold merge_step.
  destruct (_ <=? _)%Z eqn:E1.
  - apply Z.leb_le in E1. split; [done|]. split; [|done].
    left. left. simpl. pose proof (count_tokens_sep (current st) [nl; nl] chunk ltac:(done)).
    simpl in *. lia.
  - split; [by apply merge_inv_flush|]. split; [by left|done].
Qed.

Lemma merge_inv_foldl l : forall st,
  Forall ok l -> merge_inv st -> merge_inv (foldl (merge_step count_tokens_fallback max_tokens) st l).
Proof.
  induction l as [|x l IH]; intros st Hl Hinv; simpl; [done|].
  inversion Hl; subst. apply IH; [done|]. by apply merge_step_inv.
Qed.
End bound.

(** Every chunk of [create_chunks] of [processor.py] is within the bound
    or is a single sentence that exceeds it on its own. *)
Lemma create_chunks_bound t max_tokens :
  Forall (fun c => (count_tokens_fallback c <= max_tokens)%Z \/ oversized_sentence t max_tokens c)
         (create_chunks count_tokens_fallback t max_tokens).
Proof.
  unfold create_chunks. destruct (_ || _); [done|].
  unfold merge_pass, first_pass.
  apply (merge_inv_flush max_tokens (oversized_sentence t max_tokens)).
  apply merge_inv_foldl.
  - apply inv_flush. apply paragraphs_inv.
    + intros para sent Hp Hs Hlt. split; [done|]. by exists para.
    + split; [done|]. split; [by right|done].
  - split; [done|]. split; [by right|done].
Qed.
End ProcessorBound.

(** C5 fails in [create_chunks] of [correcaoKDP.py]: the separator is
    counted as [count_tokens_approx("\n\n")], which is 0, so two paragraphs
    that each fit are joined into a chunk above the bound; with the default
    bound of 1500 the chunk is estimated at 1502. *)
Theorem kdp_chunk_bound_violated :
  let t := str "abcdefgh" ++ [nl; nl] ++ str "ij" in
  let u := replicate 4499 "a"%char ++ [nl; nl] ++ str "bcdef" in
  CorrecaoKDP.count_tokens_approx [nl; nl] = 0%Z
  /\ CorrecaoKDP.create_chunks t 2 = [t]
  /\ CorrecaoKDP.count_tokens_approx t = 4%Z
  /\ Forall (fun p => (CorrecaoKDP.count_tokens_approx p <= 2)%Z) (split [nl; nl] t)
  /\ CorrecaoKDP.create_chunks u MAX_CHUNK_TOKENS = [u]
  /\ CorrecaoKDP.count_tokens_approx u = 1502%Z
  /\ Forall (fun p => (CorrecaoKDP.count_tokens_approx p <= MAX_CHUNK_TOKENS)%Z)
            (split [nl; nl] u).
Proof.
  repeat split; try (vm_compute; reflexivity).
  - repeat constructor; vm_compute; discriminate.
  - repeat constructor; vm_compute; discriminate.
Qed.


(** ** Stage orchestrator *)

Module Stage.
Import Processor.

Lemma length_foldl_place l : forall rs, length (foldl place rs l) = length rs.
Proof.
  induction l as [|r l IH]; intros rs; simpl; [done|].
  rewrite IH. destruct r; simpl; [apply length_insert|done].
Qed.

(** Placing the results of a batch whose [j]-th worker answers under index
    [i + j]: slot [k] receives the text of worker [k - i] if there is one,
    and is left alone otherwise. *)
Lemma lookup_foldl_place l : forall i rs k,
  (forall j r, l !! j = Some r -> r = Failed \/ exists t, r = Returned (i + j) t) ->
  k < length rs ->
  foldl place rs l !! k =
    match (if decide (i <= k) then l !! (k - i) else None) with
    | Some (Returned _ t) => Some (Some t)
    | _ => rs !! k
    end.
Proof.
  induction l as [|r l IH]; intros i rs k Hidx Hk; simpl.
  - rewrite lookup_nil. by destruct (decide _).
  - rewrite (IH (S i)).
    2:{ intros j r' Hj. destruct (Hidx (S j) r' Hj) as [|[t ->]]; [by left|].
        right. exists t. f_equal. lia. }
    2:{ destruct r; simpl; [by rewrite length_insert|done]. }
    destruct (decide (S i <= k)) as [Hle|Hnle].
    + rewrite decide_True by lia.
      replace (k - i) with (S (k - S i)) by lia. simpl.
      destruct (l !! (k - S i)) as [[idx t|]|] eqn:E; [done| |].
      all: destruct (Hidx 0 r eq_refl) as [->|[t0 ->]]; simpl; [done|].
      all: rewrite list_lookup_insert_ne; [done|lia].
    + destruct (decide (i <= k)) as [Hle|Hnle'].
      * assert (k = i) as -> by lia. rewrite Nat.sub_diag. simpl.
        destruct (Hidx 0 r eq_refl) as [->|[t0 ->]]; simpl; [done|].
        rewrite Nat.add_0_r. by rewrite list_lookup_insert_eq.
      * destruct (Hidx 0 r eq_refl) as [->|[t0 ->]]; simpl; [done|].
        rewrite list_lookup_insert_ne; [done|lia].
Qed.

Section stage_facts.
Variable _hash : text -> string.
Variable client : nat -> text -> option text.
Variable fault : nat -> bool.
Variable model_name : text.
Variable get_correction_prompt : text -> text -> bool -> text.
Variable get_footnote_prompt : text -> text -> text.
Variable completion : list worker_outcome -> list worker_outcome.
Variable batch_size : nat.
Variable mode : stage_mode.
Variable author : text.
Variable all : list text.

Local Abbreviation W :=
  (worker _hash client fault model_name get_correction_prompt get_footnote_prompt
          mode author).
Local Abbreviation batches :=
  (run_batches _hash client fault model_name get_correction_prompt get_footnote_prompt
               completion batch_size mode author all).
Local Abbreviation batch :=
  (run_batch _hash client fault model_name get_correction_prompt get_footnote_prompt
             completion batch_size mode author all).

(** A worker answers under its own index. *)
Lemma worker_result c idx chunk :
  wo_result (W c idx chunk) = Failed
  \/ exists t, wo_result (W c idx chunk) = Returned idx t.
Proof.
  unfold worker, process_correction, process_footnotes.
  destruct mode; destruct (fault idx); simpl; auto;
    repeat (destruct (truthy _)); simpl; eauto.
Qed.

(** ... and what it answers, or the chunk when it raised, is the output
    the stage owes for the chunk. *)
Lemma worker_output c idx chunk :
  from_option id chunk (task_value (wo_result (W c idx chunk)))
  = stage_output _hash client fault get_correction_prompt get_footnote_prompt
                 mode author c idx chunk.
Proof.
  unfold worker, process_correction, process_footnotes, stage_output, prompt_of,
    fallback_text, cache_get.
  destruct mode; destruct (fault idx); simpl; auto;
    repeat (destruct (truthy _)); simpl; eauto.
Qed.

Lemma run_batches_out fuel i st : length all <= i -> batches fuel i st = st.
Proof.
  intros Hi. destruct fuel; simpl; [done|].
  by rewrite (proj2 (Nat.ltb_ge _ _) Hi).
Qed.

Lemma run_batches_split f1 : forall f2 i st,
  batches (f1 + f2) i st = batches f2 (i + f1 * batch_size) (batches f1 i st).
Proof.
  induction f1 as [|f1 IH]; intros f2 i st; simpl.
  - by rewrite Nat.add_0_r.
  - destruct (i <? length all) eqn:E.
    + rewrite IH. f_equal. lia.
    + apply Nat.ltb_ge in E. rewrite run_batches_out by lia. done.
Qed.

Lemma run_batches_one i st :
  batches 1 i st = if i <? length all then batch i st else st.
Proof. reflexivity. Qed.

Lemma run_batch_length i st : length (results (batch i st)) = length (results st).
Proof. unfold run_batch. simpl. apply length_foldl_place. Qed.

Lemma run_batch_lookup i st k :
  k < length (results st) ->
  results (batch i st) !! k =
    match (if decide (i <= k < i + batch_size) then all !! k else None) with
    | Some chunk =>
        match wo_result (W (cache st) k chunk) with
        | Returned _ t => Some (Some t)
        | Failed => results st !! k
        end
    | None => results st !! k
    end.
Proof.
  intros Hk. unfold run_batch. simpl.
  rewrite (lookup_foldl_place _ i); [|clear k Hk|done].
  2:{ intros j r. rewrite list_lookup_fmap, list_lookup_imap.
      destruct (take batch_size (drop i all) !! j) as [chunk|]; simpl; [|done].
      intros [= <-]. apply worker_result. }
  destruct (decide (i <= k)) as [Hle|Hnle].
  2:{ rewrite decide_False by lia. done. }
  rewrite list_lookup_fmap, list_lookup_imap, lookup_take, lookup_drop.
  replace (i + (k - i)) with k by lia.
  destruct (decide (k - i < batch_size)).
  - rewrite decide_True by lia. destruct (all !! k) as [chunk|]; simpl; [|done].
    by destruct (wo_result _).
  - rewrite decide_False by lia. done.
Qed.

Variable c0 : CorrectionCache.

Local Abbreviation init := (StageState (replicate (length all) None) c0).

(** After [f] batches every slot below [f * batch_size] holds the text
    of its own worker, run on the cache that worker found, and every
    other slot is still [None]. *)
Lemma run_batches_results f :
  0 < batch_size ->
  length (results (batches f 0 init)) = length all
  /\ forall k chunk, all !! k = Some chunk ->
       results (batches f 0 init) !! k
       = Some (if decide (k < f * batch_size)
               then task_value (wo_result
                      (W (cache (batches (k / batch_size) 0 init)) k chunk))
               else None).
Proof.
  intros Hbs. induction f as [|f [IHlen IH]].
  - simpl. rewrite length_replicate. split; [done|].
    intros k chunk Hk. apply lookup_lt_Some in Hk.
    by rewrite lookup_replicate_2.
  - replace (S f) with (f + 1) by lia.
    rewrite run_batches_split, run_batches_one, Nat.add_0_l.
    destruct (f * batch_size <? length all) eqn:E.
    + split; [by rewrite run_batch_length|].
      intros k chunk Hk. pose proof (lookup_lt_Some _ _ _ Hk) as Hlt.
      rewrite run_batch_lookup by lia. rewrite (IH k chunk Hk).
      destruct (decide (f * batch_size <= k < f * batch_size + batch_size)) as [Hin|Hout].
      * rewrite Hk. rewrite (decide_True (P := k < (f + 1) * batch_size)) by lia.
        rewrite (decide_False (P := k < f * batch_size)) by lia.
        assert (k / batch_size = f) as ->.
        { symmetry. apply (Nat.div_unique k batch_size f (k - f * batch_size)); lia. }
        by destruct (wo_result _).
      * destruct (decide (k < f * batch_size)).
        -- by rewrite decide_True by lia.
        -- by rewrite decide_False by lia.
    + apply Nat.ltb_ge in E. split; [done|].
      intros k chunk Hk. pose proof (lookup_lt_Some _ _ _ Hk) as Hlt.
      rewrite (IH k chunk Hk).
      rewrite (decide_True (P := k < f * batch_size)) by lia.
      by rewrite decide_True by lia.
Qed.

Lemma process_chunks_parallel_lookup rs c' k chunk :
  process_chunks_parallel _hash client fault model_name get_correction_prompt
    get_footnote_prompt completion batch_size all author mode c0 = Some (rs, c') ->
  all !! k = Some chunk ->
  rs !! k = Some (stage_output _hash client fault get_correction_prompt
                    get_footnote_prompt mode author
                    (cache_before _hash client fault model_name get_correction_prompt
                       get_footnote_prompt completion batch_size all author mode c0 k)
                    k chunk).
Proof.
  unfold process_chunks_parallel. destruct batch_size as [|b] eqn:Eb; [done|].
  rewrite <- Eb in *. intros [= <- <-] Hk.
  destruct (run_batches_results (length all) ltac:(lia)) as [Hlen Hres].
  unfold fallback_none. rewrite list_lookup_imap, (Hres k chunk Hk). simpl.
  pose proof (lookup_lt_Some _ _ _ Hk) as Hlt.
  rewrite decide_True by nia. rewrite Hk. simpl.
  rewrite worker_output. done.
Qed.

Lemma process_chunks_parallel_length rs c' :
  process_chunks_parallel _hash client fault model_name get_correction_prompt
    get_footnote_prompt completion batch_size all author mode c0 = Some (rs, c') ->
  length rs = length all.
Proof.
  unfold process_chunks_parallel. destruct batch_size as [|b] eqn:Eb; [done|].
  rewrite <- Eb in *. intros [= <- <-].
  destruct (run_batches_results (length all) ltac:(lia)) as [Hlen Hres].
  unfold fallback_none. by rewrite length_imap.
Qed.
End stage_facts.

Lemma substring_join sep : forall rs k x,
  rs !! k = Some x -> substring x (join sep rs).
Proof.
  induction rs as [|y rs IH]; intros k x Hk; [done|].
  destruct k as [|k]; simpl in Hk.
  - injection Hk as ->. destruct rs as [|z rs].
    + exists [], []. simpl. by rewrite app_nil_r.
    + exists [], (sep ++ join sep (z :: rs)). done.
  - destruct (IH k x Hk) as (pre & post & Heq).
    destruct rs as [|z rs]; [done|].
    exists (y ++ sep ++ pre), post.
    change (join sep (y :: z :: rs)) with (y ++ sep ++ join sep (z :: rs)).
    rewrite Heq. by rewrite <- !app_assoc.
Qed.

Lemma substring_suffix pre x : substring x (pre ++ x).
Proof. exists pre, []. by rewrite app_nil_r. Qed.

Lemma substring_trans a b c : substring a b -> substring b c -> substring a c.
Proof.
  intros (p1 & q1 & ->) (p2 & q2 & ->).
  exists (p2 ++ p1), (q1 ++ q2). by rewrite <- !app_assoc.
Qed.
End Stage.

(** C1.  A stage run returns one output per chunk, and position [k] holds
    the output owed for chunk [k]: its cached value, else its transform
    result, else its fallback text (the chunk itself when its worker
    raised), whatever the order in which the workers complete.  The run
    fails only for a batch size of zero. *)
Theorem process_chunks_parallel_order
    (_hash : text -> string) (client : nat -> text -> option text) (fault : nat -> bool)
    (model_name : text) (cprompt : text -> text -> bool -> text)
    (fprompt : text -> text -> text)
    (completion : list Processor.worker_outcome -> list Processor.worker_outcome)
    (batch_size : nat) (all : list text) (author : text) (mode : stage_mode)
    (c0 : CorrectionCache) :
  match Processor.process_chunks_parallel _hash client fault model_name cprompt fprompt
          completion batch_size all author mode c0 with
  | None => batch_size = 0
  | Some (rs, _) =>
      length rs = length all
      /\ forall k chunk, all !! k = Some chunk ->
           rs !! k = Some (Processor.stage_output _hash client fault cprompt fprompt
                             mode author
                             (Processor.cache_before _hash client fault model_name cprompt
                                fprompt completion batch_size all author mode c0 k)
                             k chunk)
  end.
Proof.
  destruct (Processor.process_chunks_parallel _ _ _ _ _ _ _ _ _ _ _ _) as [[rs c']|] eqn:E.
  - split.
    + by eapply Stage.process_chunks_parallel_length.
    + intros k chunk Hk. by eapply Stage.process_chunks_parallel_lookup.
  - unfold Processor.process_chunks_parallel in E. by destruct batch_size.
Qed.

Lemma process_chunks_parallel_order_witness :
  let h := string_of_list_ascii in
  let client := fun (idx : nat) (prompt : text) =>
                  if (idx =? 1)%nat then None else Some (prompt ++ str "!") in
  let all := [str "a"; str "b"; str "c"] in
  exists rs c',
    Processor.process_chunks_parallel h client (fun _ => false) (str "m")
      (fun chunk _ _ => chunk) (fun chunk _ => chunk) (@rev _) 2 all (str "x")
      Correction init_db = Some (rs, c')
    /\ rs = [str "a!"; AI_FAILURE_MARKER ++ [nl; nl] ++ str "b"; str "c!"]
    /\ rs !! 1 = Some (Processor.stage_output h client (fun _ => false)
                         (fun chunk _ _ => chunk) (fun chunk _ => chunk) Correction (str "x")
                         (Processor.cache_before h client (fun _ => false) (str "m")
                            (fun chunk _ _ => chunk) (fun chunk _ => chunk) (@rev _) 2 all
                            (str "x") Correction init_db 1)
                         1 (str "b")).
Proof.
  intros h client all.
  generalize (process_chunks_parallel_order h client (fun _ => false) (str "m")
                (fun chunk _ _ => chunk) (fun chunk _ => chunk) (@rev _) 2 all (str "x")
                Correction init_db).
  destruct (Processor.process_chunks_parallel _ _ _ _ _ _ _ _ _ _ _ _)
    as [[rs c']|] eqn:E; [|discriminate].
  intros [_ H]. exists rs, c'. split; [reflexivity|]. split.
  - vm_compute in E. by injection E as <- _.
  - apply H. reflexivity.
Defined.

(** C3 as stated fails for the footnotes stage: when the transform fails,
    [process_footnotes] hands the chunk back as it is, without the failure
    marker. *)
Lemma footnote_fallback_has_no_marker :
  Processor.process_chunks_parallel string_of_list_ascii (fun _ _ => None)
    (fun _ => false) (str "m") (fun chunk _ _ => chunk) (fun chunk _ => chunk)
    (fun l => l) 2 [str "texto"] (str "x") Footnotes init_db
  = Some ([str "texto"], init_db)
  /\ startswith AI_FAILURE_MARKER (str "texto") = false.
Proof. split; reflexivity. Qed.

(** C3, as the code has it.  When the worker of chunk [k] misses the cache
    and its transform fails for good, the stage output at [k] is the
    failure marker, a blank line and the chunk in the correction stage, and
    the chunk alone in the footnotes stage; either way the chunk occurs in
    the reassembled output. *)
Theorem failed_transform_keeps_content
    (_hash : text -> string) (client : nat -> text -> option text) (fault : nat -> bool)
    (model_name : text) (cprompt : text -> text -> bool -> text)
    (fprompt : text -> text -> text)
    (completion : list Processor.worker_outcome -> list Processor.worker_outcome)
    (batch_size : nat) (all : list text) (author : text) (mode : stage_mode)
    (c0 : CorrectionCache) (k : nat) (chunk : text) :
  batch_size <> 0 ->
  all !! k = Some chunk ->
  fault k = false ->
  Processor.truthy
    (cache_get _hash mode
       (Processor.cache_before _hash client fault model_name cprompt fprompt completion
          batch_size all author mode c0 k) chunk) = None ->
  Processor.truthy (client k (Processor.prompt_of cprompt fprompt mode author k chunk)) = None ->
  exists rs c',
    Processor.process_chunks_parallel _hash client fault model_name cprompt fprompt
      completion batch_size all author mode c0 = Some (rs, c')
    /\ rs !! k = Some (match mode with
                       | Correction => AI_FAILURE_MARKER ++ [nl; nl] ++ chunk
                       | Footnotes => chunk
                       end)
    /\ substring chunk (join [nl; nl] rs).
Proof.
  intros Hbs Hk Hfault Hmiss Hfail.
  destruct (Processor.process_chunks_parallel _ _ _ _ _ _ _ _ _ _ _ _)
    as [[rs c']|] eqn:E.
  2:{ unfold Processor.process_chunks_parallel in E. by destruct batch_size. }
  exists rs, c'. split; [done|].
  pose proof (Stage.process_chunks_parallel_lookup _ _ _ _ _ _ _ _ _ _ _ _ _ _ _ _ E Hk) as Hrs.
  unfold Processor.stage_output in Hrs. rewrite Hfault, Hmiss, Hfail in Hrs.
  split; [exact Hrs|].
  refine (Stage.substring_trans _ _ _ _ (Stage.substring_join [nl; nl] rs k _ Hrs)).
  unfold Processor.fallback_text. destruct mode.
  - rewrite app_assoc. apply Stage.substring_suffix.
  - apply (Stage.substring_suffix []).
Qed.

Lemma failed_transform_keeps_content_witness :
  let h := string_of_list_ascii in
  let client := fun (idx : nat) (prompt : text) =>
                  if (idx =? 1)%nat then None else Some (prompt ++ str "!") in
  let all := [str "a"; str "b"; str "c"] in
  exists rs c',
    Processor.process_chunks_parallel h client (fun _ => false) (str "m")
      (fun chunk _ _ => chunk) (fun chunk _ => chunk) (@rev _) 2 all (str "x")
      Correction init_db = Some (rs, c')
    /\ rs !! 1 = Some (AI_FAILURE_MARKER ++ [nl; nl] ++ str "b")
    /\ substring (str "b") (join [nl; nl] rs).
Proof.
  intros h client all.
  apply (failed_transform_keeps_content h client (fun _ => false) (str "m")
           (fun chunk _ _ => chunk) (fun chunk _ => chunk) (@rev _) 2 all (str "x")
           Correction init_db 1 (str "b")).
  - discriminate.
  - reflexivity.
  - reflexivity.
  - vm_compute. reflexivity.
  - reflexivity.
Defined.

(** ** Marker processor *)

Section numbering.
Context {M N : Type}.
Variable matcher : text -> option (M * text).
Variable counts : M -> bool.
Variable mk : nat -> M -> N.
Variable repl : nat * list N -> M -> text * (nat * list N).

Hypothesis repl_counts : forall n notes m,
  counts m = true ->
  repl (n, notes) m = (str "[" ++ decimal n ++ str "]", (S n, notes ++ [mk n m])).
Hypothesis repl_skips : forall n notes m,
  counts m = false -> repl (n, notes) m = ([], (n, notes)).

Lemma numbered_cons_true n m ms :
  counts m = true ->
  numbered counts mk n (m :: ms) = mk n m :: numbered counts mk (S n) ms.
Proof.
  intros H. unfold numbered. simpl. rewrite H. simpl. rewrite Nat.add_0_r. f_equal.
  apply imap_ext. intros i x _. simpl. f_equal. lia.
Qed.

Lemma numbered_cons_false n m ms :
  counts m = false -> numbered counts mk n (m :: ms) = numbered counts mk n ms.
Proof. intros H. unfold numbered. simpl. by rewrite H. Qed.

(** The substitution is the renumbering of the segments: the counter
    advances by one at each match that counts, and only there. *)
Lemma re_sub_go_spec : forall s skip n notes,
  let segs := segments_go matcher skip s in
  re_sub_go matcher repl skip (n, notes) s
  = (renumber counts n segs,
     (n + length (List.filter counts (matches_of segs)),
      notes ++ numbered counts mk n (matches_of segs))).
Proof.
  induction s as [|c r IH]; intros skip n notes; simpl.
  - unfold numbered. simpl. by rewrite Nat.add_0_r, app_nil_r.
  - destruct skip as [|k]; [|apply IH].
    destruct (matcher (c :: r)) as [[m rest]|] eqn:E.
    + destruct (counts m) eqn:Hc.
      * rewrite repl_counts by done. rewrite IH. simpl. rewrite Hc. simpl.
        rewrite numbered_cons_true by done.
        f_equal; [by rewrite <- !app_assoc|].
        f_equal; [lia|by rewrite <- app_assoc].
      * rewrite repl_skips by done. rewrite IH. simpl. rewrite Hc.
        by rewrite numbered_cons_false.
    + rewrite IH. simpl. done.
Qed.

(** The segments cover the text, in order. *)
Lemma segments_go_raw :
  (forall s m rest, matcher s = Some (m, rest) -> length rest < length s) ->
  forall s skip, concat (raw_of <$> segments_go matcher skip s) = drop skip s.
Proof.
  intros Hm. induction s as [|c r IH]; intros skip; simpl.
  - by rewrite drop_nil.
  - destruct skip as [|k]; [|apply IH]. simpl.
    destruct (matcher (c :: r)) as [[m rest]|] eqn:E; simpl.
    + rewrite IH. apply Hm in E. simpl in E.
      replace (S (length r) - length rest) with (S (length r - length rest)) by lia.
      simpl. by rewrite take_drop.
    + by rewrite IH.
Qed.
End numbering.

Lemma span_until_spec d : forall s a b,
  span_until d s = Some (a, b) -> s = a ++ d :: b /\ d ∉ a.
Proof.
  induction s as [|c r IH]; intros a b; simpl; [done|].
  destruct (decide (c = d)) as [->|Hne].
  - intros [= <- <-]. split; [done|]. apply not_elem_of_nil.
  - destruct (span_until d r) as [[a' b']|]; [|done].
    intros [= <- <-]. destruct (IH a' b' eq_refl) as [-> Hnotin].
    split; [done|]. rewrite elem_of_cons. intros [?|?]; congruence.
Qed.

Module ProcessorMarkers.
Import Processor.

(** What [nota_match] accepts is a marker, with a term free of [|] and an
    explanation free of []], neither empty. *)
Lemma nota_match_spec s g1 g2 rest :
  nota_match s = Some ((g1, g2), rest) ->
  s = str "[NOTA:" ++ g1 ++ str "|" ++ g2 ++ str "]" ++ rest
  /\ g1 <> [] /\ g2 <> [] /\ ("|"%char ∉ g1) /\ ("]"%char ∉ g2).
Proof.
  unfold nota_match. destruct (startswith _ s) eqn:Hs; [|done].
  apply startswith_app in Hs. change (length (str "[NOTA:")) with 6 in Hs.
  destruct (span_until "|" (drop 6 s)) as [[a r1]|] eqn:E1; [|done].
  destruct (nonempty a) eqn:Ha; [|done].
  destruct (span_until "]" r1) as [[b r2]|] eqn:E2; [|done].
  destruct (nonempty b) eqn:Hb; [|done].
  intros [= <- <- <-].
  apply span_until_spec in E1 as [E1 N1]. apply span_until_spec in E2 as [E2 N2].
  split; [|by destruct a, b].
  rewrite Hs at 1. by rewrite E1, E2.
Qed.

Lemma nota_match_shorter s m rest :
  nota_match s = Some (m, rest) -> length rest < length s.
Proof.
  destruct m as [g1 g2]. intros H. apply nota_match_spec in H as [-> _].
  rewrite !length_app. simpl. lia.
Qed.

Lemma extract_footnotes_spec t :
  let segs := segments nota_match t in
  extract_footnotes t
  = (renumber (fun _ => true) 1 segs,
     numbered (fun _ => true) mk_footnote 1 (matches_of segs)).
Proof.
  unfold extract_footnotes, re_sub, segments.
  rewrite (re_sub_go_spec nota_match (fun _ => true) mk_footnote replace); try done.
Qed.

Lemma numbered_numbers ms : forall n,
  number <$> numbered (fun _ => true) mk_footnote n ms = seq n (length ms).
Proof.
  unfold numbered.
  induction ms as [|m ms IH]; intros n; simpl; [done|].
  rewrite Nat.add_0_r. f_equal. rewrite <- IH.
  f_equal. apply imap_ext. intros i x _. simpl. f_equal. lia.
Qed.
End ProcessorMarkers.

Module KDPMarkers.
Import CorrecaoKDP.

Lemma istartswith_app p : forall s,
  istartswith p s = true ->
  s = take (length p) s ++ drop (length p) s
  /\ length (take (length p) s) = length p
  /\ lower <$> take (length p) s = lower <$> p.
Proof.
  induction p as [|a p IH]; intros [|b s]; simpl; try done.
  destruct (decide (lower a = lower b)) as [E|]; [|done].
  intros H. destruct (IH s H) as (H1 & H2 & H3).
  split; [by rewrite take_drop|]. split; [by rewrite H2|].
  rewrite E. f_equal. exact H3.
Qed.

Lemma lstrip_shorter s : length (lstrip s) <= length s.
Proof. induction s as [|c s IH]; simpl; [done|]. destruct (isspace c); simpl; lia. Qed.

Lemma lstrip_app s : exists w, s = w ++ lstrip s /\ forallb isspace w = true.
Proof.
  induction s as [|c s (w & IH1 & IH2)]; simpl; [by exists []|].
  destruct (isspace c) eqn:E.
  - exists (c :: w). simpl. rewrite E, IH2. split; [by rewrite <- IH1|done].
  - by exists [].
Qed.

Lemma reference_open_spec s r0 :
  reference_open s = Some r0 ->
  exists kind opener,
    kind ∈ kinds /\ s = opener ++ r0
    /\ lower <$> opener = lower <$> (str "[NOTA_" ++ kind ++ str ":").
Proof.
  unfold reference_open.
  destruct (List.find _ kinds) as [kind|] eqn:E; [|done].
  intros [= <-]. apply List.find_some in E as [Hin Hst].
  apply istartswith_app in Hst as (H1 & H2 & H3).
  exists kind, (take (length (str "[NOTA_" ++ kind ++ str ":")) s).
  split; [by apply list_elem_of_In|]. done.
Qed.

(** What [footnote_match] accepts is a reference tag of one of the four
    kinds, whitespace, and a content tag; the names are matched without
    regard to case. *)
Lemma footnote_match_spec s g3 rest :
  footnote_match s = Some (g3, rest) ->
  exists kind opener ref w copener,
    kind ∈ kinds
    /\ s = opener ++ ref ++ str "]" ++ w ++ copener ++ g3 ++ str "]" ++ rest
    /\ lower <$> opener = lower <$> (str "[NOTA_" ++ kind ++ str ":")
    /\ ref <> [] /\ ("]"%char ∉ ref) /\ forallb isspace w = true
    /\ lower <$> copener = lower <$> str "[CONTEUDO_NOTA:"
    /\ ("]"%char ∉ g3).
Proof.
  unfold footnote_match.
  destruct (reference_open s) as [r0|] eqn:E0; [|done].
  destruct (span_until "]" r0) as [[ref r1]|] eqn:E1; [|done].
  destruct (nonempty ref) eqn:Hr; [|done].
  destruct (istartswith _ (lstrip r1)) eqn:E2; [|done].
  destruct (span_until "]" (drop 15 (lstrip r1))) as [[g r3]|] eqn:E3; [|done].
  intros [= <- <-].
  apply reference_open_spec in E0 as (kind & opener & Hk & Hs & Ho).
  apply span_until_spec in E1 as [E1 N1]. apply span_until_spec in E3 as [E3 N3].
  apply istartswith_app in E2 as (H1 & H2 & H3).
  change (length (str "[CONTEUDO_NOTA:")) with 15 in *.
  destruct (lstrip_app r1) as (w & Hw1 & Hw2).
  exists kind, opener, ref, w, (take 15 (lstrip r1)).
  split; [done|]. split.
  { rewrite Hs, E1. simpl. do 3 f_equal. rewrite Hw1 at 1. f_equal.
    rewrite H1 at 1. f_equal. by rewrite E3. }
  repeat split; try done. by destruct ref.
Qed.

Lemma footnote_match_shorter s m rest :
  footnote_match s = Some (m, rest) -> length rest < length s.
Proof.
  intros H. apply footnote_match_spec in H
    as (kind & opener & ref & w & copener & _ & -> & _ & Hr & _).
  rewrite !length_app. destruct ref; [done|]. simpl. lia.
Qed.

Lemma run_final_txt_generation_spec t :
  let segs := segments footnote_match t in
  run_final_txt_generation t
  = (renumber CorrecaoKDP.has_content 1 segs, numbered CorrecaoKDP.has_content mk_note 1 (matches_of segs)).
Proof.
  unfold run_final_txt_generation, re_sub, segments.
  rewrite (re_sub_go_spec footnote_match has_content mk_note
             replace_marker_and_collect_note); try done.
  - intros n notes m H. unfold replace_marker_and_collect_note, has_content in *.
    by rewrite H.
  - intros n notes m H. unfold replace_marker_and_collect_note, has_content in *.
    by rewrite H.
Qed.
End KDPMarkers.

(** ** The scan of the marker processors *)

Section scanning.
Context {M : Type}.
Variable matcher : text -> option (M * text).
Variable marker : text -> M -> text -> Prop.

(** The matcher decides the marker, and a marker is not empty. *)
Hypothesis matcher_marker : forall s m rest,
  matcher s = Some (m, rest) <-> marker s m rest.
Hypothesis marker_raw : forall s m rest,
  marker s m rest -> exists raw, raw <> [] /\ s = raw ++ rest.

Lemma segments_go_drop : forall s skip,
  segments_go matcher skip s = segments_go matcher 0 (drop skip s).
Proof.
  induction s as [|c r IH]; intros skip; [by rewrite drop_nil|].
  destruct skip as [|k]; [done|]. simpl. apply IH.
Qed.

Lemma segments_match raw rest m :
  raw <> [] -> matcher (raw ++ rest) = Some (m, rest) ->
  segments matcher (raw ++ rest) = Match m raw :: segments matcher rest.
Proof.
  intros Hraw Hm. unfold segments.
  destruct raw as [|c raw]; [done|].
  change ((c :: raw) ++ rest) with (c :: (raw ++ rest)) in *.
  cbn [segments_go]. rewrite Hm.
  assert (H1 : length (c :: raw ++ rest) - length rest = S (length raw))
    by (simpl; rewrite length_app; lia).
  assert (H2 : length (raw ++ rest) - length rest = length raw)
    by (rewrite length_app; lia).
  rewrite H1, H2, segments_go_drop, drop_app_length.
  cbn [take]. by rewrite take_app_length.
Qed.

Lemma segments_scan_len n : forall t, length t <= n -> scan marker t (segments matcher t).
Proof.
  induction n as [|n IH]; intros t Hn.
  - destruct t; [constructor|simpl in Hn; lia].
  - destruct t as [|c r]; [constructor|].
    destruct (matcher (c :: r)) as [[m rest]|] eqn:E.
    + pose proof (proj1 (matcher_marker _ _ _) E) as Hm.
      destruct (marker_raw _ _ _ Hm) as (raw & Hraw & Heq).
      rewrite Heq in E, Hm |- *. rewrite (segments_match raw rest m Hraw E).
      constructor; [done|done|]. apply IH.
      apply (f_equal length) in Heq. rewrite length_app in Heq. simpl in Heq, Hn.
      destruct raw; [done|]. simpl in Heq. lia.
    + unfold segments. cbn [segments_go]. rewrite E. constructor.
      * intros m rest Hm. apply matcher_marker in Hm. congruence.
      * apply IH. simpl in Hn. lia.
Qed.

Lemma segments_scan t : scan marker t (segments matcher t).
Proof. by apply (segments_scan_len (length t)). Qed.

Lemma marker_functional s m rest m' rest' :
  marker s m rest -> marker s m' rest' -> m = m' /\ rest = rest'.
Proof.
  intros H H'. apply matcher_marker in H, H'. rewrite H in H'.
  by injection H' as <- <-.
Qed.

Lemma scan_unique t segs :
  scan marker t segs -> forall segs', scan marker t segs' -> segs' = segs.
Proof.
  induction 1 as [|c r segs Hno Hs IH|raw m rest segs Hraw Hm Hs IH];
    intros segs' H'.
  - remember [] as t eqn:Et.
    destruct H' as [|c' r' segs0 Hno' Hs'|raw' m' rest' segs0 Hraw' Hm' Hs'];
      [done|done|]. by destruct raw'.
  - remember (c :: r) as t eqn:Et.
    destruct H' as [|c' r' segs0 Hno' Hs'|raw' m' rest' segs0 Hraw' Hm' Hs'].
    + done.
    + injection Et as -> ->. f_equal. by apply IH.
    + exfalso. by apply (Hno m' rest').
  - remember (raw ++ rest) as t eqn:Et.
    destruct H' as [|c' r' segs0 Hno' Hs'|raw' m' rest' segs0 Hraw' Hm' Hs'].
    + by destruct raw.
    + exfalso. by apply (Hno' m rest).
    + destruct (marker_functional _ _ _ _ _ Hm Hm') as [<- <-].
      apply app_inv_tail in Et as ->. f_equal. by apply IH.
Qed.

Lemma scan_covers t segs : scan marker t segs -> concat (raw_of <$> segs) = t.
Proof. induction 1; simpl; [done|by f_equal|by f_equal]. Qed.
End scanning.

(** Counting rules that agree on the markers number them alike. *)
Lemma renumber_ext {M} (c1 c2 : M -> bool) (segs : list (segment (M := M))) :
  Forall (fun m => c1 m = c2 m) (matches_of segs) ->
  forall n, renumber c1 n segs = renumber c2 n segs.
Proof.
  induction segs as [|[c|m raw] segs IH]; intros Hall n; simpl in *; [done| |].
  - f_equal. by apply IH.
  - inversion Hall as [|? ? Hm Hrest]; subst. rewrite Hm.
    destruct (c2 m); [do 3 f_equal|]; by apply IH.
Qed.

Lemma numbered_ext {M N} (c1 c2 : M -> bool) (mk : nat -> M -> N) (ms : list M) n :
  Forall (fun m => c1 m = c2 m) ms -> numbered c1 mk n ms = numbered c2 mk n ms.
Proof.
  intros Hall. unfold numbered. f_equal.
  induction Hall as [|m ms Hm _ IH]; simpl; [done|]. by rewrite Hm, IH.
Qed.

Lemma span_until_complete d a b : d ∉ a -> span_until d (a ++ d :: b) = Some (a, b).
Proof.
  induction a as [|c a IH]; intros Hn; simpl.
  - by rewrite decide_True.
  - rewrite decide_False by set_solver. rewrite IH by set_solver. done.
Qed.

Module ProcessorScan.
Import Processor.

Lemma nota_match_marker s m rest : nota_match s = Some (m, rest) <-> nota_marker s m rest.
Proof.
  destruct m as [g1 g2]. split.
  - intros H. apply ProcessorMarkers.nota_match_spec in H as (H1 & H2 & H3 & H4 & H5).
    by repeat split.
  - unfold nota_marker. cbn [fst snd]. intros (-> & H1 & H2 & H3 & H4).
    unfold nota_match. rewrite startswith_prefix.
    rewrite (drop_app_length' (str "[NOTA:")); [|done].
    change (str "|" ++ g2 ++ str "]" ++ rest) with ("|"%char :: (g2 ++ "]"%char :: rest)).
    rewrite span_until_complete by done.
    destruct g1; [done|]. cbn [nonempty].
    rewrite span_until_complete by done.
    by destruct g2.
Qed.

Lemma nota_marker_raw s m rest :
  nota_marker s m rest -> exists raw, raw <> [] /\ s = raw ++ rest.
Proof.
  intros (-> & _). exists (str "[NOTA:" ++ m.1 ++ str "|" ++ m.2 ++ str "]").
  split; [done|]. by rewrite <- !app_assoc.
Qed.
End ProcessorScan.

Module KDPScan.
Import CorrecaoKDP.

Lemma istartswith_complete p : forall pre x,
  lower <$> pre = lower <$> p -> istartswith p (pre ++ x) = true.
Proof.
  induction p as [|a p IH]; intros [|b pre] x H; simpl in *; try done.
  injection H as Hb Hp. rewrite decide_True by done. by apply IH.
Qed.

(** Two literals that both begin a text agree, ignoring case, as far as
    the shorter one goes. *)
Lemma istartswith_both p1 p2 s :
  istartswith p1 s = true -> istartswith p2 s = true -> length p1 <= length p2 ->
  take (length p1) (lower <$> p2) = lower <$> p1.
Proof.
  intros H1 H2 Hle.
  apply KDPMarkers.istartswith_app in H1 as (_ & L1 & E1).
  apply KDPMarkers.istartswith_app in H2 as (_ & L2 & E2).
  rewrite <- E2, <- E1, <- fmap_take, take_take. do 2 f_equal. lia.
Qed.

Lemma lower_bracket c : lower "["%char = lower c -> c = "["%char.
Proof.
  destruct c as [[|] [|] [|] [|] [|] [|] [|] [|]]; vm_compute;
    intros E; (reflexivity || discriminate E).
Qed.

Lemma lstrip_spaces w x c :
  forallb isspace w = true -> isspace c = false -> lstrip (w ++ c :: x) = c :: x.
Proof.
  intros Hw Hc. induction w as [|d w IH]; simpl in *; [by rewrite Hc|].
  apply andb_true_iff in Hw as [Hd Hw]. rewrite Hd. by apply IH.
Qed.

Lemma reference_open_complete kind opener x :
  kind ∈ kinds ->
  lower <$> opener = lower <$> (str "[NOTA_" ++ kind ++ str ":") ->
  reference_open (opener ++ x) = Some x.
Proof.
  intros Hk Ho. pose proof (istartswith_complete _ _ x Ho) as Hst.
  assert (Hlen : length opener = length (str "[NOTA_" ++ kind ++ str ":")).
  { apply (f_equal length) in Ho. by rewrite !length_fmap in Ho. }
  assert (Hfind : List.find (fun k => istartswith (str "[NOTA_" ++ k ++ str ":")
                                         (opener ++ x)) kinds = Some kind).
  { assert (Hother : forall k, k ∈ kinds -> k <> kind ->
              istartswith (str "[NOTA_" ++ k ++ str ":") (opener ++ x) = false).
    { intros k Hin Hne.
      destruct (istartswith (str "[NOTA_" ++ k ++ str ":") (opener ++ x)) eqn:E; [|done].
      exfalso.
      destruct (decide (length (str "[NOTA_" ++ k ++ str ":")
                        <= length (str "[NOTA_" ++ kind ++ str ":"))) as [Hle|Hgt].
      - pose proof (istartswith_both _ _ _ E Hst Hle) as Hc.
        unfold kinds in Hin, Hk.
        repeat (apply elem_of_cons in Hin as [->|Hin]);
          repeat (apply elem_of_cons in Hk as [->|Hk]);
          try done; try (by apply elem_of_nil in Hin); try (by apply elem_of_nil in Hk);
          vm_compute in Hc; discriminate Hc.
      - pose proof (istartswith_both _ _ _ Hst E ltac:(lia)) as Hc.
        unfold kinds in Hin, Hk.
        repeat (apply elem_of_cons in Hin as [->|Hin]);
          repeat (apply elem_of_cons in Hk as [->|Hk]);
          try done; try (by apply elem_of_nil in Hin); try (by apply elem_of_nil in Hk);
          vm_compute in Hc; discriminate Hc. }
    unfold kinds in *.
    repeat (apply elem_of_cons in Hk as [->|Hk]); [..|by apply elem_of_nil in Hk].
    all: cbn [List.find]; rewrite ?Hst;
      repeat (rewrite Hother; [|set_solver|done]); rewrite ?Hst; done. }
  unfold reference_open. rewrite Hfind. cbn [fmap option_fmap option_map]. f_equal.
  rewrite <- Hlen. by rewrite drop_app_length.
Qed.

Lemma footnote_match_marker s g3 rest :
  footnote_match s = Some (g3, rest) <-> pair_marker s g3 rest.
Proof.
  split; [apply KDPMarkers.footnote_match_spec|].
  intros (kind & opener & ref & w & copener & Hk & -> & Ho & Hr & Hnr & Hw & Hc & Hn3).
  unfold footnote_match.
  rewrite (reference_open_complete kind opener _ Hk Ho).
  change (ref ++ str "]" ++ ?x) with (ref ++ "]"%char :: x).
  rewrite span_until_complete by done.
  destruct ref as [|r0 ref]; [done|]. cbn [nonempty].
  assert (Hlen : length copener = 15).
  { apply (f_equal length) in Hc. by rewrite !length_fmap in Hc. }
  destruct copener as [|c0 copener]; [done|].
  assert (c0 = "["%char) as ->.
  { injection Hc as Hc0 _. symmetry in Hc0. by apply lower_bracket in Hc0. }
  simpl app. rewrite (lstrip_spaces w _ "["%char Hw eq_refl).
  change ("["%char :: copener ++ g3 ++ "]"%char :: rest)
    with (("["%char :: copener) ++ g3 ++ "]"%char :: rest).
  rewrite (istartswith_complete _ _ _ Hc).
  rewrite <- Hlen, drop_app_length.
  by rewrite span_until_complete.
Qed.

Lemma pair_marker_raw s g3 rest :
  pair_marker s g3 rest -> exists raw, raw <> [] /\ s = raw ++ rest.
Proof.
  intros (kind & opener & ref & w & copener & _ & -> & _ & Hr & _).
  exists (opener ++ ref ++ str "]" ++ w ++ copener ++ g3 ++ str "]").
  split; [|by rewrite <- !app_assoc].
  destruct ref; [done|]. by destruct opener.
Qed.
End KDPScan.

(** C4.  Both marker processors scan the text once, from the left, for the
    markers of their pattern: the scan is the one the marker grammar
    defines, and there is only one.  [run_final_txt_generation] of
    [correcaoKDP.py] meets the claim for every text: the notes are those of
    the valid pairs (content not blank), in document order, numbered from 1
    without gaps, and the [k]-th valid pair is replaced by [[k]], every
    other pair by nothing.  [extract_footnotes] of [processor.py] meets it
    only for a text whose markers all have an explanation that is not
    blank: it numbers every marker, valid or not, so that a marker with a
    whitespace-only explanation takes a number and a note of its own, as
    in the last part, where one valid pair gives two notes and is replaced
    by [[2]]. *)
Theorem footnote_numbering :
  (forall t, exists segs,
     scan pair_marker t segs
     /\ (forall segs', scan pair_marker t segs' -> segs' = segs)
     /\ concat (raw_of <$> segs) = t
     /\ CorrecaoKDP.run_final_txt_generation t
        = (renumber CorrecaoKDP.has_content 1 segs,
           numbered CorrecaoKDP.has_content CorrecaoKDP.mk_note 1 (matches_of segs))
     /\ length (snd (CorrecaoKDP.run_final_txt_generation t))
        = length (List.filter CorrecaoKDP.has_content (matches_of segs)))
  /\ (forall t, exists segs,
        scan nota_marker t segs
        /\ (forall segs', scan nota_marker t segs' -> segs' = segs)
        /\ concat (raw_of <$> segs) = t
        /\ length (snd (Processor.extract_footnotes t)) = length (matches_of segs)
        /\ Processor.number <$> snd (Processor.extract_footnotes t)
           = seq 1 (length (matches_of segs))
        /\ (Forall (fun m => explained m = true) (matches_of segs) ->
            Processor.extract_footnotes t
            = (renumber explained 1 segs,
               numbered explained Processor.mk_footnote 1 (matches_of segs))))
  /\ (Processor.extract_footnotes (str "[NOTA:a| ] e [NOTA:b|c]")
      = (str "[1] e [2]",
         [Processor.Footnote 1 (str "a") []; Processor.Footnote 2 (str "b") (str "c")])
      /\ exists segs,
           scan nota_marker (str "[NOTA:a| ] e [NOTA:b|c]") segs
           /\ List.filter explained (matches_of segs) = [(str "b", str "c")]).
Proof.
  split; [|split].
  - intros t. exists (segments CorrecaoKDP.footnote_match t).
    pose proof (segments_scan _ _ KDPScan.footnote_match_marker KDPScan.pair_marker_raw t)
      as Hscan.
    split; [exact Hscan|]. split.
    { exact (scan_unique _ _ KDPScan.footnote_match_marker KDPScan.pair_marker_raw t _ Hscan). }
    split; [by apply scan_covers in Hscan|]. split.
    + apply KDPMarkers.run_final_txt_generation_spec.
    + rewrite KDPMarkers.run_final_txt_generation_spec. simpl.
      unfold numbered. by rewrite length_imap.
  - intros t. exists (segments Processor.nota_match t).
    pose proof (segments_scan _ _ ProcessorScan.nota_match_marker
                  ProcessorScan.nota_marker_raw t) as Hscan.
    split; [exact Hscan|]. split.
    { exact (scan_unique _ _ ProcessorScan.nota_match_marker ProcessorScan.nota_marker_raw
               t _ Hscan). }
    split; [by apply scan_covers in Hscan|].
    rewrite ProcessorMarkers.extract_footnotes_spec. cbn [snd]. split; [|split].
    + rewrite <- (length_fmap Processor.number).
      by rewrite ProcessorMarkers.numbered_numbers, length_seq.
    + apply ProcessorMarkers.numbered_numbers.
    + intros Hall.
      assert (Hagree : Forall (fun m : text * text => (fun _ => true) m = explained m)
                              (matches_of (segments Processor.nota_match t))).
      { eapply Forall_impl; [exact Hall|]. by intros m ->. }
      by rewrite (renumber_ext _ _ _ Hagree), (numbered_ext _ _ _ _ _ Hagree).
  - split; [vm_compute; reflexivity|].
    exists (segments Processor.nota_match (str "[NOTA:a| ] e [NOTA:b|c]")).
    split; [|vm_compute; reflexivity].
    apply (segments_scan _ _ ProcessorScan.nota_match_marker ProcessorScan.nota_marker_raw).
Qed.

(** C6 fails in [extract_footnotes] of [processor.py]: a marker whose
    explanation is only whitespace is numbered and yields a note with an
    empty explanation, and a marker whose explanation is empty is left in
    the text.  [run_final_txt_generation] of [correcaoKDP.py] removes both
    kinds of pair and numbers neither. *)
Theorem blank_explanation_is_numbered :
  Processor.extract_footnotes (str "a[NOTA:x| ]b[NOTA:y|z]")
  = (str "a[1]b[2]", [Processor.Footnote 1 (str "x") []; Processor.Footnote 2 (str "y") (str "z")])
  /\ Processor.extract_footnotes (str "a[NOTA:x|]b")
     = (str "a[NOTA:x|]b", [])
  /\ CorrecaoKDP.run_final_txt_generation
       (str "a[NOTA_TERMO:x][CONTEUDO_NOTA: ]b[NOTA_TERMO:y][CONTEUDO_NOTA:z]")
     = (str "ab[1]", [str "1. z"])
  /\ CorrecaoKDP.run_final_txt_generation (str "a[NOTA_TERMO:x][CONTEUDO_NOTA:]b")
     = (str "ab", []).
Proof. repeat split; vm_compute; reflexivity. Qed.


(** ** Document reconstructor *)

Lemma find_unfold sep s :
  find sep s = if startswith sep s then Some 0
               else match s with [] => None | _ :: r => S <$> find sep r end.
Proof. by destruct s. Qed.

Lemma split_go_skip sep : forall x r acc,
  split_go sep (length x) acc (x ++ r) = split_go sep 0 acc r.
Proof.
  induction x as [|c x IH]; intros r acc; simpl; [|apply IH].
  destruct r; reflexivity.
Qed.

(** The text up to the first occurrence of the separator is the first
    piece, and the split goes on behind the occurrence. *)
Lemma split_go_first sep : sep <> [] -> forall l r acc,
  find sep (l ++ sep ++ r) = Some (length l) ->
  split_go sep 0 acc (l ++ sep ++ r) = (rev acc ++ l) :: split_go sep 0 [] r.
Proof.
  intros Hsep. induction l as [|c l IH]; intros r acc Hfind.
  - destruct sep as [|a sep]; [done|]. rewrite app_nil_r. simpl app.
    pose proof (startswith_prefix (a :: sep) r) as Hp. simpl app in Hp.
    cbn [split_go]. rewrite Hp.
    f_equal. replace (length (a :: sep) - 1) with (length sep) by (simpl; lia).
    apply split_go_skip.
  - simpl app in *. rewrite find_unfold in Hfind.
    destruct (startswith sep (c :: l ++ sep ++ r)) eqn:E; [done|].
    cbn [split_go]. rewrite E.
    rewrite IH.
    + simpl. by rewrite <- app_assoc.
    + destruct (find sep (l ++ sep ++ r)) as [n|]; simpl in *; [|done].
      by injection Hfind as ->.
Qed.

Lemma split_first sep l r :
  sep <> [] -> find sep (l ++ sep ++ r) = Some (length l) ->
  split sep (l ++ sep ++ r) = l :: split sep r.
Proof. intros H1 H2. unfold split. by rewrite split_go_first. Qed.

(** A text that holds the separator has a first occurrence of it. *)
Lemma find_occurrence sep r : forall l,
  exists l' r', l ++ sep ++ r = l' ++ sep ++ r'
                /\ find sep (l' ++ sep ++ r') = Some (length l').
Proof.
  induction l as [|c l (l' & r' & Heq & Hfind)].
  - exists [], r. split; [done|]. simpl app.
    by rewrite find_unfold, startswith_prefix.
  - destruct (startswith sep (c :: l ++ sep ++ r)) eqn:E.
    + exists [], (drop (length sep) (c :: l ++ sep ++ r)).
      split; [by apply startswith_app in E|]. simpl app.
      by rewrite find_unfold, startswith_prefix.
    + exists (c :: l'), r'. split; [simpl; by rewrite Heq|].
      simpl app. rewrite find_unfold. by rewrite <- Heq, E, Heq, Hfind.
Qed.

Module Docx.
Import Processor.

Section docx_facts.
Variable chapter_regex_match : text -> bool.

Local Abbreviation part := (part_elements chapter_regex_match).
Local Abbreviation body := (body_elements chapter_regex_match).

Lemma marker_nonempty : PAGE_BREAK_MARKER <> [].
Proof. done. Qed.

Lemma body_elements_first l r :
  find PAGE_BREAK_MARKER (l ++ PAGE_BREAK_MARKER ++ r) = Some (length l) ->
  body (l ++ PAGE_BREAK_MARKER ++ r) = part l ++ PageBreak :: body r.
Proof.
  intros Hfind. unfold body_elements.
  rewrite (split_first _ _ _ marker_nonempty Hfind).
  unfold split at 2.
  destruct (split_go PAGE_BREAK_MARKER 0 [] r) as [|p ps] eqn:E;
    [by apply split_go_nonnil in E|].
  unfold split. rewrite E. rewrite !imap_cons. simpl. done.
Qed.

(** Wherever the sentinel stands in the text, the body has a page
    break. *)
Lemma body_elements_page_break l r :
  PageBreak ∈ body (l ++ PAGE_BREAK_MARKER ++ r).
Proof.
  destruct (find_occurrence PAGE_BREAK_MARKER r l) as (l' & r' & -> & Hfind).
  rewrite body_elements_first by done. set_solver.
Qed.
End docx_facts.
End Docx.

(** C8 as stated fails: a sentinel that shares its line with other text
    produces a page break all the same. *)
Lemma embedded_sentinel_breaks_page :
  Processor.generate_docx (fun _ => false) (str "a ===QUEBRA_DE_PAGINA=== b") []
  = [Processor.Para (str "a") false false; Processor.PageBreak;
     Processor.Para (str "b") false false].
Proof. vm_compute. reflexivity. Qed.

(** C8, as the code has it.  The text is cut at every occurrence of the
    sentinel, taken from the left and without overlap, whether or not the
    sentinel has a line of its own: a text that holds the sentinel anywhere
    yields a page break; what precedes the first occurrence is laid out,
    then comes a page break, then the rest of the text is treated in the
    same way. *)
Theorem page_break_at_every_sentinel (chapter_regex_match : text -> bool)
    (l r : text) (notes : list Processor.footnote) :
  Processor.PageBreak
    ∈ Processor.generate_docx chapter_regex_match (l ++ PAGE_BREAK_MARKER ++ r) notes
  /\ (find PAGE_BREAK_MARKER (l ++ PAGE_BREAK_MARKER ++ r) = Some (length l) ->
      Processor.generate_docx chapter_regex_match (l ++ PAGE_BREAK_MARKER ++ r) notes
      = Processor.part_elements chapter_regex_match l
        ++ Processor.PageBreak :: Processor.generate_docx chapter_regex_match r notes).
Proof.
  split.
  - unfold Processor.generate_docx. apply elem_of_app. left.
    apply Docx.body_elements_page_break.
  - intros Hfind. unfold Processor.generate_docx.
    rewrite Docx.body_elements_first by done. by rewrite <- app_assoc.
Qed.

Lemma page_break_at_every_sentinel_witness :
  find PAGE_BREAK_MARKER (str "a " ++ PAGE_BREAK_MARKER ++ str " b") = Some 2
  /\ Processor.generate_docx (fun _ => false) (str "a " ++ PAGE_BREAK_MARKER ++ str " b") []
     = Processor.part_elements (fun _ => false) (str "a ")
       ++ Processor.PageBreak :: Processor.generate_docx (fun _ => false) (str " b") [].
Proof.
  split; [reflexivity|].
  apply (proj2 (page_break_at_every_sentinel (fun _ => false) (str "a ") (str " b") [])).
  reflexivity.
Defined.

(** * Further properties *)

(** ** Chunk bound of [processor.py] *)

(** X1.  With the estimate of a quarter of the length, every chunk of
    [create_chunks] of [processor.py] is within the bound, or is a single
    sentence of a paragraph of the text that exceeds the bound by itself. *)
Theorem processor_chunk_bound (t : text) (max_tokens : Z) :
  Forall (fun c => (Processor.count_tokens_fallback c <= max_tokens)%Z
                   \/ oversized_sentence t max_tokens c)
         (Processor.create_chunks Processor.count_tokens_fallback t max_tokens).
Proof. apply ProcessorBound.create_chunks_bound. Qed.

(** ** Transform client: the first usable answer ends the loop *)

Module ClientRuns.

Lemma generate_from_first_success b service mr t : forall j remaining attempt,
  Processor.known b = true ->
  j < remaining ->
  (forall k, attempt <= k < attempt + j -> Processor.raised (service k) = true) ->
  (forall k, attempt <= k < attempt + j -> k < mr - 1) ->
  service (attempt + j) = Processor.Responded t ->
  let '(r, tr) := Processor.generate_from b service mr attempt remaining in
  r = Some t /\ invocations tr = S j /\ sleeps tr = j.
Proof.
  induction j as [|j IH]; intros remaining attempt Hb Hj Hraise Hlt Hresp.
  - destruct remaining as [|n]; [lia|]. simpl. rewrite Hb.
    rewrite Nat.add_0_r in Hresp. rewrite Hresp. done.
  - destruct remaining as [|n]; [lia|]. simpl. rewrite Hb.
    pose proof (Hraise attempt ltac:(lia)) as Ha.
    destruct (service attempt) as [t0|msg]; [done|].
    specialize (IH n (S attempt) Hb ltac:(lia)
                  ltac:(intros; apply Hraise; lia) ltac:(intros; apply Hlt; lia)).
    replace (S attempt + j) with (attempt + S j) in IH by lia.
    specialize (IH Hresp).
    destruct (Processor.generate_from b service mr (S attempt) n) as [r tr].
    destruct IH as (-> & Hi & Hs). split; [done|].
    rewrite (proj2 (Nat.ltb_lt _ _) (Hlt attempt ltac:(lia))).
    unfold invocations, sleeps in *. simpl. lia.
Qed.

Lemma call_from_first_success service urandom t : forall j remaining base attempt,
  j < remaining -> attempt + j < CorrecaoKDP.max_retries ->
  (forall k, attempt <= k < attempt + j -> CorrecaoKDP.retried (service k) = true) ->
  CorrecaoKDP.result_text (service (attempt + j)) = Some t -> nonempty t = true ->
  let '(r, tr) := CorrecaoKDP.call_from service urandom base attempt remaining in
  r = Some t /\ invocations tr = S j /\ sleeps tr = j.
Proof.
  induction j as [|j IH]; intros remaining base attempt Hj Hmax Hret Hres Hne.
  - destruct remaining as [|n]; [lia|]. rewrite Nat.add_0_r in Hres.
    simpl. destruct (service attempt) as [msg| | |parts|u|]; simpl in Hres; try done.
    + injection Hres as Hres. simpl. rewrite Hres, Hne. done.
    + injection Hres as Hres. simpl. rewrite Hres, Hne. done.
  - destruct remaining as [|n]; [lia|].
    assert (Ha : (attempt <? 4) = true)
      by (apply Nat.ltb_lt; change CorrecaoKDP.max_retries with 5 in Hmax; lia).
    assert (Hstep : forall base',
      let '(r, tr) :=
        (let '(r, tr) := CorrecaoKDP.call_from service urandom base' (S attempt) n in
         (r, Invoke attempt :: Sleep base' attempt (Some (urandom attempt)) :: tr)) in
      r = Some t /\ invocations tr = S (S j) /\ sleeps tr = S j).
    { intros base'.
      specialize (IH n base' (S attempt) ltac:(lia) ltac:(lia)
                    ltac:(intros; apply Hret; lia)).
      replace (S attempt + j) with (attempt + S j) in IH by lia.
      specialize (IH Hres Hne).
      destruct (CorrecaoKDP.call_from service urandom base' (S attempt) n) as [r tr].
      destruct IH as (-> & Hi & Hs). split; [done|].
      unfold invocations, sleeps in *. simpl. lia. }
    pose proof (Hret attempt ltac:(lia)) as Hr.
    simpl. rewrite Ha. unfold CorrecaoKDP.retried, CorrecaoKDP.attempt_fails in Hr.
    destruct (service attempt) as [m'| | |parts|u|]; simpl in Hr |- *;
      try done; try apply Hstep.
    + match type of Hr with negb (nonempty ?x) = true =>
        destruct (nonempty x); [discriminate Hr|apply Hstep] end.
    + match type of Hr with negb (nonempty ?x) = true =>
        destruct (nonempty x); [discriminate Hr|apply Hstep] end.
Qed.

Lemma call_from_blocked service urandom : forall j remaining base attempt,
  j < remaining -> attempt + j < CorrecaoKDP.max_retries ->
  (forall k, attempt <= k < attempt + j -> CorrecaoKDP.retried (service k) = true) ->
  service (attempt + j) = CorrecaoKDP.Blocked ->
  let '(r, tr) := CorrecaoKDP.call_from service urandom base attempt remaining in
  r = None /\ invocations tr = S j /\ sleeps tr = j.
Proof.
  induction j as [|j IH]; intros remaining base attempt Hj Hmax Hret Hres.
  - destruct remaining as [|n]; [lia|]. rewrite Nat.add_0_r in Hres.
    simpl. rewrite Hres. done.
  - destruct remaining as [|n]; [lia|].
    assert (Ha : (attempt <? 4) = true)
      by (apply Nat.ltb_lt; change CorrecaoKDP.max_retries with 5 in Hmax; lia).
    assert (Hstep : forall base',
      let '(r, tr) :=
        (let '(r, tr) := CorrecaoKDP.call_from service urandom base' (S attempt) n in
         (r, Invoke attempt :: Sleep base' attempt (Some (urandom attempt)) :: tr)) in
      r = None /\ invocations tr = S (S j) /\ sleeps tr = S j).
    { intros base'.
      specialize (IH n base' (S attempt) ltac:(lia) ltac:(lia)
                    ltac:(intros; apply Hret; lia)).
      replace (S attempt + j) with (attempt + S j) in IH by lia.
      specialize (IH Hres).
      destruct (CorrecaoKDP.call_from service urandom base' (S attempt) n) as [r tr].
      destruct IH as (-> & Hi & Hs). split; [done|].
      unfold invocations, sleeps in *. simpl. lia. }
    pose proof (Hret attempt ltac:(lia)) as Hr.
    simpl. rewrite Ha. unfold CorrecaoKDP.retried, CorrecaoKDP.attempt_fails in Hr.
    destruct (service attempt) as [m'| | |parts|u|]; simpl in Hr |- *;
      try done; try apply Hstep.
    + match type of Hr with negb (nonempty ?x) = true =>
        destruct (nonempty x); [discriminate Hr|apply Hstep] end.
    + match type of Hr with negb (nonempty ?x) = true =>
        destruct (nonempty x); [discriminate Hr|apply Hstep] end.
Qed.

End ClientRuns.

(** X2.  [ModelClient.generate] returns the answer of the first attempt
    that does not raise, after one call per attempt made and one wait per
    failed attempt; it makes no further call. *)
Theorem generate_first_answer (b : Processor.backend)
    (service : nat -> Processor.gen_outcome) (max_retries j : nat) (t : text) :
  Processor.known b = true ->
  j < max_retries ->
  (forall k, k < j -> Processor.raised (service k) = true) ->
  service j = Processor.Responded t ->
  fst (Processor.generate b service max_retries) = Some t
  /\ invocations (snd (Processor.generate b service max_retries)) = S j
  /\ sleeps (snd (Processor.generate b service max_retries)) = j.
Proof.
  intros Hb Hj Hraise Hresp. unfold Processor.generate.
  pose proof (ClientRuns.generate_from_first_success b service max_retries t j
                max_retries 0 Hb Hj
                ltac:(intros; apply Hraise; lia) ltac:(intros; lia) Hresp) as H.
  by destruct (Processor.generate_from b service max_retries 0 max_retries).
Qed.

Lemma generate_first_answer_witness :
  let service := fun k : nat => if k <? 2 then Processor.Raised (str "timeout")
                                else Processor.Responded (str "ok") in
  fst (Processor.generate Processor.Ollama service MAX_RETRIES) = Some (str "ok")
  /\ invocations (snd (Processor.generate Processor.Ollama service MAX_RETRIES)) = 3
  /\ sleeps (snd (Processor.generate Processor.Ollama service MAX_RETRIES)) = 2.
Proof.
  intros service.
  apply (generate_first_answer Processor.Ollama service MAX_RETRIES 2 (str "ok")).
  - reflexivity.
  - unfold MAX_RETRIES. lia.
  - intros k Hk. unfold service. destruct k as [|[|k]]; [reflexivity|reflexivity|lia].
  - reflexivity.
Defined.

(** X3.  [_call_gemini_api] returns the text of the first attempt that
    yields a non-empty text, and gives up at once, with [None], on the
    first attempt whose prompt is blocked; either way it has made one call
    per attempt and one wait per earlier attempt, and makes no further
    call. *)
Theorem call_gemini_first_answer (service : nat -> CorrecaoKDP.api_response)
    (urandom : nat -> Z) (j : nat) :
  j < 5 ->
  (forall k, k < j -> CorrecaoKDP.retried (service k) = true) ->
  (forall t, CorrecaoKDP.result_text (service j) = Some t -> nonempty t = true ->
     fst (CorrecaoKDP._call_gemini_api service urandom) = Some t
     /\ invocations (snd (CorrecaoKDP._call_gemini_api service urandom)) = S j
     /\ sleeps (snd (CorrecaoKDP._call_gemini_api service urandom)) = j)
  /\ (service j = CorrecaoKDP.Blocked ->
      fst (CorrecaoKDP._call_gemini_api service urandom) = None
      /\ invocations (snd (CorrecaoKDP._call_gemini_api service urandom)) = S j
      /\ sleeps (snd (CorrecaoKDP._call_gemini_api service urandom)) = j).
Proof.
  intros Hj Hret. unfold CorrecaoKDP._call_gemini_api. split.
  - intros t Hres Hne.
    pose proof (ClientRuns.call_from_first_success service urandom t j
                  CorrecaoKDP.max_retries 5 0 Hj Hj
                  ltac:(intros; apply Hret; lia) Hres Hne) as H.
    by destruct (CorrecaoKDP.call_from service urandom 5 0 CorrecaoKDP.max_retries).
  - intros Hb.
    pose proof (ClientRuns.call_from_blocked service urandom j
                  CorrecaoKDP.max_retries 5 0 Hj Hj
                  ltac:(intros; apply Hret; lia) Hb) as H.
    by destruct (CorrecaoKDP.call_from service urandom 5 0 CorrecaoKDP.max_retries).
Qed.

Lemma call_gemini_first_answer_witness :
  let service := fun k : nat =>
    if k <? 1 then CorrecaoKDP.NoCandidates
    else CorrecaoKDP.CandidateParts [str " ok "] in
  fst (CorrecaoKDP._call_gemini_api service (fun _ => 0%Z)) = Some (str "ok")
  /\ invocations (snd (CorrecaoKDP._call_gemini_api service (fun _ => 0%Z))) = 2
  /\ sleeps (snd (CorrecaoKDP._call_gemini_api service (fun _ => 0%Z))) = 1.
Proof.
  intros service.
  apply (proj1 (call_gemini_first_answer service (fun _ => 0%Z) 1 ltac:(lia)
                  ltac:(intros k Hk; destruct k; [reflexivity|lia]))).
  - reflexivity.
  - reflexivity.
Defined.

(** ** Chunks are never blank *)

Lemma unspace_nil_lstrip s : unspace s = [] -> lstrip s = [].
Proof.
  induction s as [|c s IH]; simpl; [done|].
  destruct (isspace c); [exact IH|done].
Qed.

Lemma strip_nonblank s : nonempty (strip s) = true -> unspace s <> [].
Proof.
  intros H Hu. unfold strip, rstrip in H.
  rewrite (unspace_nil_lstrip s Hu) in H. done.
Qed.

Lemma lstrip_head s c r : lstrip s = c :: r -> isspace c = false.
Proof.
  induction s as [|d s IH]; simpl; [done|].
  destruct (isspace d) eqn:E; [exact IH|]. by intros [= <- _].
Qed.

Lemma lstrip_snoc a c : isspace c = false -> lstrip (a ++ [c]) = lstrip a ++ [c].
Proof.
  intros Hc. induction a as [|d a IH]; simpl; [by rewrite Hc|].
  destruct (isspace d); [exact IH|done].
Qed.

Lemma ends_clean_tail c s : ends_clean (c :: s) -> ends_clean s.
Proof. intros H r d ->. by apply (H (c :: r) d). Qed.

Lemma ends_clean_space c s : ends_clean (c :: s) -> isspace c = true -> s <> [].
Proof. intros H Hc ->. specialize (H [] c eq_refl). congruence. Qed.

Lemma strip_ends_clean s : ends_clean (strip s).
Proof.
  unfold strip, rstrip. intros r c Heq.
  apply (f_equal (@rev _)) in Heq. rewrite rev_involutive, rev_app_distr in Heq.
  simpl in Heq. by apply lstrip_head in Heq.
Qed.

Lemma strip_head s c r : strip s = c :: r -> isspace c = false.
Proof.
  unfold strip, rstrip. destruct (lstrip s) as [|c0 r0] eqn:E; [done|].
  apply lstrip_head in E. simpl. rewrite lstrip_snoc by done.
  rewrite rev_app_distr. simpl. by intros [= <- _].
Qed.

(** A text that neither begins nor ends with whitespace is cut into
    sentences none of which is blank. *)
Lemma split_sentences_go_nonblank : forall s prev ws acc,
  ends_clean s ->
  (ws = true -> acc = [] /\ s <> []) ->
  (ws = false -> unspace (rev acc) <> []
                 \/ (acc = [] /\ exists c r, s = c :: r /\ isspace c = false)) ->
  Forall (fun p => unspace p <> []) (split_sentences_go prev ws acc s).
Proof.
  induction s as [|c r IH]; intros prev ws acc Hend Hws Hacc; simpl.
  - constructor; [|done]. destruct ws; [by destruct (Hws eq_refl)|].
    destruct (Hacc eq_refl) as [H|(_ & ? & ? & ? & _)]; done.
  - pose proof (ends_clean_tail _ _ Hend) as Hend'.
    destruct (isspace c) eqn:Ec.
    + pose proof (ends_clean_space _ _ Hend Ec) as Hr.
      destruct ws.
      * apply IH; [done|done|done].
      * assert (Hnb : unspace (rev acc) <> []).
        { destruct (Hacc eq_refl) as [H|(_ & c' & r' & [= <- _] & Hc')]; [done|congruence]. }
        destruct prev.
        -- constructor; [done|]. apply IH; [done|done|done].
        -- apply IH; [done|done|]. intros _. left.
           simpl. rewrite unspace_app. simpl. rewrite Ec. by rewrite app_nil_r.
    + apply IH; [done|done|]. intros _. left.
      simpl. rewrite unspace_app. simpl. rewrite Ec. by destruct (unspace (rev acc)).
Qed.

Lemma split_sentences_strip_nonblank p :
  nonempty (strip p) = true ->
  Forall (fun s => unspace s <> []) (split_sentences (strip p)).
Proof.
  intros Hne. unfold split_sentences. apply split_sentences_go_nonblank.
  - apply strip_ends_clean.
  - done.
  - intros _. right. split; [done|].
    destruct (strip p) as [|c r] eqn:E; [done|].
    exists c, r. split; [done|]. by apply strip_head in E.
Qed.

Lemma nonblank_flush st : nonblank_inv st -> Forall (fun c => unspace c <> []) (flush st).
Proof.
  intros [H1 H2]. unfold flush. destruct (current st) eqn:E; simpl; [done|].
  apply Forall_app. split; [done|]. constructor; [|done]. by destruct H2.
Qed.

Lemma nonblank_init : nonblank_inv (ChunkerState [] [] 0).
Proof. split; [constructor|by left]. Qed.

Lemma nonblank_join a sep b : unspace b <> [] -> unspace (a ++ sep ++ b) <> [].
Proof. intros H. rewrite !unspace_app. intros Hn. by repeat (apply app_eq_nil in Hn as [_ Hn]). Qed.

Module ProcessorNonblank.
Import Processor.

Section nonblank.
Variable count_tokens : text -> Z.

Lemma sentence_step_nonblank max st sent :
  unspace sent <> [] -> nonblank_inv st ->
  nonblank_inv (sentence_step count_tokens max st sent).
Proof.
  intros Hs Hinv. pose proof (nonblank_flush st Hinv) as Hf. destruct Hinv as [H1 H2].
  unfold sentence_step. destruct (_ <=? _)%Z; [|destruct (_ >? _)%Z].
  - split; [done|]. right. by apply nonblank_join.
  - split; [|by left]. simpl. apply Forall_app. split; [done|]. by constructor.
  - split; [done|]. by right.
Qed.

Lemma sentences_nonblank max l : forall st,
  Forall (fun s => unspace s <> []) l -> nonblank_inv st ->
  nonblank_inv (foldl (sentence_step count_tokens max) st l).
Proof.
  induction l as [|x l IH]; intros st Hl Hinv; simpl; [done|].
  inversion Hl; subst. apply IH; [done|]. by apply sentence_step_nonblank.
Qed.

Lemma paragraph_step_nonblank max st para :
  nonblank_inv st -> nonblank_inv (paragraph_step count_tokens max st para).
Proof.
  intros Hinv. pose proof (nonblank_flush st Hinv) as Hf. pose proof Hinv as [H1 H2].
  unfold paragraph_step. destruct (nonempty (strip para)) eqn:Hne; simpl; [|done].
  assert (Hp : unspace (strip para) <> []) by (rewrite unspace_strip; by apply strip_nonblank).
  destruct (_ <=? _)%Z; [|destruct (_ >? _)%Z].
  - split; [done|]. right. by apply nonblank_join.
  - set (sub := foldl _ _ _).
    assert (Hsub : nonblank_inv sub).
    { apply sentences_nonblank; [by apply split_sentences_strip_nonblank|].
      split; [done|by left]. }
    destruct Hsub as [S1 S2]. split; [done|]. simpl.
    destruct (nonempty (current sub)) eqn:E; [|by left].
    destruct S2 as [S2|S2]; [by rewrite S2 in E|by right].
  - split; [done|]. by right.
Qed.

Lemma merge_step_nonblank max st chunk :
  unspace chunk <> [] -> nonblank_inv st ->
  nonblank_inv (merge_step count_tokens max st chunk).
Proof.
  intros Hs Hinv. pose proof (nonblank_flush st Hinv) as Hf. destruct Hinv as [H1 H2].
  unfold merge_step. destruct (_ <=? _)%Z.
  - split; [done|]. right. by apply nonblank_join.
  - split; [done|]. by right.
Qed.

Lemma paragraphs_nonblank max l : forall st,
  nonblank_inv st -> nonblank_inv (foldl (paragraph_step count_tokens max) st l).
Proof.
  induction l as [|x l IH]; intros st Hinv; simpl; [done|].
  apply IH. by apply paragraph_step_nonblank.
Qed.

Lemma merges_nonblank max l : forall st,
  Forall (fun s => unspace s <> []) l -> nonblank_inv st ->
  nonblank_inv (foldl (merge_step count_tokens max) st l).
Proof.
  induction l as [|x l IH]; intros st Hl Hinv; simpl; [done|].
  inversion Hl; subst. apply IH; [done|]. by apply merge_step_nonblank.
Qed.

Lemma create_chunks_nonblank t max :
  Forall (fun c => unspace c <> []) (create_chunks count_tokens t max).
Proof.
  unfold create_chunks. destruct (_ || _); [done|].
  unfold merge_pass, first_pass.
  apply nonblank_flush, merges_nonblank; [|apply nonblank_init].
  apply nonblank_flush, paragraphs_nonblank, nonblank_init.
Qed.
End nonblank.
End ProcessorNonblank.

Module KDPNonblank.
Import CorrecaoKDP.

Lemma pad_last_nonblank l :
  Forall (fun c => unspace c <> []) l -> Forall (fun c => unspace c <> []) (pad_last l).
Proof.
  intros Hl. unfold pad_last. destruct (rev l) as [|x r] eqn:E; [done|].
  destruct (_ && _); [|done].
  assert (Hl' : Forall (fun c => unspace c <> []) (rev l)) by (by apply Forall_rev).
  rewrite E in Hl'. inversion Hl'; subst.
  apply Forall_app. split; [by apply Forall_rev|].
  constructor; [|done]. rewrite unspace_app. by destruct (unspace x).
Qed.

Lemma sub_flush_nonblank st :
  nonblank_inv (sub_chunker st) ->
  Forall (fun c => unspace c <> []) (chunks (sub_chunker (sub_flush st))).
Proof.
  intros Hinv. pose proof (nonblank_flush _ Hinv) as Hf.
  unfold sub_flush, flush in *. by destruct (nonempty (current (sub_chunker st))).
Qed.

Lemma kdp_sentence_step_nonblank max st sentence :
  nonblank_inv (sub_chunker st) -> nonblank_inv (sub_chunker (sentence_step max st sentence)).
Proof.
  intros Hinv. pose proof (sub_flush_nonblank st Hinv) as Hf. pose proof Hinv as [H1 H2].
  unfold sentence_step. destruct (nonempty (strip sentence)) eqn:Hne; simpl; [|done].
  assert (Hs : unspace sentence <> []) by (by apply strip_nonblank).
  destruct (_ <=? _)%Z; [|destruct (_ >? _)%Z]; simpl.
  - split; [done|]. right. by apply nonblank_join.
  - split; [|by left]. simpl. apply Forall_app. split; [done|]. by constructor.
  - split; [done|]. by right.
Qed.

Lemma kdp_sentences_nonblank max l : forall st,
  nonblank_inv (sub_chunker st) ->
  nonblank_inv (sub_chunker (foldl (sentence_step max) st l)).
Proof.
  induction l as [|x l IH]; intros st Hinv; simpl; [done|].
  apply IH. by apply kdp_sentence_step_nonblank.
Qed.

Lemma subdivide_nonblank max chunks0 p :
  Forall (fun c => unspace c <> []) chunks0 -> unspace p <> [] ->
  Forall (fun c => unspace c <> []) (subdivide max chunks0 p).
Proof.
  intros H0 Hp. unfold subdivide. set (st := foldl _ _ _).
  assert (Hst : nonblank_inv (sub_chunker st)).
  { apply kdp_sentences_nonblank. split; [done|by left]. }
  pose proof (sub_flush_nonblank st Hst) as Hf.
  destruct (_ =? _); [|done].
  apply Forall_app. split; [done|]. by constructor.
Qed.

Lemma kdp_paragraph_step_nonblank max st p :
  nonblank_inv st -> nonblank_inv (paragraph_step max st p).
Proof.
  intros Hinv. pose proof (nonblank_flush st Hinv) as Hf. pose proof Hinv as [H1 H2].
  unfold paragraph_step. destruct (nonempty (strip p)) eqn:Hne; simpl.
  2:{ split; [by apply pad_last_nonblank|done]. }
  assert (Hp : unspace p <> []) by (by apply strip_nonblank).
  destruct (_ <=? _)%Z; [|destruct (_ >? _)%Z].
  - split; [done|]. right. by apply nonblank_join.
  - split; [|by left]. by apply subdivide_nonblank.
  - split; [done|]. by right.
Qed.

Lemma kdp_merge_step_nonblank max st chunk :
  unspace chunk <> [] -> nonblank_inv st -> nonblank_inv (merge_step max st chunk).
Proof.
  intros Hs Hinv. pose proof (nonblank_flush st Hinv) as Hf. destruct Hinv as [H1 H2].
  unfold merge_step. destruct (_ <=? _)%Z.
  - split; [done|]. right. by apply nonblank_join.
  - split; [done|]. by right.
Qed.

Lemma kdp_paragraphs_nonblank max l : forall st,
  nonblank_inv st -> nonblank_inv (foldl (paragraph_step max) st l).
Proof.
  induction l as [|x l IH]; intros st Hinv; simpl; [done|].
  apply IH. by apply kdp_paragraph_step_nonblank.
Qed.

Lemma kdp_merges_nonblank max l : forall st,
  Forall (fun s => unspace s <> []) l -> nonblank_inv st ->
  nonblank_inv (foldl (merge_step max) st l).
Proof.
  induction l as [|x l IH]; intros st Hl Hinv; simpl; [done|].
  inversion Hl; subst. apply IH; [done|]. by apply kdp_merge_step_nonblank.
Qed.

Lemma kdp_create_chunks_nonblank t max :
  Forall (fun c => unspace c <> []) (create_chunks t max).
Proof.
  unfold create_chunks, merge_pass, first_pass.
  apply nonblank_flush, kdp_merges_nonblank; [|apply nonblank_init].
  apply nonblank_flush, kdp_paragraphs_nonblank, nonblank_init.
Qed.
End KDPNonblank.

Lemma concat_blank l :
  Forall (fun c => unspace c <> []) l -> unspace (concat l) = [] -> l = [].
Proof.
  intros Hl Hc. destruct l as [|x l]; [done|].
  inversion Hl; subst. simpl in Hc. rewrite unspace_app in Hc.
  by apply app_eq_nil in Hc as [? _].
Qed.

(** X4.  No chunk of either chunker is blank: every chunk holds a character
    that is not whitespace, for every text, bound and (in [processor.py])
    size estimator. *)
Theorem chunks_never_blank (count_tokens : text -> Z) (t : text) (max_tokens : Z) :
  Forall (fun c => unspace c <> []) (Processor.create_chunks count_tokens t max_tokens)
  /\ Forall (fun c => unspace c <> []) (CorrecaoKDP.create_chunks t max_tokens).
Proof.
  split.
  - apply ProcessorNonblank.create_chunks_nonblank.
  - apply KDPNonblank.kdp_create_chunks_nonblank.
Qed.

(** X5.  Either chunker returns no chunk exactly when the text is blank
    (empty or made of whitespace only), whatever the bound: this is the one
    case in which [process_book], [run_correction_pass] and
    [run_footnote_id_pass] give up for lack of chunks. *)
Theorem no_chunks_iff_blank (count_tokens : text -> Z) (t : text) (max_tokens : Z) :
  (Processor.create_chunks count_tokens t max_tokens = [] <-> unspace t = [])
  /\ (CorrecaoKDP.create_chunks t max_tokens = [] <-> unspace t = []).
Proof.
  split; split.
  - intros H. rewrite <- (ProcessorCoverage.create_chunks_content count_tokens t max_tokens).
    by rewrite H.
  - intros H. apply concat_blank; [apply ProcessorNonblank.create_chunks_nonblank|].
    by rewrite ProcessorCoverage.create_chunks_content.
  - intros H. rewrite <- (KDPCoverage.kdp_create_chunks_content t max_tokens).
    by rewrite H.
  - intros H. apply concat_blank; [apply KDPNonblank.kdp_create_chunks_nonblank|].
    by rewrite KDPCoverage.kdp_create_chunks_content.
Qed.

(** ** The merge pass only regroups *)

Lemma join_snoc sep l x : l <> [] -> join sep (l ++ [x]) = join sep l ++ sep ++ x.
Proof.
  induction l as [|y l IH]; [done|]. intros _.
  destruct l as [|z l]; [done|].
  change (join sep ((y :: z :: l) ++ [x])) with (y ++ sep ++ join sep ((z :: l) ++ [x])).
  rewrite IH by done.
  change (join sep (y :: z :: l)) with (y ++ sep ++ join sep (z :: l)).
  by rewrite <- !app_assoc.
Qed.

Lemma join_app sep a l :
  a <> [] -> l <> [] -> join sep (a ++ l) = join sep a ++ sep ++ join sep l.
Proof.
  intros Ha Hl. induction a as [|y a IH]; [done|].
  destruct a as [|z a].
  - simpl. by destruct l.
  - change (join sep ((y :: z :: a) ++ l)) with (y ++ sep ++ join sep ((z :: a) ++ l)).
    rewrite IH by done.
    change (join sep (y :: z :: a)) with (y ++ sep ++ join sep (z :: a)).
    by rewrite <- !app_assoc.
Qed.

Lemma flush_snoc st x :
  x <> [] -> flush (ChunkerState (flush st) x (current_tokens st)) = flush st ++ [x].
Proof. intros H. unfold flush at 1. simpl. by destruct x. Qed.

Section regroup.
(** A step that either joins the item to the chunk being built, with a
    blank line in between, or closes that chunk and starts a new one with
    the item. *)
Variable step : chunker_state -> text -> chunker_state.
Hypothesis step_cases : forall st x,
  (chunks (step st x) = chunks st
   /\ current (step st x) = current st ++ sep_if (current st) [nl; nl] ++ x)
  \/ (chunks (step st x) = flush st /\ current (step st x) = x).

Lemma step_flush st x :
  x <> [] -> flush (step st x) <> []
             /\ join [nl; nl] (flush (step st x)) = join [nl; nl] (flush st ++ [x])
             /\ length (flush (step st x)) <= S (length (flush st)).
Proof.
  intros Hx. destruct x as [|d x]; [done|clear Hx].
  destruct (step_cases st (d :: x)) as [[Hc Hcur]|[Hc Hcur]];
    unfold flush at 1 2 4; rewrite Hc, Hcur.
  - unfold flush, sep_if. destruct (current st) as [|c cur] eqn:E.
    + cbn [nonempty app].
      split; [by destruct (chunks st)|]. split; [done|].
      rewrite length_app. simpl. lia.
    + cbn [nonempty app].
      split; [by destruct (chunks st)|]. split.
      * destruct (chunks st) as [|y l] eqn:El; [done|].
        rewrite (join_snoc _ ((y :: l) ++ [c :: cur])) by (by destruct l).
        rewrite !join_snoc by done.
        by rewrite <- !app_assoc.
      * rewrite !length_app. simpl. lia.
  - cbn [nonempty].
    split; [by destruct (flush st)|]. split; [done|]. rewrite length_app. simpl. lia.
Qed.

Lemma foldl_flush l : forall st,
  Forall (fun x => x <> []) l ->
  join [nl; nl] (flush (foldl step st l)) = join [nl; nl] (flush st ++ l)
  /\ length (flush (foldl step st l)) <= length (flush st) + length l.
Proof.
  induction l as [|x l IH]; intros st Hl; simpl.
  - rewrite app_nil_r. split; [done|lia].
  - inversion Hl; subst. destruct (IH (step st x) ltac:(done)) as [IH1 IH2].
    destruct (step_flush st x ltac:(done)) as (Hne & Hj & Hlen).
    split; [|lia]. rewrite IH1.
    destruct l as [|y l].
    + rewrite !app_nil_r. exact Hj.
    + rewrite join_app by done.
      replace (flush st ++ x :: y :: l) with ((flush st ++ [x]) ++ y :: l)
        by (by rewrite <- app_assoc).
      rewrite (join_app _ (flush st ++ [x])) by (try done; by destruct (flush st)).
      by rewrite Hj.
Qed.
End regroup.

Module ProcessorRegroup.
Import Processor.

Lemma merge_step_cases count_tokens max st x :
  (chunks (merge_step count_tokens max st x) = chunks st
   /\ current (merge_step count_tokens max st x)
      = current st ++ sep_if (current st) [nl; nl] ++ x)
  \/ (chunks (merge_step count_tokens max st x) = flush st
      /\ current (merge_step count_tokens max st x) = x).
Proof. unfold merge_step. destruct (_ <=? _)%Z; simpl; auto. Qed.

Lemma merge_pass_join count_tokens max l :
  Forall (fun x => x <> []) l ->
  join [nl; nl] (merge_pass count_tokens max l) = join [nl; nl] l
  /\ length (merge_pass count_tokens max l) <= length l.
Proof.
  intros Hl. unfold merge_pass.
  destruct (foldl_flush _ (merge_step_cases count_tokens max) l (ChunkerState [] [] 0) Hl)
    as [H1 H2].
  split; [exact H1|exact H2].
Qed.

(** A paragraph that is neither blank nor too large is handled like a
    chunk in the merge pass. *)
Lemma paragraph_step_merge count_tokens max st p :
  nonempty (strip p) = true -> (count_tokens (strip p) <= max)%Z ->
  paragraph_step count_tokens max st p = merge_step count_tokens max st (strip p).
Proof.
  intros Hne Hle. unfold paragraph_step, merge_step. rewrite Hne. simpl.
  destruct (_ <=? _)%Z; [done|].
  destruct (_ >? _)%Z eqn:E; [apply Z.gtb_lt in E; lia|done].
Qed.

Lemma first_pass_merge count_tokens max : forall l st,
  Forall (fun p => (count_tokens p <= max)%Z) (List.filter nonempty (strip <$> l)) ->
  foldl (paragraph_step count_tokens max) st l
  = foldl (merge_step count_tokens max) st (List.filter nonempty (strip <$> l)).
Proof.
  induction l as [|p l IH]; intros st Hl; simpl in *; [done|].
  destruct (nonempty (strip p)) eqn:Hne.
  - inversion Hl; subst. simpl. rewrite <- IH by done.
    by rewrite paragraph_step_merge.
  - rewrite <- IH by done. f_equal. unfold paragraph_step. by rewrite Hne.
Qed.

Lemma first_pass_nonblank count_tokens t max :
  Forall (fun c => unspace c <> []) (first_pass count_tokens t max).
Proof.
  unfold first_pass.
  apply nonblank_flush, ProcessorNonblank.paragraphs_nonblank, nonblank_init.
Qed.

Lemma first_pass_content count_tokens t max :
  unspace (concat (first_pass count_tokens t max)) = unspace t.
Proof.
  unfold first_pass. change (concat (flush ?s)) with (content s).
  rewrite (unspace_foldl content _ (ProcessorCoverage.paragraph_step_content count_tokens max)).
  simpl. by apply unspace_split.
Qed.
End ProcessorRegroup.

Module KDPRegroup.
Import CorrecaoKDP.

Lemma kdp_merge_step_cases max st x :
  (chunks (merge_step max st x) = chunks st
   /\ current (merge_step max st x) = current st ++ sep_if (current st) [nl; nl] ++ x)
  \/ (chunks (merge_step max st x) = flush st /\ current (merge_step max st x) = x).
Proof. unfold merge_step. destruct (_ <=? _)%Z; simpl; auto. Qed.

Lemma kdp_merge_pass_join max l :
  Forall (fun x => x <> []) l ->
  join [nl; nl] (merge_pass max l) = join [nl; nl] l
  /\ length (merge_pass max l) <= length l.
Proof.
  intros Hl. unfold merge_pass.
  destruct (foldl_flush _ (kdp_merge_step_cases max) l (ChunkerState [] [] 0) Hl)
    as [H1 H2].
  split; [exact H1|exact H2].
Qed.

Lemma kdp_first_pass_nonblank t max :
  Forall (fun c => unspace c <> []) (first_pass t max).
Proof.
  unfold first_pass.
  apply nonblank_flush, KDPNonblank.kdp_paragraphs_nonblank, nonblank_init.
Qed.
End KDPRegroup.

Lemma nonblank_nonempty l :
  Forall (fun c => unspace c <> []) l -> Forall (fun c : text => c <> []) l.
Proof. intros H. eapply Forall_impl; [exact H|]. intros c Hc ->. by apply Hc. Qed.



Lemma create_chunks_first_pass count_tokens t max :
  join [nl; nl] (Processor.create_chunks count_tokens t max)
  = join [nl; nl] (Processor.first_pass count_tokens t max)
  /\ length (Processor.create_chunks count_tokens t max)
     <= length (Processor.first_pass count_tokens t max).
Proof.
  unfold Processor.create_chunks.
  destruct (negb (nonempty t) || negb (nonempty (strip t))) eqn:G.
  - assert (Hb : unspace t = []).
    { destruct t as [|c t]; [done|]. simpl in G.
      destruct (strip (c :: t)) eqn:Es; [|done].
      rewrite <- (unspace_strip (c :: t)), Es. done. }
    assert (Hf : Processor.first_pass count_tokens t max = []).
    { pose proof (ProcessorRegroup.first_pass_nonblank count_tokens t max) as Hn.
      pose proof (ProcessorRegroup.first_pass_content count_tokens t max) as Hc.
      rewrite Hb in Hc. apply concat_blank in Hc; [done|exact Hn]. }
    rewrite Hf. split; [done|simpl; lia].
  - apply ProcessorRegroup.merge_pass_join, nonblank_nonempty,
      ProcessorRegroup.first_pass_nonblank.
Qed.

Lemma filter_nonempty (l : list text) :
  Forall (fun x : text => x <> []) (List.filter nonempty l).
Proof.
  induction l as [|x l IH]; simpl; [constructor|].
  destruct x; simpl; [done|]. by constructor.
Qed.

(** X6.  The merge pass only regroups: joined by blank lines, the chunks of
    either [create_chunks] are the chunks of its first pass joined by blank
    lines, and there are no more of them. *)
Theorem create_chunks_regroups (count_tokens : text -> Z) (t : text) (max_tokens : Z) :
  (join [nl; nl] (Processor.create_chunks count_tokens t max_tokens)
   = join [nl; nl] (Processor.first_pass count_tokens t max_tokens)
   /\ length (Processor.create_chunks count_tokens t max_tokens)
      <= length (Processor.first_pass count_tokens t max_tokens))
  /\ (join [nl; nl] (CorrecaoKDP.create_chunks t max_tokens)
      = join [nl; nl] (CorrecaoKDP.first_pass t max_tokens)
      /\ length (CorrecaoKDP.create_chunks t max_tokens)
         <= length (CorrecaoKDP.first_pass t max_tokens)).
Proof.
  split; [apply create_chunks_first_pass|].
  unfold CorrecaoKDP.create_chunks.
  apply KDPRegroup.kdp_merge_pass_join, nonblank_nonempty,
    KDPRegroup.kdp_first_pass_nonblank.
Qed.

(** X7.  When no paragraph is larger than the bound, [create_chunks] of
    [processor.py] only regroups paragraphs: joined by blank lines, its
    chunks are the stripped, non-empty paragraphs of the text joined by
    blank lines. *)
Theorem create_chunks_keeps_paragraphs (count_tokens : text -> Z) (t : text)
    (max_tokens : Z) :
  Forall (fun p => (count_tokens p <= max_tokens)%Z) (paragraphs t) ->
  join [nl; nl] (Processor.create_chunks count_tokens t max_tokens)
  = join [nl; nl] (paragraphs t).
Proof.
  intros Hfit. rewrite (proj1 (create_chunks_first_pass count_tokens t max_tokens)).
  unfold Processor.first_pass.
  rewrite ProcessorRegroup.first_pass_merge by exact Hfit.
  apply (ProcessorRegroup.merge_pass_join count_tokens max_tokens), filter_nonempty.
Qed.

Lemma create_chunks_keeps_paragraphs_witness :
  join [nl; nl] (Processor.create_chunks Processor.count_tokens_fallback
                   (str "  Um dois.  " ++ [nl; nl; nl; nl] ++ str "Tres quatro cinco seis." ++ [nl; nl] ++ str " fim") 6)
  = str "Um dois." ++ [nl; nl] ++ str "Tres quatro cinco seis." ++ [nl; nl] ++ str "fim".
Proof.
  rewrite (create_chunks_keeps_paragraphs Processor.count_tokens_fallback _ 6).
  - reflexivity.
  - apply (bool_decide_unpack _). vm_compute. exact I.
Defined.

(** ** [create_chunks] of [correcaoKDP.py] on a text of small paragraphs *)

Module KDPLossless.
Import CorrecaoKDP.

(** A paragraph that is neither blank nor too large is handled like a
    chunk in the merge pass. *)
Lemma kdp_paragraph_step_merge max st p :
  nonempty (strip p) = true -> (count_tokens_approx p <= max)%Z ->
  paragraph_step max st p = merge_step max st p.
Proof.
  intros Hne Hle. unfold paragraph_step, merge_step. rewrite Hne. simpl.
  destruct (_ <=? _)%Z; [done|].
  destruct (_ >? _)%Z eqn:E; [apply Z.gtb_lt in E; lia|done].
Qed.

Lemma kdp_first_pass_merge max : forall l st,
  Forall (fun p => nonempty (strip p) = true /\ (count_tokens_approx p <= max)%Z) l ->
  foldl (paragraph_step max) st l = foldl (merge_step max) st l.
Proof.
  induction l as [|p l IH]; intros st Hl; [done|].
  inversion Hl as [|? ? [Hne Hle] Hl']; subst. simpl.
  rewrite kdp_paragraph_step_merge by done. by apply IH.
Qed.

Lemma kdp_small_paragraphs t max :
  Forall (fun p => nonempty (strip p) = true /\ (count_tokens_approx p <= max)%Z)
         (split [nl; nl] t) ->
  join [nl; nl] (create_chunks t max) = t.
Proof.
  intros Hl. unfold create_chunks.
  rewrite (proj1 (KDPRegroup.kdp_merge_pass_join max (first_pass t max)
                    (nonblank_nonempty _ (KDPRegroup.kdp_first_pass_nonblank t max)))).
  unfold first_pass. rewrite kdp_first_pass_merge by done.
  fold (merge_pass max (split [nl; nl] t)).
  assert (Hne : Forall (fun x : text => x <> []) (split [nl; nl] t)).
  { eapply Forall_impl; [exact Hl|]. intros p [Hne _] ->. done. }
  rewrite (proj1 (KDPRegroup.kdp_merge_pass_join max (split [nl; nl] t) Hne)).
  by apply join_split.
Qed.
End KDPLossless.

(** X8.  [create_chunks] of [correcaoKDP.py] loses nothing of a text whose
    paragraphs are neither blank nor larger than the bound: the chunks
    joined by blank lines are the text, character for character. *)
Theorem kdp_chunks_rejoin (t : text) (max_tokens : Z) :
  Forall (fun p => nonempty (strip p) = true
                   /\ (CorrecaoKDP.count_tokens_approx p <= max_tokens)%Z)
         (split [nl; nl] t) ->
  join [nl; nl] (CorrecaoKDP.create_chunks t max_tokens) = t.
Proof. apply KDPLossless.kdp_small_paragraphs. Qed.

Lemma kdp_chunks_rejoin_witness :
  join [nl; nl] (CorrecaoKDP.create_chunks
                   (str " Um dois. " ++ [nl; nl] ++ str "Tres quatro." ++ [nl; nl] ++ str "Fim") 5)
  = str " Um dois. " ++ [nl; nl] ++ str "Tres quatro." ++ [nl; nl] ++ str "Fim".
Proof.
  apply kdp_chunks_rejoin.
  apply (bool_decide_unpack _). vm_compute. exact I.
Defined.

(** ** The cache across a stage run *)

Section cache_runs.
Variable _hash : text -> string.

Lemma cache_get_put_cases c w st t :
  cache_get _hash st (apply_put _hash c w) t
  = if decide (put_key _hash w = (st, _hash t)) then Some (put_value w)
    else cache_get _hash st c t.
Proof.
  destruct (decide (put_key _hash w = (st, _hash t))) as [E|E];
    destruct w as [o r m|o r m], st; simpl in E |- *;
    unfold get_correction, get_footnotes, set_correction, set_footnotes; simpl;
    try discriminate E; try done.
  - injection E as E. by rewrite <- E, lookup_insert_eq.
  - injection E as E. by rewrite <- E, lookup_insert_eq.
  - rewrite lookup_insert_ne; [done|congruence].
  - rewrite lookup_insert_ne; [done|congruence].
Qed.

(** What a table holds after a sequence of writes was there before or is
    the value of one of the writes. *)
Lemma cache_get_foldl_put ws : forall c st t v,
  cache_get _hash st (foldl (apply_put _hash) c ws) t = Some v ->
  cache_get _hash st c t = Some v
  \/ exists w, w ∈ ws /\ put_key _hash w = (st, _hash t) /\ put_value w = v.
Proof.
  induction ws as [|w ws IH]; intros c st t v H; simpl in H; [by left|].
  apply IH in H as [H|(w' & Hin & Hk & Hv)].
  - rewrite cache_get_put_cases in H. destruct (decide _) as [E|E]; [|by left].
    right. exists w. split; [set_solver|]. split; [done|congruence].
  - right. exists w'. split; [set_solver|done].
Qed.

(** Writes of non-empty values keep a usable entry usable, and make the
    entry of every text they are for usable. *)
Lemma truthy_foldl_put ws : forall c st t,
  Forall (fun w => nonempty (put_value w) = true) ws ->
  is_Some (Processor.truthy (cache_get _hash st c t))
  \/ (exists w, w ∈ ws /\ put_key _hash w = (st, _hash t)) ->
  is_Some (Processor.truthy (cache_get _hash st (foldl (apply_put _hash) c ws) t)).
Proof.
  induction ws as [|w ws IH]; intros c st t Hne H; simpl.
  - destruct H as [H|(w & Hin & _)]; [done|set_solver].
  - inversion Hne as [|? ? Hw Hws]; subst. apply IH; [done|].
    rewrite cache_get_put_cases.
    destruct (decide (put_key _hash w = (st, _hash t))) as [E|E].
    + left. simpl. rewrite Hw. by eexists.
    + destruct H as [H|(w' & Hin & Hk)]; [by left|].
      right. exists w'. split; [|done].
      apply elem_of_cons in Hin as [->|Hin]; [done|done].
Qed.

(** Writes to one table leave the other one alone. *)
Lemma foldl_put_other ws mode : forall c,
  Forall (fun w => fst (put_key _hash w) = mode) ws ->
  match mode with
  | Correction => footnotes (foldl (apply_put _hash) c ws) = footnotes c
  | Footnotes => corrections (foldl (apply_put _hash) c ws) = corrections c
  end.
Proof.
  induction ws as [|w ws IH]; intros c H; simpl; [by destruct mode|].
  inversion H as [|? ? Hw Hws]; subst.
  specialize (IH (apply_put _hash c w) Hws).
  destruct w; simpl in *; done.
Qed.
End cache_runs.

Module StageCache.
Import Processor.

Section stage_cache.
Variable _hash : text -> string.
Variable client : nat -> text -> option text.
Variable fault : nat -> bool.
Variable model_name : text.
Variable get_correction_prompt : text -> text -> bool -> text.
Variable get_footnote_prompt : text -> text -> text.
Variable completion : list worker_outcome -> list worker_outcome.
Variable batch_size : nat.
Variable mode : stage_mode.
Variable author : text.
Variable all : list text.

Hypothesis completion_perm : forall l, completion l ≡ₚ l.

Local Abbreviation W :=
  (worker _hash client fault model_name get_correction_prompt get_footnote_prompt
          mode author).
Local Abbreviation batches :=
  (run_batches _hash client fault model_name get_correction_prompt get_footnote_prompt
               completion batch_size mode author all).
Local Abbreviation batch :=
  (run_batch _hash client fault model_name get_correction_prompt get_footnote_prompt
             completion batch_size mode author all).
Local Abbreviation prompt := (prompt_of get_correction_prompt get_footnote_prompt mode author).

(** A worker writes only a fresh, non-empty answer of the client, for its
    own chunk, after a cache miss. *)
Lemma worker_write c idx chunk w :
  wo_write (W c idx chunk) = Some w ->
  fault idx = false
  /\ truthy (cache_get _hash mode c chunk) = None
  /\ exists result, truthy (client idx (prompt idx chunk)) = Some result
                    /\ w = put_of mode chunk result model_name.
Proof.
  unfold worker, process_correction, process_footnotes, prompt_of, cache_get, put_of.
  destruct mode; destruct (fault idx); simpl; [done| |done|].
  all: destruct (truthy (_ _ c chunk)); simpl; [done|].
  all: destruct (truthy (client _ _)) as [r|]; simpl; [|done].
  all: intros [= <-]; eauto.
Qed.

(** A worker that finds a usable entry returns it and writes nothing. *)
Lemma worker_cached c idx chunk v :
  truthy (cache_get _hash mode c chunk) = Some v ->
  W c idx chunk = WorkerOutcome (if fault idx then Failed else Returned idx v) None.
Proof.
  unfold worker, process_correction, process_footnotes, cache_get.
  destruct mode; destruct (fault idx); simpl; try done.
  all: by intros ->.
Qed.

Lemma truthy_nonempty o v : truthy o = Some v -> o = Some v /\ nonempty v = true.
Proof.
  destruct o as [t|]; simpl; [|done]. destruct (nonempty t) eqn:E; [|done].
  by intros [= <-].
Qed.

(** The writes of a batch, as the cache receives them. *)
Lemma batch_writes i c w :
  w ∈ omap wo_write
        (completion (imap (fun j chunk => W c (i + j) chunk) (take batch_size (drop i all))))
  <-> exists k chunk, i <= k < i + batch_size /\ all !! k = Some chunk
                      /\ wo_write (W c k chunk) = Some w.
Proof.
  rewrite list_elem_of_omap. setoid_rewrite (completion_perm _).
  split.
  - intros (o & Ho & Hw). apply elem_of_lookup_imap in Ho as (j & chunk & -> & Hj).
    rewrite lookup_take_Some, lookup_drop in Hj. destruct Hj as [Hj Hlt].
    exists (i + j), chunk. split; [lia|done].
  - intros (k & chunk & Hk & Hc & Hw). exists (W c k chunk). split; [|done].
    apply elem_of_lookup_imap. exists (k - i), chunk.
    replace (i + (k - i)) with k by lia. split; [done|].
    rewrite lookup_take_Some, lookup_drop. replace (i + (k - i)) with k by lia.
    split; [done|lia].
Qed.

Lemma batch_cache i st :
  cache (batch i st)
  = foldl (apply_put _hash) (cache st)
      (omap wo_write
         (completion (imap (fun j chunk => W (cache st) (i + j) chunk)
                           (take batch_size (drop i all))))).
Proof. reflexivity. Qed.

(** What the cache holds after some batches was there before, or is a
    non-empty answer of the client for a chunk with the same digest. *)
Lemma run_batches_stored fuel : forall i st stage t v,
  cache_get _hash stage (cache (batches fuel i st)) t = Some v ->
  cache_get _hash stage (cache st) t = Some v
  \/ (stage = mode /\ nonempty v = true
      /\ exists k chunk, all !! k = Some chunk /\ _hash chunk = _hash t
                         /\ client k (prompt k chunk) = Some v).
Proof.
  induction fuel as [|fuel IH]; intros i st stage t v H; simpl in H; [by left|].
  destruct (i <? length all); [|by left].
  apply IH in H as [H|H]; [|by right].
  rewrite batch_cache in H.
  apply cache_get_foldl_put in H as [H|(w & Hin & Hk & Hv)]; [by left|].
  right. apply batch_writes in Hin as (k & chunk & _ & Hc & Hw).
  apply worker_write in Hw as (_ & _ & result & Hr & ->).
  apply truthy_nonempty in Hr as [Hr Hne].
  destruct mode; simpl in Hk, Hv; injection Hk as <- Hh; subst v.
  all: split; [done|]; split; [done|]; eauto.
Qed.

(** A stage writes to its own table only. *)
Lemma run_batches_other fuel : forall i st,
  match mode with
  | Correction => footnotes (cache (batches fuel i st)) = footnotes (cache st)
  | Footnotes => corrections (cache (batches fuel i st)) = corrections (cache st)
  end.
Proof.
  induction fuel as [|fuel IH]; intros i st; simpl; [by destruct mode|].
  destruct (i <? length all); [|by destruct mode].
  specialize (IH (i + batch_size) (batch i st)).
  assert (Hb : match mode with
               | Correction => footnotes (cache (batch i st)) = footnotes (cache st)
               | Footnotes => corrections (cache (batch i st)) = corrections (cache st)
               end).
  { rewrite batch_cache. apply foldl_put_other.
    apply Forall_forall. intros w Hin.
    apply batch_writes in Hin as (k & chunk & _ & Hc & Hw).
    apply worker_write in Hw as (_ & _ & result & Hr & ->).
    by destruct mode. }
  destruct mode; congruence.
Qed.

(** Usable entries stay usable. *)
Lemma run_batch_keeps i st stage t :
  is_Some (truthy (cache_get _hash stage (cache st) t)) ->
  is_Some (truthy (cache_get _hash stage (cache (batch i st)) t)).
Proof.
  intros H. rewrite batch_cache. apply truthy_foldl_put; [|by left].
  apply Forall_forall. intros w Hin.
  apply batch_writes in Hin as (k & chunk & _ & Hc & Hw).
  apply worker_write in Hw as (_ & _ & result & Hr & ->).
  apply truthy_nonempty in Hr as [_ Hne]. by destruct mode.
Qed.

Lemma run_batches_keeps fuel : forall i st stage t,
  is_Some (truthy (cache_get _hash stage (cache st) t)) ->
  is_Some (truthy (cache_get _hash stage (cache (batches fuel i st)) t)).
Proof.
  induction fuel as [|fuel IH]; intros i st stage t H; simpl; [done|].
  destruct (i <? length all); [|done].
  by apply IH, run_batch_keeps.
Qed.

(** After a batch whose workers do not raise and whose client answers,
    every chunk of the batch has a usable entry. *)
Lemma run_batch_fills i st k chunk :
  i <= k < i + batch_size -> all !! k = Some chunk ->
  fault k = false -> is_Some (truthy (client k (prompt k chunk))) ->
  is_Some (truthy (cache_get _hash mode (cache (batch i st)) chunk)).
Proof.
  intros Hk Hc Hf [r Hr].
  destruct (truthy (cache_get _hash mode (cache st) chunk)) as [v|] eqn:E.
  { apply run_batch_keeps. rewrite E. by eexists. }
  rewrite batch_cache. apply truthy_foldl_put.
  - apply Forall_forall. intros w Hin.
    apply batch_writes in Hin as (k' & chunk' & _ & Hc' & Hw).
    apply worker_write in Hw as (_ & _ & result & Hr' & ->).
    apply truthy_nonempty in Hr' as [_ Hne]. by destruct mode.
  - right. exists (put_of mode chunk r model_name). split; [|by destruct mode].
    apply batch_writes. exists k, chunk. split; [done|]. split; [done|].
    revert E Hr. unfold worker, process_correction, process_footnotes, prompt_of,
      cache_get, put_of.
    destruct mode; rewrite Hf; simpl; intros -> ->; done.
Qed.

(** With every chunk usable in the cache, a batch writes nothing. *)
Lemma run_batch_idle i st :
  (forall chunk, chunk ∈ all -> is_Some (truthy (cache_get _hash mode (cache st) chunk))) ->
  cache (batch i st) = cache st.
Proof.
  intros Hall. rewrite batch_cache.
  match goal with |- foldl _ _ ?ws = _ => assert (Hws : ws = []) end.
  { apply elem_of_nil_inv. intros w Hin.
    apply batch_writes in Hin as (k & chunk & _ & Hc & Hw).
    apply worker_write in Hw as (_ & Hmiss & _).
    destruct (Hall chunk) as [v Hv]; [by eapply list_elem_of_lookup_2|].
    congruence. }
  by rewrite Hws.
Qed.

Lemma run_batches_idle fuel : forall i st,
  (forall chunk, chunk ∈ all -> is_Some (truthy (cache_get _hash mode (cache st) chunk))) ->
  cache (batches fuel i st) = cache st.
Proof.
  induction fuel as [|fuel IH]; intros i st Hall; simpl; [done|].
  destruct (i <? length all); [|done].
  rewrite IH; [by apply run_batch_idle|].
  intros chunk Hin. rewrite run_batch_idle by done. by apply Hall.
Qed.

Variable c0 : CorrectionCache.
Local Abbreviation init := (StageState (replicate (length all) None) c0).

(** After [f] batches whose workers do not raise and whose client answers,
    the chunks below [f * batch_size] have usable entries. *)
Lemma run_batches_fills f :
  0 < batch_size ->
  (forall k, k < length all -> fault k = false) ->
  (forall k chunk, all !! k = Some chunk -> is_Some (truthy (client k (prompt k chunk)))) ->
  forall k chunk, all !! k = Some chunk -> k < f * batch_size ->
    is_Some (truthy (cache_get _hash mode (cache (batches f 0 init)) chunk)).
Proof.
  intros Hbs Hfault Hclient. induction f as [|f IH]; intros k chunk Hc Hk; [lia|].
  replace (S f) with (f + 1) by lia.
  rewrite (Stage.run_batches_split _hash client fault model_name get_correction_prompt
             get_footnote_prompt completion batch_size mode author all).
  rewrite Stage.run_batches_one, Nat.add_0_l.
  pose proof (lookup_lt_Some _ _ _ Hc) as Hlt.
  destruct (decide (k < f * batch_size)) as [Hold|Hnew].
  - destruct (f * batch_size <? length all); [|by apply (IH k)].
    by apply run_batch_keeps, (IH k).
  - rewrite (proj2 (Nat.ltb_lt _ _)) by lia.
    apply (run_batch_fills _ _ k chunk); [lia|done|by apply Hfault|by apply Hclient].
Qed.
End stage_cache.
End StageCache.

(** X9.  A stage run writes to the table of its own stage only: the correction
    stage leaves the footnotes table as it found it, the footnotes stage
    the corrections table. *)
Theorem stage_leaves_other_table
    (_hash : text -> string) (client : nat -> text -> option text) (fault : nat -> bool)
    (model_name : text) (cprompt : text -> text -> bool -> text)
    (fprompt : text -> text -> text)
    (completion : list Processor.worker_outcome -> list Processor.worker_outcome)
    (batch_size : nat) (all : list text) (author : text) (mode : stage_mode)
    (c0 : CorrectionCache) (rs : list text) (c' : CorrectionCache) :
  (forall l, completion l ≡ₚ l) ->
  Processor.process_chunks_parallel _hash client fault model_name cprompt fprompt
    completion batch_size all author mode c0 = Some (rs, c') ->
  match mode with
  | Correction => footnotes c' = footnotes c0
  | Footnotes => corrections c' = corrections c0
  end.
Proof.
  intros Hperm. unfold Processor.process_chunks_parallel.
  destruct batch_size as [|b] eqn:Eb; [done|]. rewrite <- Eb. intros [= _ <-].
  apply (StageCache.run_batches_other _hash client fault model_name cprompt fprompt
           completion batch_size mode author all Hperm).
Qed.

Lemma stage_leaves_other_table_witness :
  let h := string_of_list_ascii in
  let c0 := set_footnotes h init_db (str "a") (str "a[NOTA:x|y]") (str "m") in
  exists rs c',
    Processor.process_chunks_parallel h (fun _ prompt => Some (prompt ++ str "!"))
      (fun _ => false) (str "m") (fun chunk _ _ => chunk) (fun chunk _ => chunk)
      (@rev _) 2 [str "a"; str "b"; str "c"] (str "x") Correction c0 = Some (rs, c')
    /\ footnotes c' = footnotes c0.
Proof.
  intros h c0.
  destruct (Processor.process_chunks_parallel _ _ _ _ _ _ _ _ _ _ _ _)
    as [[rs c']|] eqn:E; [|discriminate E].
  exists rs, c'. split; [reflexivity|].
  apply (stage_leaves_other_table h (fun _ prompt => Some (prompt ++ str "!"))
           (fun _ => false) (str "m") (fun chunk _ _ => chunk) (fun chunk _ => chunk)
           (@rev _) 2 [str "a"; str "b"; str "c"] (str "x") Correction c0 rs c').
  - intros l. symmetry. apply Permutation_rev.
  - exact E.
Defined.

(** X10.  What a table holds after a stage run was there before the run, or is
    a non-empty answer the client gave in this run for a chunk with the
    same digest: a failed transform, its fallback text and the failure
    marker are never stored, and nothing is removed by a failure. *)
Theorem stage_stores_only_answers
    (_hash : text -> string) (client : nat -> text -> option text) (fault : nat -> bool)
    (model_name : text) (cprompt : text -> text -> bool -> text)
    (fprompt : text -> text -> text)
    (completion : list Processor.worker_outcome -> list Processor.worker_outcome)
    (batch_size : nat) (all : list text) (author : text) (mode : stage_mode)
    (c0 : CorrectionCache) (rs : list text) (c' : CorrectionCache) :
  (forall l, completion l ≡ₚ l) ->
  Processor.process_chunks_parallel _hash client fault model_name cprompt fprompt
    completion batch_size all author mode c0 = Some (rs, c') ->
  (forall stage t v,
     cache_get _hash stage c' t = Some v ->
     cache_get _hash stage c0 t = Some v
     \/ (stage = mode /\ nonempty v = true
         /\ exists k chunk,
              all !! k = Some chunk /\ _hash chunk = _hash t
              /\ client k (Processor.prompt_of cprompt fprompt mode author k chunk) = Some v))
  /\ (forall stage t,
        is_Some (Processor.truthy (cache_get _hash stage c0 t)) ->
        is_Some (Processor.truthy (cache_get _hash stage c' t))).
Proof.
  intros Hperm. unfold Processor.process_chunks_parallel.
  destruct batch_size as [|b] eqn:Eb; [done|]. rewrite <- Eb. intros [= _ <-].
  split.
  - intros stage t v H.
    apply (StageCache.run_batches_stored _hash client fault model_name cprompt fprompt
             completion batch_size mode author all Hperm) in H. exact H.
  - intros stage t H.
    by apply (StageCache.run_batches_keeps _hash client fault model_name cprompt fprompt
                completion batch_size mode author all Hperm).
Qed.

Lemma stage_stores_only_answers_witness :
  let h := string_of_list_ascii in
  let client := fun (idx : nat) (prompt : text) =>
                  if (idx =? 1)%nat then None else Some (prompt ++ str "!") in
  exists rs c',
    Processor.process_chunks_parallel h client (fun _ => false) (str "m")
      (fun chunk _ _ => chunk) (fun chunk _ => chunk) (@rev _) 2
      [str "a"; str "b"; str "c"] (str "x") Correction init_db = Some (rs, c')
    /\ get_correction h c' (str "a") = Some (str "a!")
    /\ get_correction h c' (str "b") = None
    /\ forall t v, get_correction h c' t = Some v -> nonempty v = true.
Proof.
  intros h client.
  destruct (Processor.process_chunks_parallel _ _ _ _ _ _ _ _ _ _ _ _)
    as [[rs c']|] eqn:E; [|discriminate E].
  exists rs, c'. split; [reflexivity|].
  split; [vm_compute in E; by injection E as _ <-|].
  split; [vm_compute in E; by injection E as _ <-|].
  intros t v H.
  destruct (stage_stores_only_answers h client (fun _ => false) (str "m")
              (fun chunk _ _ => chunk) (fun chunk _ => chunk) (@rev _) 2
              [str "a"; str "b"; str "c"] (str "x") Correction init_db rs c'
              (fun l => Permutation_sym (Permutation_rev l)) E) as [Hs _].
  destruct (Hs Correction t v H) as [H0|(_ & Hne & _)]; [discriminate H0|exact Hne].
Defined.

(** X11.  A finished stage is not run again.  After a run in which no worker
    raised and the client answered for every chunk, every chunk has a
    usable cache entry; a second run over the same chunks, with any client,
    batch size and completion order, writes nothing and returns for every
    chunk its cached text (the chunk itself where the worker raises). *)
Theorem finished_stage_rerun
    (_hash : text -> string) (client client' : nat -> text -> option text)
    (fault fault' : nat -> bool) (model_name model_name' : text)
    (cprompt cprompt' : text -> text -> bool -> text)
    (fprompt fprompt' : text -> text -> text)
    (completion completion' : list Processor.worker_outcome -> list Processor.worker_outcome)
    (batch_size batch_size' : nat) (all : list text) (author author' : text)
    (mode : stage_mode) (c0 : CorrectionCache) :
  batch_size <> 0 -> batch_size' <> 0 ->
  (forall l, completion l ≡ₚ l) -> (forall l, completion' l ≡ₚ l) ->
  (forall k, k < length all -> fault k = false) ->
  (forall k chunk, all !! k = Some chunk ->
     is_Some (Processor.truthy
                (client k (Processor.prompt_of cprompt fprompt mode author k chunk)))) ->
  exists rs c1,
    Processor.process_chunks_parallel _hash client fault model_name cprompt fprompt
      completion batch_size all author mode c0 = Some (rs, c1)
    /\ exists rs',
         Processor.process_chunks_parallel _hash client' fault' model_name' cprompt'
           fprompt' completion' batch_size' all author' mode c1 = Some (rs', c1)
         /\ forall k chunk, all !! k = Some chunk ->
              is_Some (Processor.truthy (cache_get _hash mode c1 chunk))
              /\ rs' !! k = if fault' k then Some chunk
                            else cache_get _hash mode c1 chunk.
Proof.
  intros Hbs Hbs' Hperm Hperm' Hfault Hclient.
  destruct (Processor.process_chunks_parallel _hash client fault model_name cprompt
              fprompt completion batch_size all author mode c0) as [[rs c1]|] eqn:E1.
  2:{ unfold Processor.process_chunks_parallel in E1. by destruct batch_size. }
  exists rs, c1. split; [done|].
  assert (Hc1 : forall chunk, chunk ∈ all ->
                  is_Some (Processor.truthy (cache_get _hash mode c1 chunk))).
  { intros chunk Hin. apply list_elem_of_lookup in Hin as [k Hk].
    unfold Processor.process_chunks_parallel in E1.
    destruct batch_size as [|b] eqn:Eb; [done|]. rewrite <- Eb in *.
    injection E1 as _ <-.
    apply (StageCache.run_batches_fills _hash client fault model_name cprompt fprompt
             completion batch_size mode author all Hperm c0 (length all)
             ltac:(lia) Hfault Hclient k chunk Hk).
    apply lookup_lt_Some in Hk. nia. }
  destruct (Processor.process_chunks_parallel _hash client' fault' model_name' cprompt'
              fprompt' completion' batch_size' all author' mode c1)
    as [[rs' c2]|] eqn:E2.
  2:{ unfold Processor.process_chunks_parallel in E2. by destruct batch_size'. }
  assert (c2 = c1) as ->.
  { unfold Processor.process_chunks_parallel in E2.
    destruct batch_size' as [|b] eqn:Eb; [done|]. rewrite <- Eb in *.
    injection E2 as _ <-.
    by apply (StageCache.run_batches_idle _hash client' fault' model_name' cprompt'
                fprompt' completion' batch_size' mode author' all Hperm'). }
  exists rs'. split; [done|]. intros k chunk Hk.
  assert (Hin : chunk ∈ all) by (by eapply list_elem_of_lookup_2).
  split; [by apply Hc1|].
  rewrite (Stage.process_chunks_parallel_lookup _ _ _ _ _ _ _ _ _ _ _ _ _ _ _ _ E2 Hk).
  unfold Processor.cache_before.
  rewrite (StageCache.run_batches_idle _hash client' fault' model_name' cprompt'
             fprompt' completion' batch_size' mode author' all Hperm') by done.
  simpl. unfold Processor.stage_output. destruct (fault' k); [done|].
  destruct (Hc1 chunk Hin) as [v Hv]. rewrite Hv.
  apply StageCache.truthy_nonempty in Hv as [-> _]. done.
Qed.

Lemma finished_stage_rerun_witness :
  let h := string_of_list_ascii in
  let all := [str "a"; str "b"; str "c"] in
  exists rs c1,
    Processor.process_chunks_parallel h (fun _ prompt => Some (prompt ++ str "!"))
      (fun _ => false) (str "m") (fun chunk _ _ => chunk) (fun chunk _ => chunk)
      (@rev _) 2 all (str "x") Correction init_db = Some (rs, c1)
    /\ exists rs',
         Processor.process_chunks_parallel h (fun _ _ => None)
           (fun k => (k =? 2)%nat) (str "n") (fun chunk _ _ => chunk) (fun chunk _ => chunk)
           (fun l => l) 1 all (str "y") Correction c1 = Some (rs', c1)
         /\ forall k chunk, all !! k = Some chunk ->
              is_Some (Processor.truthy (cache_get h Correction c1 chunk))
              /\ rs' !! k = if (k =? 2)%nat then Some chunk
                            else cache_get h Correction c1 chunk.
Proof.
  intros h all.
  apply (finished_stage_rerun h (fun _ prompt => Some (prompt ++ str "!")) (fun _ _ => None)
           (fun _ => false) (fun k => (k =? 2)%nat) (str "m") (str "n")
           (fun chunk _ _ => chunk) (fun chunk _ _ => chunk)
           (fun chunk _ => chunk) (fun chunk _ => chunk)
           (@rev _) (fun l => l) 2 1 all (str "x") (str "y") Correction init_db).
  - discriminate.
  - discriminate.
  - intros l. symmetry. apply Permutation_rev.
  - reflexivity.
  - reflexivity.
  - intros k chunk _. simpl. destruct chunk; simpl; by eexists.
Defined.

(** ** The document *)

Lemma split_go_none sep : forall s acc,
  find sep s = None -> split_go sep 0 acc s = [rev acc ++ s].
Proof.
  induction s as [|c r IH]; intros acc H.
  - simpl. by rewrite app_nil_r.
  - rewrite find_unfold in H. cbn [split_go].
    destruct (startswith sep (c :: r)); [done|].
    rewrite IH by (by destruct (find sep r)).
    simpl. by rewrite <- app_assoc.
Qed.

Lemma find_some sep : forall s n,
  find sep s = Some n -> exists l r, s = l ++ sep ++ r.
Proof.
  induction s as [|c s IH]; intros n H; rewrite find_unfold in H.
  - destruct (startswith sep []) eqn:E; [|done].
    apply startswith_app in E. by exists [], (drop (length sep) []).
  - destruct (startswith sep (c :: s)) eqn:E.
    + apply startswith_app in E. by exists [], (drop (length sep) (c :: s)).
    + destruct (find sep s) as [m|] eqn:F; [|done].
      destruct (IH m eq_refl) as (l & r & ->). by exists (c :: l), r.
Qed.

Lemma find_none_iff sep s :
  find sep s = None <-> ~ exists l r, s = l ++ sep ++ r.
Proof.
  split.
  - intros H (l & r & ->).
    destruct (find_occurrence sep r l) as (l' & r' & Heq & Hf). congruence.
  - intros H. destruct (find sep s) as [n|] eqn:F; [|done].
    exfalso. eauto using find_some.
Qed.

Lemma strip_fixed x :
  (forall c r, x = c :: r -> isspace c = false) -> ends_clean x -> strip x = x.
Proof.
  intros Hhead Hend. unfold strip.
  assert (lstrip x = x) as ->.
  { destruct x as [|c r]; [done|]. simpl. by rewrite (Hhead c r eq_refl). }
  unfold rstrip. destruct x as [|c r _] using rev_ind; [done|].
  rewrite rev_app_distr. simpl. rewrite (Hend r c eq_refl).
  simpl. by rewrite rev_involutive.
Qed.

Lemma strip_idemp s : strip (strip s) = strip s.
Proof.
  apply strip_fixed; [|apply strip_ends_clean].
  intros c r H. by apply strip_head in H.
Qed.

Module DocxBody.
Import Processor.

Section docx_body.
Variable chapter_regex_match : text -> bool.

Local Abbreviation part := (part_elements chapter_regex_match).
Local Abbreviation body := (body_elements chapter_regex_match).

Lemma part_para_texts p : para_texts (part p) = paragraphs (strip p).
Proof.
  unfold part_elements, paragraphs. generalize (split [nl; nl] (strip p)) as l.
  induction l as [|x l IH]; [done|].
  cbn [flat_map fmap list_fmap List.filter]. unfold para_texts in *.
  rewrite omap_app, IH. by destruct (nonempty (strip x)).
Qed.

Lemma part_page_breaks p : page_breaks (part p) = 0.
Proof.
  unfold part_elements. generalize (split [nl; nl] (strip p)) as l.
  induction l as [|x l IH]; [done|].
  cbn [flat_map]. unfold page_breaks in *.
  rewrite List.filter_app, length_app, IH.
  by destruct (nonempty (strip x)).
Qed.

Lemma unspace_paragraphs t : unspace (concat (paragraphs t)) = unspace t.
Proof.
  unfold paragraphs. rewrite <- (unspace_split [nl; nl] t) by done.
  generalize (split [nl; nl] t) as l.
  induction l as [|x l IH]; [done|].
  cbn [fmap list_fmap List.filter concat].
  destruct (nonempty (strip x)) eqn:E; cbn [concat].
  - by rewrite !unspace_app, IH, unspace_strip.
  - by rewrite unspace_app, IH, (unspace_blank x E).
Qed.

Lemma paragraphs_stripped t :
  Forall (fun p => p <> [] /\ strip p = p) (paragraphs t).
Proof.
  unfold paragraphs. generalize (split [nl; nl] t) as l.
  induction l as [|x l IH]; [constructor|].
  cbn [fmap list_fmap List.filter].
  destruct (nonempty (strip x)) eqn:E; [|done].
  constructor; [|done]. split; [by destruct (strip x)|apply strip_idemp].
Qed.

Lemma para_texts_app a b : para_texts (a ++ b) = para_texts a ++ para_texts b.
Proof. apply omap_app. Qed.

Lemma page_breaks_app a b : page_breaks (a ++ b) = page_breaks a + page_breaks b.
Proof. unfold page_breaks. by rewrite List.filter_app, length_app. Qed.

(** The parts behind the first one: each is preceded by a page break. *)
Lemma later_parts parts : forall k,
  let els := concat (imap (fun part_idx p =>
                             (if (0 <? S k + part_idx)%nat then [PageBreak] else [])
                             ++ part p) parts) in
  para_texts els = concat ((fun p => paragraphs (strip p)) <$> parts)
  /\ page_breaks els = length parts.
Proof.
  induction parts as [|p parts IH]; intros k; [done|].
  cbn zeta. rewrite imap_cons. cbn [concat fmap list_fmap length].
  destruct (IH (S k)) as [IH1 IH2]. cbn zeta in IH1, IH2.
  assert (Hext : imap ((fun part_idx p0 =>
                   (if (0 <? S k + part_idx)%nat then [PageBreak] else []) ++ part p0) ∘ S) parts
                 = imap (fun part_idx p0 =>
                   (if (0 <? S (S k) + part_idx)%nat then [PageBreak] else []) ++ part p0) parts).
  { apply imap_ext. intros i x _. simpl. by replace (k + S i) with (S (k + i)) by lia. }
  rewrite Hext. split.
  - rewrite !para_texts_app, IH1, part_para_texts. done.
  - rewrite !page_breaks_app, IH2, part_page_breaks. simpl. done.
Qed.

Lemma body_elements_spec t :
  para_texts (body t)
  = concat ((fun p => paragraphs (strip p)) <$> split PAGE_BREAK_MARKER t)
  /\ page_breaks (body t) = length (split PAGE_BREAK_MARKER t) - 1.
Proof.
  unfold body_elements.
  destruct (split PAGE_BREAK_MARKER t) as [|p parts] eqn:E;
    [by apply split_go_nonnil in E|].
  rewrite imap_cons. cbn [concat fmap list_fmap length].
  destruct (later_parts parts 0) as [H1 H2]. cbn zeta in H1, H2.
  split.
  - rewrite !para_texts_app, part_para_texts.
    change (para_texts []) with (@nil text). simpl app. f_equal. exact H1.
  - rewrite !page_breaks_app, part_page_breaks.
    change (page_breaks []) with 0. simpl. rewrite Nat.sub_0_r. exact H2.
Qed.

Lemma notes_para_texts notes : para_texts (notes_elements notes) = [].
Proof.
  destruct notes as [|n notes]; [done|].
  change (para_texts (NotePara <$> (n :: notes)) = []).
  generalize (n :: notes) as l.
  induction l as [|x l IH]; [done|exact IH].
Qed.

Lemma notes_page_breaks notes :
  page_breaks (notes_elements notes) = if nonempty_notes notes then 1 else 0.
Proof.
  destruct notes as [|n notes]; [done|].
  change (S (length (List.filter is_page_break (NotePara <$> (n :: notes)))) = 1).
  f_equal. generalize (n :: notes) as l.
  induction l as [|x l IH]; [done|exact IH].
Qed.

Lemma unspace_concat_paragraphs parts :
  unspace (concat (concat ((fun p => paragraphs (strip p)) <$> parts)))
  = unspace (concat parts).
Proof.
  induction parts as [|p parts IH]; [done|].
  cbn [fmap list_fmap concat]. rewrite concat_app, !unspace_app, IH.
  by rewrite unspace_paragraphs, unspace_strip.
Qed.
End docx_body.
End DocxBody.

Lemma generate_docx_texts chapter_regex_match t notes :
  unspace (concat (para_texts (Processor.generate_docx chapter_regex_match t notes)))
  = unspace (concat (split PAGE_BREAK_MARKER t)).
Proof.
  unfold Processor.generate_docx.
  rewrite DocxBody.para_texts_app, DocxBody.notes_para_texts, app_nil_r.
  rewrite (proj1 (DocxBody.body_elements_spec chapter_regex_match t)).
  apply DocxBody.unspace_concat_paragraphs.
Qed.

Lemma generate_docx_page_breaks chapter_regex_match t notes :
  page_breaks (Processor.generate_docx chapter_regex_match t notes)
  = length (split PAGE_BREAK_MARKER t) - 1 + (if nonempty_notes notes then 1 else 0).
Proof.
  unfold Processor.generate_docx.
  rewrite DocxBody.page_breaks_app, DocxBody.notes_page_breaks.
  by rewrite (proj2 (DocxBody.body_elements_spec chapter_regex_match t)).
Qed.

(** X12.  The body paragraphs of the document hold the text: without whitespace,
    the paragraphs in their order are the text with the sentinels taken
    out; no paragraph is empty or has whitespace at either end. *)
Theorem docx_keeps_text (chapter_regex_match : text -> bool) (t : text)
    (notes : list Processor.footnote) :
  let ps := para_texts (Processor.generate_docx chapter_regex_match t notes) in
  unspace (concat ps) = unspace (concat (split PAGE_BREAK_MARKER t))
  /\ Forall (fun p => p <> [] /\ strip p = p) ps.
Proof.
  cbn zeta. split; [apply generate_docx_texts|].
  unfold Processor.generate_docx.
  rewrite DocxBody.para_texts_app, DocxBody.notes_para_texts, app_nil_r.
  rewrite (proj1 (DocxBody.body_elements_spec chapter_regex_match t)).
  apply Forall_concat, Forall_fmap, Forall_forall. intros p _.
  apply DocxBody.paragraphs_stripped.
Qed.

(** X13.  The document has one page break for each occurrence of the sentinel
    that [split] finds, and one more before the notes if there are notes;
    without sentinel and without notes it has none. *)
Theorem docx_page_breaks (chapter_regex_match : text -> bool) (t : text)
    (notes : list Processor.footnote) :
  page_breaks (Processor.generate_docx chapter_regex_match t notes)
  = length (split PAGE_BREAK_MARKER t) - 1 + (if nonempty_notes notes then 1 else 0)
  /\ (Processor.PageBreak ∈ Processor.generate_docx chapter_regex_match t notes
      <-> (exists l r, t = l ++ PAGE_BREAK_MARKER ++ r) \/ notes <> []).
Proof.
  assert (Hcount : page_breaks (Processor.generate_docx chapter_regex_match t notes)
    = length (split PAGE_BREAK_MARKER t) - 1 + (if nonempty_notes notes then 1 else 0)).
  { apply generate_docx_page_breaks. }
  split; [exact Hcount|]. split.
  - intros Hin.
    destruct (find PAGE_BREAK_MARKER t) as [n|] eqn:F; [left; eauto using find_some|].
    right. intros ->. revert Hcount. unfold split.
    rewrite split_go_none by done. simpl.
    apply list_elem_of_In in Hin.
    assert (Hf : In Processor.PageBreak
                   (List.filter is_page_break
                      (Processor.generate_docx chapter_regex_match t [])))
      by (by apply List.filter_In).
    unfold page_breaks.
    destruct (List.filter is_page_break _); [by destruct Hf|done].
  - intros [(l & r & ->)|Hn].
    + unfold Processor.generate_docx. apply elem_of_app. left.
      apply Docx.body_elements_page_break.
    + unfold Processor.generate_docx. apply elem_of_app. right.
      destruct notes; [done|]. simpl. set_solver.
Qed.

Module DocxRuns.
Import Processor.

Lemma span_digits_spec : forall s d r,
  span_digits s = (d, r) -> s = d ++ r /\ Forall (fun c => isdigit c = true) d.
Proof.
  induction s as [|c s IH]; intros d r; simpl.
  - by intros [= <- <-].
  - destruct (isdigit c) eqn:E.
    + destruct (span_digits s) as [d' r'] eqn:Es. intros [= <- <-].
      destruct (IH d' r' eq_refl) as [-> Hd]. split; [done|by constructor].
    + by intros [= <- <-].
Qed.

Lemma note_match_spec s d rest :
  note_match s = Some (d, rest) ->
  s = str "[" ++ d ++ str "]" ++ rest /\ d <> []
  /\ Forall (fun c => isdigit c = true) d.
Proof.
  unfold note_match. destruct s as [|c r]; [done|].
  destruct (decide (c = "["%char)) as [->|]; [|done].
  destruct (span_digits r) as [d' r1] eqn:Es.
  destruct (nonempty d') eqn:Hd; [|done].
  destruct r1 as [|c1 r2]; [done|].
  destruct (decide (c1 = "]"%char)) as [->|]; [|done].
  intros [= <- <-]. apply span_digits_spec in Es as [-> Hdig].
  split; [done|]. split; [by destruct d'|done].
Qed.

Lemma note_match_shorter s d rest :
  note_match s = Some (d, rest) -> length rest < length s.
Proof.
  intros H. apply note_match_spec in H as (-> & _ & _).
  rewrite !length_app. simpl. lia.
Qed.

Lemma chain_weaken len lo lo' spans : lo' <= lo -> chain len lo spans -> chain len lo' spans.
Proof.
  intros Hle. destruct spans as [|[a b] r]; [done|].
  cbn [chain]. intros (H1 & H2 & H3 & H4). split; [lia|done].
Qed.

(** The spans of [finditer] follow one another inside the text, and each
    is the span of a reference. *)
Lemma finditer_go_spec p : forall s skip pos,
  p = take pos p ++ s -> pos + length s = length p -> skip <= length s ->
  chain (length p) (pos + skip) (finditer_go skip pos s)
  /\ Forall (fun m => is_reference (slice m.1 m.2 p)) (finditer_go skip pos s).
Proof.
  induction s as [|c r IH]; intros skip pos Hp Hlen Hskip; cbn [finditer_go]; [done|].
  assert (Hp' : p = take (S pos) p ++ r).
  { rewrite Hp at 1. rewrite (take_S_r p pos c).
    - by rewrite <- app_assoc.
    - rewrite Hp. rewrite lookup_app_r by (rewrite length_take; lia).
      rewrite length_take. replace (pos - pos `min` length p) with 0 by lia. done. }
  simpl in Hlen, Hskip.
  destruct skip as [|k].
  - destruct (note_match (c :: r)) as [[d rest]|] eqn:E.
    + pose proof (note_match_shorter _ _ _ E) as Hsh. simpl in Hsh.
      destruct (IH (length r - length rest) (S pos) Hp' ltac:(lia) ltac:(lia)) as [IH1 IH2].
      split.
      * cbn [chain length]. split; [lia|]. split; [lia|]. split; [lia|].
        replace (pos + (S (length r) - length rest))
          with (S pos + (length r - length rest)) by lia. done.
      * constructor; [|done]. cbn [fst snd length]. unfold slice.
        replace (pos + (S (length r) - length rest) - pos)
          with (S (length r) - length rest) by lia.
        assert (drop pos p = c :: r) as ->.
        { rewrite Hp at 1. rewrite drop_app_length'; [done|]. rewrite length_take. lia. }
        apply note_match_spec in E as (Heq & Hne & Hdig).
        exists d. split; [|done].
        assert (Hn : S (length r) - length rest = length (str "[" ++ d ++ str "]")).
        { change (S (length r)) with (length (c :: r)).
          rewrite Heq, !length_app. simpl. lia. }
        rewrite Hn, Heq.
        replace (str "[" ++ d ++ str "]" ++ rest)
          with ((str "[" ++ d ++ str "]") ++ rest) by (by rewrite <- !app_assoc).
        apply take_app_length.
    + destruct (IH 0 (S pos) Hp' ltac:(lia) ltac:(lia)) as [IH1 IH2].
      split; [|done]. eapply chain_weaken; [|exact IH1]. lia.
  - destruct (IH k (S pos) Hp' ltac:(lia) ltac:(lia)) as [IH1 IH2].
    split; [|done]. by replace (pos + S k) with (S pos + k) by lia.
Qed.

Lemma slice_app lo a b (p : text) :
  lo <= a -> a <= b -> slice lo a p ++ slice a b p = slice lo b p.
Proof.
  intros H1 H2. unfold slice.
  replace (drop a p) with (drop (a - lo) (drop lo p))
    by (rewrite drop_drop; f_equal; lia).
  rewrite take_take_drop. f_equal. lia.
Qed.

Lemma slice_nil a (p : text) : slice a a p = [].
Proof. unfold slice. by rewrite Nat.sub_diag. Qed.

Lemma slice_length lo hi (p : text) :
  lo <= hi -> hi <= length p -> length (slice lo hi p) = hi - lo.
Proof. intros H1 H2. unfold slice. rewrite length_take, length_drop. lia. Qed.

Section runs.
Variable p : text.
Variables is_chapter is_error : bool.

Local Abbreviation step := (run_step p is_chapter is_error).

(** The loop over the matches: the runs cover the text up to the end of
    the last match; none is empty; the runs of the matches are the
    references, all others have the style of the paragraph. *)
Lemma run_loop spans : forall runs lo,
  chain (length p) lo spans -> lo <= length p ->
  Forall (fun m => is_reference (slice m.1 m.2 p)) spans ->
  let st := foldl step (runs, lo) spans in
  lo <= st.2 <= length p
  /\ concat (run_text <$> st.1) = concat (run_text <$> runs) ++ slice lo st.2 p
  /\ (Forall (fun r => run_text r <> []) runs -> Forall (fun r => run_text r <> []) st.1)
  /\ (Forall (fun r => if decide (run_style r = NoteStyle) then is_reference (run_text r)
                       else run_style r = text_style is_chapter is_error) runs ->
      Forall (fun r => if decide (run_style r = NoteStyle) then is_reference (run_text r)
                       else run_style r = text_style is_chapter is_error) st.1).
Proof.
  induction spans as [|[a b] spans IH]; intros runs lo Hch Hlo Href; cbn zeta.
  - simpl. split; [lia|]. split; [|done].
    unfold slice. rewrite Nat.sub_diag. simpl. by rewrite app_nil_r.
  - simpl in Hch. destruct Hch as (Ha & Hab & Hb & Hch).
    inversion Href as [|? ? Hr Hrs]; subst. simpl in Hr.
    specialize (IH (runs
                    ++ (if (lo <? a)%nat
                        then [Run (slice lo a p) (text_style is_chapter is_error)] else [])
                    ++ [Run (slice a b p) NoteStyle]) b Hch Hb Hrs).
    cbn zeta in IH.
    change (foldl step (runs, lo) ((a, b) :: spans))
      with (foldl step (runs
                        ++ (if (lo <? a)%nat
                            then [Run (slice lo a p) (text_style is_chapter is_error)]
                            else [])
                        ++ [Run (slice a b p) NoteStyle], b) spans).
    set (st := foldl step _ spans) in *. clearbody st. destruct st as [runs' hi].
    cbn [fst snd] in *.
    destruct IH as (IH1 & IH2 & IH3 & IH4).
    split; [lia|]. split; [|split].
    + rewrite IH2. rewrite !fmap_app, !concat_app, <- !app_assoc. f_equal.
      rewrite <- (slice_app lo b hi p) by lia.
      rewrite <- (slice_app lo a b p) by lia. rewrite <- !app_assoc.
      destruct (lo <? a)%nat eqn:E; cbn [fmap list_fmap concat run_text];
        rewrite ?app_nil_r; [done|].
      apply Nat.ltb_ge in E. assert (a = lo) as -> by lia.
      by rewrite (slice_nil lo p).
    + intros Hne. apply IH3. apply Forall_app. split; [done|].
      apply Forall_app. split.
      * destruct (lo <? a)%nat eqn:E; [|done]. apply Nat.ltb_lt in E.
        constructor; [|done]. simpl. intros Hn.
        apply (f_equal length) in Hn. rewrite slice_length in Hn by lia. simpl in Hn. lia.
      * constructor; [|done]. simpl. intros Hn.
        apply (f_equal length) in Hn. rewrite slice_length in Hn by lia. simpl in Hn. lia.
    + intros Hst. apply IH4. apply Forall_app. split; [done|].
      apply Forall_app. split.
      * destruct (lo <? a)%nat; [|done]. constructor; [|done]. simpl.
        destruct (decide _) as [E|E]; [|done].
        by destruct is_chapter, is_error.
      * constructor; [|done]. simpl. exact Hr.
Qed.

Lemma paragraph_runs_spec :
  concat (run_text <$> paragraph_runs p is_chapter is_error) = p
  /\ Forall (fun r => run_text r <> []) (paragraph_runs p is_chapter is_error)
  /\ Forall (fun r => if decide (run_style r = NoteStyle) then is_reference (run_text r)
                      else run_style r = text_style is_chapter is_error)
            (paragraph_runs p is_chapter is_error).
Proof.
  destruct (finditer_go_spec p p 0 0 eq_refl eq_refl ltac:(lia)) as [Hch Href].
  destruct (run_loop (finditer p) [] 0 Hch ltac:(lia) Href) as (H1 & H2 & H3 & H4).
  unfold paragraph_runs.
  destruct (foldl step ([], 0) (finditer p)) as [runs hi] eqn:E. simpl in *.
  split; [|split].
  - rewrite fmap_app, concat_app, H2.
    destruct (hi <? length p)%nat eqn:Eh; simpl; rewrite ?app_nil_r.
    + unfold slice. rewrite Nat.sub_0_r. simpl. apply take_drop.
    + apply Nat.ltb_ge in Eh. unfold slice. rewrite Nat.sub_0_r. simpl.
      apply take_ge. lia.
  - apply Forall_app. split; [by apply H3|].
    destruct (hi <? length p)%nat eqn:Eh; [|done]. apply Nat.ltb_lt in Eh.
    constructor; [|done]. simpl. intros Hn.
    apply (f_equal length) in Hn. rewrite length_drop in Hn. simpl in Hn. lia.
  - apply Forall_app. split; [by apply H4|].
    destruct (hi <? length p)%nat; [|done]. constructor; [|done]. simpl.
    destruct (decide _) as [E'|E']; [|done]. by destruct is_chapter, is_error.
Qed.
End runs.
End DocxRuns.

(** X14.  The runs of a paragraph, put together, are the text of the paragraph;
    no run is empty; the superscript runs are references, digits in square
    brackets, and every other run carries the style of the paragraph. *)
Theorem paragraph_runs_cover (para_text : text) (is_chapter is_error : bool) :
  let runs := Processor.paragraph_runs para_text is_chapter is_error in
  concat (Processor.run_text <$> runs) = para_text
  /\ Forall (fun r => Processor.run_text r <> []) runs
  /\ Forall (fun r => if decide (Processor.run_style r = Processor.NoteStyle)
                      then is_reference (Processor.run_text r)
                      else Processor.run_style r
                           = Processor.text_style is_chapter is_error) runs.
Proof. apply DocxRuns.paragraph_runs_spec. Qed.

(** ** Texts without markers *)

Section no_match.
Context {M St : Type}.
Variable matcher : text -> option (M * text).
Variable repl : St -> M -> text * St.

(** Where the pattern matches nowhere, the substitution changes nothing. *)
Lemma re_sub_go_none st : forall s,
  (forall a b, s = a ++ b -> matcher b = None) ->
  re_sub_go matcher repl 0 st s = (s, st).
Proof.
  induction s as [|c r IH]; intros Hnone; [done|].
  cbn [re_sub_go]. rewrite (Hnone [] (c :: r) eq_refl).
  rewrite IH; [done|]. intros a b ->. by apply (Hnone (c :: a) b).
Qed.
End no_match.

Lemma startswith_head c p s : startswith (c :: p) s = true -> c ∈ s.
Proof.
  destruct s as [|d s]; [done|]. simpl.
  destruct (decide (c = d)) as [->|]; [|done]. intros _. set_solver.
Qed.

Lemma nota_match_bracket s m : Processor.nota_match s = Some m -> "["%char ∈ s.
Proof.
  unfold Processor.nota_match.
  destruct (startswith (str "[NOTA:") s) eqn:E; [|done].
  intros _. by apply (startswith_head _ _ _ E).
Qed.

Lemma istartswith_bracket p s :
  CorrecaoKDP.istartswith ("["%char :: p) s = true -> "["%char ∈ s.
Proof.
  destruct s as [|d s]; [done|]. cbn [CorrecaoKDP.istartswith].
  destruct (decide _) as [E|]; [|done]. intros _.
  assert (d = "["%char) as ->; [|set_solver].
  revert E. destruct d as [[|] [|] [|] [|] [|] [|] [|] [|]]; vm_compute;
    intros E; (reflexivity || discriminate E).
Qed.

Lemma footnote_match_bracket s m : CorrecaoKDP.footnote_match s = Some m -> "["%char ∈ s.
Proof.
  unfold CorrecaoKDP.footnote_match, CorrecaoKDP.reference_open.
  destruct (List.find _ CorrecaoKDP.kinds) as [k|] eqn:E; [|done].
  intros _. apply List.find_some in E as [_ E].
  by apply istartswith_bracket in E.
Qed.

Lemma extract_footnotes_unmarked t :
  "["%char ∉ t -> Processor.extract_footnotes t = (t, []).
Proof.
  intros Hn. unfold Processor.extract_footnotes, re_sub.
  rewrite re_sub_go_none; [done|].
  intros a b ->. destruct (Processor.nota_match b) as [m|] eqn:E; [|done].
  apply nota_match_bracket in E. set_solver.
Qed.

(** X15.  A text without opening bracket leaves both marker processors as it
    came, and yields no note. *)
Theorem unmarked_text_unchanged (t : text) :
  "["%char ∉ t ->
  Processor.extract_footnotes t = (t, [])
  /\ CorrecaoKDP.run_final_txt_generation t = (t, []).
Proof.
  intros Hn. split; [by apply extract_footnotes_unmarked|].
  - unfold CorrecaoKDP.run_final_txt_generation, re_sub.
    rewrite re_sub_go_none; [done|].
    intros a b ->. destruct (CorrecaoKDP.footnote_match b) as [m|] eqn:E; [|done].
    apply footnote_match_bracket in E. set_solver.
Qed.

Lemma unmarked_text_unchanged_witness :
  Processor.extract_footnotes (str "Sem notas aqui.") = (str "Sem notas aqui.", [])
  /\ CorrecaoKDP.run_final_txt_generation (str "Sem notas aqui.")
     = (str "Sem notas aqui.", []).
Proof.
  apply unmarked_text_unchanged.
  apply (bool_decide_unpack _). vm_compute. exact I.
Defined.

(** ** A book without the service *)

Lemma elem_of_unspace c (s : text) : c ∈ unspace s <-> c ∈ s /\ isspace c = false.
Proof.
  induction s as [|d s IH]; simpl.
  - split; [by intros ?%elem_of_nil|by intros [?%elem_of_nil _]].
  - destruct (isspace d) eqn:E.
    + rewrite IH, elem_of_cons. split; [tauto|].
      intros [[->|?] ?]; [congruence|done].
    + rewrite !elem_of_cons, IH. split.
      * intros [->|[? ?]]; [by split; [left|]|by split; [right|]].
      * intros [[->|?] ?]; [by left|by right].
Qed.

Lemma elem_of_concat (x : ascii) (ls : list text) :
  x ∈ concat ls <-> exists l, x ∈ l /\ l ∈ ls.
Proof.
  induction ls as [|l ls IH]; simpl.
  - split; [by intros ?%elem_of_nil|by intros (? & _ & ?%elem_of_nil)].
  - rewrite elem_of_app, IH. split.
    + intros [?|(l' & ? & ?)]; [exists l|exists l']; (split; [done|]);
        [by left|by right].
    + intros (l' & ? & [->|?]%elem_of_cons); [by left|right; eauto].
Qed.

Lemma find_head_none c sep (s : text) : c ∉ s -> find (c :: sep) s = None.
Proof.
  induction s as [|d s IH]; intros Hn; [done|].
  rewrite find_unfold.
  destruct (startswith (c :: sep) (d :: s)) eqn:E.
  - apply startswith_head in E. done.
  - rewrite IH; [done|]. set_solver.
Qed.

Module StageQuiet.
Import Processor.

Section quiet.
Variable _hash : text -> string.
Variable client : nat -> text -> option text.
Variable fault : nat -> bool.
Variable model_name : text.
Variable get_correction_prompt : text -> text -> bool -> text.
Variable get_footnote_prompt : text -> text -> text.
Variable completion : list worker_outcome -> list worker_outcome.
Variable batch_size : nat.
Variable mode : stage_mode.
Variable author : text.
Variable all : list text.

Hypothesis completion_perm : forall l, completion l ≡ₚ l.
Hypothesis no_fault : forall k, fault k = false.
Hypothesis no_answer : forall k p, truthy (client k p) = None.

Local Abbreviation batches :=
  (run_batches _hash client fault model_name get_correction_prompt get_footnote_prompt
               completion batch_size mode author all).

(** Without an answer of the client nothing is written. *)
Lemma run_batches_quiet fuel : forall i st, cache (batches fuel i st) = cache st.
Proof.
  induction fuel as [|fuel IH]; intros i st; simpl; [done|].
  destruct (i <? length all); [|done].
  rewrite IH.
  rewrite (StageCache.batch_cache _hash client fault model_name get_correction_prompt
             get_footnote_prompt completion batch_size mode author all).
  match goal with |- foldl _ _ ?ws = _ => assert (Hws : ws = []) end.
  { apply elem_of_nil_inv. intros w Hin.
    apply (StageCache.batch_writes _hash client fault model_name get_correction_prompt
             get_footnote_prompt completion batch_size mode author all completion_perm)
      in Hin as (k & chunk & _ & Hc & Hw).
    apply StageCache.worker_write in Hw as (_ & _ & result & Hr & _).
    by rewrite no_answer in Hr. }
  by rewrite Hws.
Qed.

(** With a cache that holds nothing usable, every output is the fallback
    text of its chunk, and the cache is left as it was. *)
Lemma outage_outputs c :
  batch_size <> 0 ->
  (forall t, truthy (cache_get _hash mode c t) = None) ->
  process_chunks_parallel _hash client fault model_name get_correction_prompt
    get_footnote_prompt completion batch_size all author mode c
  = Some (fallback_text mode <$> all, c).
Proof.
  intros Hbs Hmiss.
  destruct (process_chunks_parallel _ _ _ _ _ _ _ _ _ _ _ _) as [[rs c']|] eqn:E.
  2:{ unfold process_chunks_parallel in E. by destruct batch_size. }
  f_equal. f_equal.
  - apply list_eq. intros k. rewrite list_lookup_fmap.
    destruct (all !! k) as [chunk|] eqn:Hk; simpl.
    + rewrite (Stage.process_chunks_parallel_lookup _ _ _ _ _ _ _ _ _ _ _ _ _ _ _ _ E Hk).
      unfold cache_before. rewrite run_batches_quiet. simpl.
      unfold stage_output. by rewrite no_fault, Hmiss, no_answer.
    + apply lookup_ge_None. apply lookup_ge_None in Hk.
      by rewrite (Stage.process_chunks_parallel_length _ _ _ _ _ _ _ _ _ _ _ _ _ _ E).
  - unfold process_chunks_parallel in E. destruct batch_size as [|b] eqn:Eb; [done|].
    rewrite <- Eb in *. injection E as _ <-. apply run_batches_quiet.
Qed.
End quiet.
End StageQuiet.

Lemma unspace_join_marked l :
  unspace (join [nl; nl] ((fun c => AI_FAILURE_MARKER ++ [nl; nl] ++ c) <$> l))
  = concat ((fun c => unspace AI_FAILURE_MARKER ++ unspace c) <$> l).
Proof.
  rewrite unspace_join by done.
  induction l as [|x l IH]; [done|].
  cbn [fmap list_fmap concat]. rewrite !unspace_app, IH.
  change (unspace [nl; nl]) with (@nil ascii). done.
Qed.

(** X16.  With the service down the book is still produced, marked as failed.
    When no worker raises, the client never answers and the cache holds
    nothing usable, [process_book] on a text that is not blank and has
    neither an opening bracket nor an equals sign hands [generate_docx] a
    text without notes, and returns [True] exactly when [generate_docx]
    saves it; the document then has no page break, and its paragraphs
    hold, whitespace aside, every chunk of the text behind the failure
    marker.  Either way the cache is left as it was. *)
Theorem book_without_service
    (count_tokens : text -> Z) (_hash : text -> string)
    (client1 client2 : nat -> text -> option text) (fault1 fault2 : nat -> bool)
    (model_name : text) (cprompt : text -> text -> bool -> text)
    (fprompt : text -> text -> text)
    (completion1 completion2
       : list Processor.worker_outcome -> list Processor.worker_outcome)
    (batch_size : nat) (chapter_regex_match : text -> bool)
    (docx_saved : text -> list Processor.footnote -> bool)
    (original author : text) (c : CorrectionCache) :
  batch_size <> 0 ->
  (forall l, completion1 l ≡ₚ l) -> (forall l, completion2 l ≡ₚ l) ->
  (forall k, fault1 k = false) -> (forall k, fault2 k = false) ->
  (forall k p, Processor.truthy (client1 k p) = None) ->
  (forall k p, Processor.truthy (client2 k p) = None) ->
  (forall stage t, Processor.truthy (cache_get _hash stage c t) = None) ->
  unspace original <> [] ->
  "["%char ∉ original -> "="%char ∉ original ->
  exists final_text,
    let doc := Processor.generate_docx chapter_regex_match final_text [] in
    Processor.process_book count_tokens _hash client1 client2 fault1 fault2 model_name
      cprompt fprompt completion1 completion2 batch_size chapter_regex_match docx_saved
      original author c
    = (if docx_saved final_text [] then Some doc else None, c)
    /\ unspace (concat (para_texts doc))
       = concat ((fun chunk => unspace AI_FAILURE_MARKER ++ unspace chunk)
                   <$> Processor.create_chunks count_tokens original MAX_CHUNK_TOKENS)
    /\ page_breaks doc = 0.
Proof.
  intros Hbs Hp1 Hp2 Hf1 Hf2 Hc1 Hc2 Hmiss Hnb Hbr Heq.
  unfold Processor.process_book.
  pose proof (ProcessorCoverage.create_chunks_content count_tokens original MAX_CHUNK_TOKENS)
    as Hcov.
  destruct (Processor.create_chunks count_tokens original MAX_CHUNK_TOKENS)
    as [|ch chunks] eqn:E.
  { simpl in Hcov. congruence. }
  rewrite (StageQuiet.outage_outputs _hash client1 fault1 model_name cprompt fprompt
             completion1 batch_size Correction author (ch :: chunks) Hp1 Hf1 Hc1 c Hbs
             (Hmiss Correction)).
  cbn zeta.
  rewrite (StageQuiet.outage_outputs _hash client2 fault2 model_name cprompt fprompt
             completion2 batch_size Footnotes author _ Hp2 Hf2 Hc2 c Hbs
             (Hmiss Footnotes)).
  change (Processor.fallback_text Footnotes <$> ?l) with (id <$> l).
  rewrite list_fmap_id.
  set (corrected_text := join [nl; nl] (Processor.fallback_text Correction <$> ch :: chunks)).
  set (marked_text := join [nl; nl]
         (Processor.create_chunks count_tokens corrected_text MAX_CHUNK_TOKENS)).
  assert (Hcorr : unspace corrected_text
                  = concat ((fun c => unspace AI_FAILURE_MARKER ++ unspace c)
                              <$> ch :: chunks)).
  { apply (unspace_join_marked (ch :: chunks)). }
  assert (Hmarked : unspace marked_text = unspace corrected_text).
  { unfold marked_text. rewrite unspace_join by done.
    apply ProcessorCoverage.create_chunks_content. }
  assert (Hchars : forall x, isspace x = false -> x ∉ AI_FAILURE_MARKER ->
                             x ∉ original -> x ∉ marked_text).
  { intros x Hx Hm Ho Hin.
    assert (Hu : x ∈ unspace marked_text) by (by apply elem_of_unspace).
    rewrite Hmarked, Hcorr in Hu.
    apply elem_of_concat in Hu as (piece & Hin' & Hpiece).
    apply list_elem_of_fmap in Hpiece as (c0 & -> & Hc0).
    apply elem_of_app in Hin' as [Hin'|Hin'].
    - apply elem_of_unspace in Hin' as [? _]. done.
    - apply Ho.
      assert (Hx' : x ∈ unspace (concat (ch :: chunks))).
      { apply elem_of_unspace. split; [|done]. apply elem_of_concat.
        exists c0. split; [|done]. by apply elem_of_unspace in Hin' as [? _]. }
      rewrite Hcov in Hx'. by apply elem_of_unspace in Hx' as [? _]. }
  assert (Hbr' : "["%char ∉ marked_text).
  { apply Hchars; [done| |done]. apply (bool_decide_unpack _). by vm_compute. }
  assert (Heq' : "="%char ∉ marked_text).
  { apply Hchars; [done| |done]. apply (bool_decide_unpack _). by vm_compute. }
  rewrite (extract_footnotes_unmarked marked_text Hbr').
  exists marked_text. cbn zeta. split; [reflexivity|].
  split.
  - rewrite generate_docx_texts. unfold split.
    rewrite split_go_none by (by apply find_head_none).
    simpl. rewrite app_nil_r. by rewrite Hmarked, Hcorr.
  - rewrite generate_docx_page_breaks. unfold split.
    by rewrite split_go_none by (by apply find_head_none).
Qed.

Lemma book_without_service_witness :
  exists doc,
    Processor.process_book Processor.count_tokens_fallback string_of_list_ascii
      (fun _ _ => None) (fun _ _ => None) (fun _ => false) (fun _ => false) (str "m")
      (fun chunk _ _ => chunk) (fun chunk _ => chunk) (@rev _) (fun l => l) 2
      (fun _ => false) (fun _ _ => true)
      (str "Era uma vez." ++ [nl; nl] ++ str "Fim.") (str "x") init_db
    = (Some doc, init_db)
    /\ unspace (concat (para_texts doc))
       = concat ((fun chunk => unspace AI_FAILURE_MARKER ++ unspace chunk)
                   <$> Processor.create_chunks Processor.count_tokens_fallback
                         (str "Era uma vez." ++ [nl; nl] ++ str "Fim.") MAX_CHUNK_TOKENS)
    /\ page_breaks doc = 0.
Proof.
  destruct (book_without_service Processor.count_tokens_fallback string_of_list_ascii
              (fun _ _ => None) (fun _ _ => None) (fun _ => false) (fun _ => false)
              (str "m") (fun chunk _ _ => chunk) (fun chunk _ => chunk) (@rev _)
              (fun l => l) 2 (fun _ => false) (fun _ _ => true)
              (str "Era uma vez." ++ [nl; nl] ++ str "Fim.") (str "x") init_db)
    as (final_text & H).
  - discriminate.
  - intros l. symmetry. apply Permutation_rev.
  - reflexivity.
  - reflexivity.
  - reflexivity.
  - reflexivity.
  - reflexivity.
  - intros [] t; reflexivity.
  - vm_compute. discriminate.
  - apply (bool_decide_unpack _). vm_compute. exact I.
  - apply (bool_decide_unpack _). vm_compute. exact I.
  - by eexists.
Defined.

Module KDPFootnotePass.
Import CorrecaoKDP CorrecaoKDP.

Section pass.
Variable service : nat -> nat -> api_response.
Variable urandom : nat -> nat -> Z.

Lemma call_from_first s u base attempt n :
  exists tr, snd (call_from s u base attempt (S n)) = Invoke attempt :: tr.
Proof.
  cbn [call_from].
  assert (Hretry : forall base',
    exists tr, snd (if (attempt <? max_retries - 1)%nat
                    then let '(r, tr) := call_from s u base' (S attempt) n in
                         (r, Invoke attempt :: Sleep base' attempt (Some (u attempt)) :: tr)
                    else (None, [Invoke attempt])) = Invoke attempt :: tr).
  { intros base'. destruct (attempt <? max_retries - 1)%nat; [|by eexists].
    destruct (call_from s u base' (S attempt) n). by eexists. }
  destruct (s attempt) as [msg| | |parts|t|]; try apply Hretry; try (by eexists).
  - destruct (result_text (CandidateParts parts)) as [x|]; [|apply Hretry].
    destruct (nonempty x); [by eexists|apply Hretry].
  - destruct (result_text (CandidateText t)) as [x|]; [|apply Hretry].
    destruct (nonempty x); [by eexists|apply Hretry].
Qed.

Lemma call_gemini_invocations i :
  1 <= invocations (snd (_call_gemini_api (service i) (urandom i))) <= 5.
Proof.
  split; [|apply (KDPClient.call_from_invocations _ _ max_retries)].
  unfold _call_gemini_api.
  destruct (call_from_first (service i) (urandom i) 5 0 4) as [tr Htr].
  change (call_from (service i) (urandom i) 5 0 max_retries)
    with (call_from (service i) (urandom i) 5 0 5).
  rewrite Htr, invocations_cons. simpl. lia.
Qed.

(** The loop answers, for each chunk, with what the call for it returned,
    or with the chunk itself when the call returned nothing. *)
Lemma footnote_loop l : forall k marked tr,
  let st := foldl (footnote_step service urandom) (marked, tr)
                  (imap (fun i chunk => (k + i, chunk)) l) in
  st.1 = marked ++ imap (fun i chunk =>
                           default chunk (fst (_call_gemini_api (service (k + i))
                                                 (urandom (k + i))))) l
  /\ length l + invocations tr <= invocations st.2 <= 5 * length l + invocations tr.
Proof.
  induction l as [|c l IH]; intros k marked tr; cbn zeta.
  - simpl. rewrite app_nil_r. split; [done|lia].
  - rewrite !imap_cons. cbn [foldl]. rewrite Nat.add_0_r.
    pose proof (call_gemini_invocations k) as Hinv.
    destruct (_call_gemini_api (service k) (urandom k)) as [m tr1] eqn:E.
    assert (Hstep : footnote_step service urandom (marked, tr) (k, c)
                    = (marked ++ [match m with Some m0 => m0 | None => c end], tr ++ tr1))
      by (unfold footnote_step; by rewrite E).
    rewrite Hstep.
    assert (Hext : forall {B} (f : nat -> text -> B),
              imap ((fun i chunk => f (k + i) chunk) ∘ S) l
              = imap (fun i chunk => f (S k + i) chunk) l).
    { intros B f. apply imap_ext. intros i x _. simpl. f_equal. lia. }
    rewrite (Hext _ (fun j chunk => (j, chunk))).
    rewrite (Hext _ (fun j chunk => default chunk
                       (fst (_call_gemini_api (service j) (urandom j))))).
    destruct (IH (S k) (marked ++ [match m with Some m0 => m0 | None => c end])
                 (tr ++ tr1)) as [IH1 IH2].
    cbn zeta in IH1, IH2. rewrite IH1. rewrite invocations_app in IH2.
    simpl in Hinv. split.
    + rewrite <- app_assoc. simpl. by destruct m.
    + simpl length. lia.
Qed.

Lemma imap_all_none (l : list text) :
  (forall i, fst (_call_gemini_api (service i) (urandom i)) = None) ->
  imap (fun i chunk => default chunk (fst (_call_gemini_api (service (0 + i))
                                             (urandom (0 + i))))) l = l.
Proof.
  intros Hnone. rewrite <- (list_fmap_id l) at 2. rewrite <- imap_const.
  apply imap_ext. intros i x _. simpl. by rewrite Hnone.
Qed.

Lemma all_fail_none :
  (forall i k, attempt_fails (service i k) = true) ->
  forall i, fst (_call_gemini_api (service i) (urandom i)) = None.
Proof.
  intros Hall i. unfold _call_gemini_api.
  apply KDPClient.call_from_all_fail. intros k _. apply Hall.
Qed.
End pass.

Lemma kdp_no_chunks t max : create_chunks t max = [] <-> unspace t = [].
Proof.
  split.
  - intros H. rewrite <- (KDPCoverage.kdp_create_chunks_content t max). by rewrite H.
  - intros H. apply concat_blank; [apply KDPNonblank.kdp_create_chunks_nonblank|].
    by rewrite KDPCoverage.kdp_create_chunks_content.
Qed.
End KDPFootnotePass.

(** X17.  The second pass of [correcaoKDP.py] gives up exactly when the text is
    blank, and then calls nothing.  Otherwise it succeeds, and calls the
    service at least once and at most five times for each chunk; when every
    attempt of every call fails, the marked text is the chunks joined by
    blank lines, which holds every character of the text that is not
    whitespace, in order. *)
Theorem footnote_pass_outcome (service : nat -> nat -> CorrecaoKDP.api_response)
    (urandom : nat -> nat -> Z) (t : text) :
  let chunks := CorrecaoKDP.create_chunks t MAX_CHUNK_TOKENS in
  let r := CorrecaoKDP.run_footnote_id_pass service urandom (Some t) in
  (unspace t = [] -> r = ((false, None), []))
  /\ (unspace t <> [] ->
      exists marked,
        r.1 = (true, Some marked)
        /\ length chunks <= invocations r.2 <= 5 * length chunks
        /\ ((forall i k, CorrecaoKDP.attempt_fails (service i k) = true) ->
            marked = join [nl; nl] chunks /\ unspace marked = unspace t)).
Proof.
  cbn zeta. unfold CorrecaoKDP.run_footnote_id_pass. split.
  - intros Hb. by rewrite (proj2 (KDPFootnotePass.kdp_no_chunks t MAX_CHUNK_TOKENS) Hb).
  - intros Hnb.
    destruct (CorrecaoKDP.create_chunks t MAX_CHUNK_TOKENS) as [|c l] eqn:E.
    { by apply KDPFootnotePass.kdp_no_chunks in E. }
    destruct (KDPFootnotePass.footnote_loop service urandom (c :: l) 0 [] []) as [H1 H2].
    cbn zeta in H1, H2.
    change (imap (fun i chunk => (0 + i, chunk)) (c :: l))
      with (imap (fun i chunk => (i, chunk)) (c :: l)) in H1, H2.
    destruct (foldl _ _ _) as [marked tr]. cbn [fst snd] in *.
    exists (join [nl; nl] marked). split; [done|].
    change (invocations []) with 0 in H2. split; [lia|].
    intros Hfail. rewrite H1.
    rewrite KDPFootnotePass.imap_all_none
      by (by apply KDPFootnotePass.all_fail_none).
    split; [done|]. rewrite unspace_join by done.
    rewrite <- E. apply KDPCoverage.kdp_create_chunks_content.
Qed.

Lemma footnote_pass_outcome_witness :
  let r := CorrecaoKDP.run_footnote_id_pass (fun _ _ => CorrecaoKDP.NoCandidates)
             (fun _ _ => 0%Z) (Some (str "Um.  " ++ [nl; nl; nl] ++ str "Dois.")) in
  r.1 = (true, Some (str "Um.  " ++ [nl; nl; nl] ++ str "Dois."))
  /\ invocations r.2 = 5.
Proof.
  cbn zeta.
  destruct (footnote_pass_outcome (fun _ _ => CorrecaoKDP.NoCandidates) (fun _ _ => 0%Z)
              (str "Um.  " ++ [nl; nl; nl] ++ str "Dois.")) as [_ H].
  destruct H as (marked & Hr & Hinv & Hout); [by vm_compute|].
  destruct (Hout (fun _ _ => eq_refl)) as [Hm _].
  split; [rewrite Hr, Hm|]; vm_compute; reflexivity.
Defined.

Module KDPLogs.
Import CorrecaoKDP.

Lemma startswith_char d c (rest : text) :
  startswith [d] (c :: rest) = bool_decide (d = c).
Proof.
  cbn [startswith]. destruct (decide (d = c)).
  - rewrite bool_decide_eq_true_2 by done. by destruct rest.
  - by rewrite bool_decide_eq_false_2.
Qed.

Lemma split_char_app d b : forall a acc,
  split_go [d] 0 acc (a ++ d :: b) = split_go [d] 0 acc a ++ split_go [d] 0 [] b.
Proof.
  induction a as [|c a IH]; intros acc.
  - cbn [app split_go]. rewrite startswith_char, bool_decide_eq_true_2 by done.
    simpl length. simpl. done.
  - simpl app. cbn [split_go]. rewrite !startswith_char.
    destruct (decide (d = c)) as [->|Hne].
    + rewrite !bool_decide_eq_true_2 by done. simpl length. simpl. by rewrite IH.
    + rewrite !bool_decide_eq_false_2 by done. by rewrite IH.
Qed.

Lemma find_char_none d (s : text) : d ∉ s -> find [d] s = None.
Proof.
  induction s as [|c s IH]; intros Hn; [done|].
  rewrite find_unfold, startswith_char.
  rewrite bool_decide_eq_false_2 by set_solver. by rewrite IH by set_solver.
Qed.

Lemma split_line (s : text) : nl ∉ s -> split [nl] (s ++ [nl]) = [s; []].
Proof.
  intros Hn. unfold split. rewrite (split_char_app nl [] s []).
  rewrite split_go_none by (by apply find_char_none). done.
Qed.

Lemma load_app_line r s :
  nl ∉ s ->
  load_processed_files (Some (r ++ [nl] ++ s ++ [nl]))
  = load_processed_files (Some (r ++ [nl]))
    ∪ (if nonempty (strip s) then {[ strip s ]} else ∅).
Proof.
  intros Hn. unfold load_processed_files, split.
  change (r ++ [nl] ++ s ++ [nl]) with (r ++ nl :: (s ++ [nl])).
  rewrite (split_char_app nl (s ++ [nl]) r []).
  rewrite (split_char_app nl [] r []).
  change (split_go [nl] 0 [] (s ++ [nl])) with (split [nl] (s ++ [nl])).
  rewrite split_line by done.
  rewrite !fmap_app, !List.filter_app, !list_to_set_app_L.
  cbn [fmap list_fmap split_go rev List.filter].
  change (strip []) with (@nil ascii). cbn [nonempty List.filter].
  destruct (nonempty (strip s)); cbn [list_to_set foldr];
    by rewrite ?(right_id_L ∅ (∪)).
Qed.
End KDPLogs.

(** X18.  An identifier written to the log is in the set of the next load,
    stripped of the whitespace around it, beside what the log held already:
    for a log whose last line is complete (or a missing file) and an
    identifier without line break.  The log keeps its last line complete. *)
Theorem logged_file_is_loaded (log : option text) (file_identifier : text) :
  complete_lines log ->
  nl ∉ file_identifier -> CorrecaoKDP.carriage_return ∉ file_identifier ->
  CorrecaoKDP.load_processed_files (CorrecaoKDP.log_processed_file log file_identifier)
  = CorrecaoKDP.load_processed_files log
    ∪ (if nonempty (strip file_identifier) then {[ strip file_identifier ]} else ∅)
  /\ complete_lines (CorrecaoKDP.log_processed_file log file_identifier).
Proof.
  intros Hlog Hnl _. split.
  2:{ right. exists (default [] log ++ file_identifier). by rewrite <- app_assoc. }
  unfold CorrecaoKDP.log_processed_file.
  assert (Hempty : CorrecaoKDP.load_processed_files (Some (file_identifier ++ [nl]))
                   = ∅ ∪ (if nonempty (strip file_identifier)
                          then {[ strip file_identifier ]} else ∅)).
  { unfold CorrecaoKDP.load_processed_files. rewrite KDPLogs.split_line by done.
    cbn [fmap list_fmap List.filter]. change (strip []) with (@nil ascii).
    cbn [nonempty]. destruct (nonempty (strip file_identifier)); simpl; set_solver. }
  destruct log as [content|]; [|exact Hempty].
  destruct Hlog as [->|[r ->]]; [exact Hempty|].
  simpl default. rewrite <- app_assoc. by apply KDPLogs.load_app_line.
Qed.

Lemma logged_file_is_loaded_witness :
  str "Autor/livro.txt"
    ∈ CorrecaoKDP.load_processed_files
        (CorrecaoKDP.log_processed_file (Some (str "Outro/a.txt" ++ [nl]))
           (str "Autor/livro.txt")).
Proof.
  destruct (logged_file_is_loaded (Some (str "Outro/a.txt" ++ [nl]))
              (str "Autor/livro.txt")) as [H _].
  - right. by exists (str "Outro/a.txt").
  - apply (bool_decide_unpack _). vm_compute. exact I.
  - apply (bool_decide_unpack _). vm_compute. exact I.
  - rewrite H. apply elem_of_union_r.
    change (strip (str "Autor/livro.txt")) with (str "Autor/livro.txt").
    by apply elem_of_singleton.
Defined.
